(** * Admitai: canonical programme-name resolution

    A shallow embedding of the canonical-mapping services of the backend
    ([app/services/canonical/*.py] and the checkpoint view of
    [app/api/v1/canonical.py]) together with the properties that the
    design specification states about them.

    Conventions of the embedding.
    - A Python [str] is a [string]: a sequence of 8-bit characters.  ASCII
      text is represented character by character; other text by its UTF-8
      bytes.  [lower] folds the letters A-Z only and [is_space] recognises
      the ASCII white space of Python ([str.isspace]), which is exact for
      ASCII text and for the CJK keywords of the keyword table.
    - Python's truthiness tests ([if not name], [x or ""], [if cid]) are
      written out as the boolean functions [truthy_str], [or_empty],
      [truthy_id].
    - The overlap score is a Python float obtained by one correctly rounded
      division [hits / len(keywords)] of two small integers; it is
      represented by the exact rational ([Q]).  Rounding to nearest is
      monotone, the literal [0.3] is the rounding of 3/10, and two
      different fractions whose denominators are lengths of keyword lists
      lie much further apart than one unit in the last place, so the
      comparisons [score >= 0.3] and [score > best_score] have the same
      outcome on the rationals as on the floats.
    - A run is a function of the tables and of an [environment] that
      fixes what the outside does: the reply of the catalog, the reads and
      writes that raise, the reads that reply without data, the flags the
      worker finds set.  The answers of
      the oracle and the similarity score are functions of their
      arguments. *)

From Stdlib Require Import Bool Arith ZArith QArith Lia List.
From Stdlib Require Import Strings.Ascii Strings.String.
Import ListNotations.

Close Scope Q_scope.
Local Open Scope string_scope.
Local Open Scope list_scope.
Local Open Scope nat_scope.

(** ** Python string primitives *)

Module PyStr.

(** [not s] is true of the empty string only. *)
Definition truthy_str (s : string) : bool :=
  match s with
  | EmptyString => false
  | String _ _ => true
  end.

(** [d.get(key) or ""] for a value that may be absent or [None]. *)
Definition or_empty (o : option string) : string :=
  match o with
  | Some s => s
  | None => ""
  end.

Definition lower_char (c : ascii) : ascii :=
  let n := nat_of_ascii c in
  if (65 <=? n) && (n <=? 90) then ascii_of_nat (n + 32) else c.

(** [s.lower()] *)
Fixpoint lower (s : string) : string :=
  match s with
  | EmptyString => EmptyString
  | String c s' => String (lower_char c) (lower s')
  end.

(** White space as [str.isspace], [str.split()], [str.strip()] and the
    regular expression class [\s] see it: TAB, LF, VT, FF, CR, the four
    separators FS, GS, RS, US and the space. *)
Definition is_space (c : ascii) : bool :=
  let n := nat_of_ascii c in
  ((9 <=? n) && (n <=? 13)) || ((28 <=? n) && (n <=? 32)).

(** [s.startswith(p)] *)
Fixpoint startswith (s p : string) : bool :=
  match p with
  | EmptyString => true
  | String b p' =>
      match s with
      | EmptyString => false
      | String a s' => Ascii.eqb a b && startswith s' p'
      end
  end.

(** [p in s]: [p] occurs in [s] as a contiguous substring. *)
Fixpoint contains (s p : string) : bool :=
  startswith s p ||
  match s with
  | EmptyString => false
  | String _ s' => contains s' p
  end.

(** [len(s.split())]: the number of maximal runs of non-space characters.
    [in_word] tells whether the previous character belonged to a word. *)
Fixpoint count_words (in_word : bool) (s : string) : nat :=
  match s with
  | EmptyString => 0
  | String c s' =>
      if is_space c then count_words false s'
      else if in_word then count_words true s'
      else S (count_words true s')
  end.

Definition word_count (s : string) : nat := count_words false s.

Fixpoint lstrip (s : string) : string :=
  match s with
  | EmptyString => EmptyString
  | String c s' => if is_space c then lstrip s' else s
  end.

(** Drops the white space at the end: a character is kept when something
    that is kept follows it or when it is not a space itself. *)
Fixpoint rstrip (s : string) : string :=
  match s with
  | EmptyString => EmptyString
  | String c s' =>
      match rstrip s' with
      | EmptyString => if is_space c then EmptyString else String c EmptyString
      | r => String c r
      end
  end.

(** [s.strip()] *)
Definition strip (s : string) : string := rstrip (lstrip s).

End PyStr.
Import PyStr.

(** ** normalize.py *)

Module Normalize.

(** The alternation of the first substitution, in the order in which the
    regular expression tries its branches. *)
Definition degree_tokens : list string :=
  ["msc"; "ms"; "ma"; "meng"; "beng"; "phd"; "mres"; "programme"; "program"].

(** Length of the match of [(msc|ms|...)] at the start of [s]: the first
    branch that is a prefix of [s] wins (nothing follows the group, so the
    engine never backtracks into a later branch). *)
Fixpoint match_here (alts : list string) (s : string) : option nat :=
  match alts with
  | [] => None
  | t :: alts' => if startswith s t then Some (String.length t) else match_here alts' s
  end.

(** [re.sub(r"(msc|ms|...)", "", s)]: the text is scanned from the left;
    where a branch matches the matched characters are dropped and the scan
    resumes behind them, elsewhere the character is copied.  [skip] counts
    the characters of the current match that are still to be dropped. *)
Fixpoint remove_tokens_from (skip : nat) (s : string) : string :=
  match s with
  | EmptyString => EmptyString
  | String c s' =>
      match skip with
      | S k => remove_tokens_from k s'
      | O =>
          match match_here degree_tokens s with
          | Some (S k) => remove_tokens_from k s'
          | _ => String c (remove_tokens_from 0 s')
          end
      end
  end.

Definition remove_tokens (s : string) : string := remove_tokens_from 0 s.

(** The character class of the second substitution: ( ) [ ] { } : ; / - *)
Definition is_special (c : ascii) : bool :=
  existsb (Ascii.eqb c) (list_ascii_of_string "()[]{}:;/-").

(** [re.sub(r"[\(\)\[\]{}:;/\-]", " ", s)] *)
Fixpoint replace_special (s : string) : string :=
  match s with
  | EmptyString => EmptyString
  | String c s' => String (if is_special c then " "%char else c) (replace_special s')
  end.

(** [re.sub(r"\s+", " ", s)]: each maximal run of white space becomes one
    space.  [in_run] tells whether the previous character was a space. *)
Fixpoint collapse_from (in_run : bool) (s : string) : string :=
  match s with
  | EmptyString => EmptyString
  | String c s' =>
      if is_space c
      then if in_run then collapse_from true s' else String " "%char (collapse_from true s')
      else String c (collapse_from false s')
  end.

Definition collapse_spaces (s : string) : string := collapse_from false s.

Definition normalize_name (name : string) : string :=
  if negb (truthy_str name) then ""
  else
    let normalized := lower name in
    let normalized := remove_tokens normalized in
    let normalized := replace_special normalized in
    let normalized := collapse_spaces normalized in
    strip normalized.

End Normalize.
Import Normalize.

(** ** fuzzy_match.py

    [rapidfuzz.fuzz.partial_ratio] belongs to an external library: it is a
    parameter of the development, a score on the scale 0-100. *)

Module FuzzyMatch.
Section Fuzzy.

Variable partial_ratio : string -> string -> Q.

Definition fuzzy_similarity (a b : string) : Q :=
  if negb (truthy_str a) || negb (truthy_str b) then 0%Q
  else partial_ratio (lower a) (lower b).

(** [fuzzy_similarity(a, b) >= threshold]; the callers use the default
    threshold 85. *)
Definition is_fuzzy_match (a b : string) (threshold : Q) : bool :=
  Qle_bool threshold (fuzzy_similarity a b).

End Fuzzy.
End FuzzyMatch.
Import FuzzyMatch.

(** ** keyword_match.py *)

Module KeywordMatch.

(** The keyword dictionary.  A Python [dict] iterates in insertion order,
    so the table is the list of its items in the order of the source. *)
Definition MAJOR_KEYWORDS : list (string * list string) :=
  [ ("computer_science",
      ["computer"; "computing"; "software"; "programming"; "code";
       "artificial intelligence"; "ai"; "machine learning"; "ml";
       "deep learning"; "neural";
       "data"; "data science"; "database"; "big data";
       "algorithm"; "theory"; "information"; "information system";
       "cyber"; "security"; "网络安全";
       "机器人"; "人工智能"; "机器学习"; "深度学习";
       "计算机"; "软件"; "编程"; "算法"]);
    ("civil_engineering",
      ["civil"; "structural"; "infrastructure";
       "geotechnical"; "transportation"; "bridge";
       "hydraulic"; "construction";
       "土木"; "结构"; "岩土"; "交通"; "桥梁"; "施工";
       "水利"; "市政"]);
    ("chemical_engineering",
      ["chemical"; "chemistry"; "process"; "reaction";
       "polymer"; "bioprocess"; "energy"; "catalysis";
       "化工"; "化学"; "过程"; "反应"; "催化"; "聚合物"]);
    ("materials_science",
      ["materials"; "composite"; "composites";
       "nano"; "nanomaterials"; "polymer"; "metallurgy";
       "biomaterials";
       "材料"; "复合材料"; "金属"; "纳米"; "高分子"]);
    ("mechanical_engineering",
      ["mechanical"; "mechatronics"; "robotics";
       "manufacturing"; "dynamics"; "thermo"; "fluid";
       "机械"; "机电"; "动力"; "流体"; "热能"; "制造"; "机器人"]);
    ("electrical_engineering",
      ["electrical"; "electronics"; "signal";
       "communication"; "power"; "semiconductor";
       "电气"; "电子"; "信号"; "通信"; "半导体"; "电力"]);
    ("biomedical_engineering",
      ["biomedical"; "bioengineering"; "medical";
       "healthcare"; "neuro"; "neuroscience";
       "生物医学"; "医工"; "医疗"; "神经"; "生物工程"]);
    ("environmental_engineering",
      ["environment"; "environmental"; "sustainability";
       "ecology"; "climate"; "carbon";
       "环境"; "生态"; "可持续"; "碳排放"; "气候"]);
    ("energy_engineering",
      ["energy"; "renewable"; "nuclear"; "power systems";
       "hydrogen"; "battery";
       "能源"; "可再生"; "核能"; "电力系统"; "储能"; "电池"]);
    ("finance",
      ["finance"; "financial"; "investment"; "market";
       "fintech"; "quant"; "risk"; "wealth";
       "金融"; "投资"; "量化"; "风险"; "财富"; "资产"]);
    ("management",
      ["management"; "business"; "strategy"; "consulting";
       "marketing"; "hr"; "supply chain"; "operations";
       "商业"; "管理"; "运营"; "供应链"; "市场"; "战略"; "咨询"]);
    ("data_science",
      ["data science"; "data analytics"; "statistics";
       "machine learning"; "AI"; "big data";
       "数据科学"; "数据分析"; "统计"; "人工智能"]);
    ("mathematics",
      ["mathematics"; "applied math"; "statistics";
       "algebra"; "calculus"; "probability";
       "数学"; "应用数学"; "统计"]);
    ("communications_engineering",
      ["communications"; "signal processing"; "wireless";
       "antenna"; "5g"; "通信"; "信号处理"; "无线"]);
    ("life_science",
      ["biology"; "biotech"; "biomedical";
       "生命科学"; "生物"; "生物技术"]) ].

(** [sum(1 for kw in keywords if kw.lower() in name_lower)] *)
Definition keyword_hits (name_lower : string) (keywords : list string) : nat :=
  List.length (filter (fun kw => contains name_lower (lower kw)) keywords).

Definition keyword_overlap_score (name : string) (keywords : list string) : Q :=
  match keywords with
  | [] => 0%Q
  | _ :: _ =>
      if negb (truthy_str name) then 0%Q
      else
        let name_lower := lower name in
        let hits := keyword_hits name_lower keywords in
        Qmake (Z.of_nat hits) (Pos.of_nat (List.length keywords))
  end.

End KeywordMatch.
Import KeywordMatch.

(** ** llm_match.py

    The chat completion is an external service.  [chat_completion prompt]
    is the text of the first choice of the reply, or [None] when the call
    or the access to the reply raises. *)

Module LlmMatch.
Section Llm.

Variable chat_completion : string -> option string.

Definition prompt_for (a b : string) : string :=
  "Do these two program names refer to the same postgraduate programme? A: "
    ++ a ++ " B: " ++ b ++ ". Reply yes or no.".

Definition llm_semantic_match (a b : string) : bool :=
  if negb (truthy_str a) || negb (truthy_str b) then false
  else
    match chat_completion (prompt_for a b) with
    | Some content => String.eqb (lower (strip content)) "yes"
    | None => false
    end.

End Llm.
End LlmMatch.
Import LlmMatch.

(** ** canonical_mapper.py *)

Module CanonicalMapper.

(** A row of the table [canonical_programs].  [cp_id] is the column [id]
    (the primary key, present in every row); the two other columns may be
    null or absent, which [dict.get] reports as [None]. *)
Record canonical_program : Type := {
  cp_id : Z;
  canonical_program_name_en : option string;
  keywords : option (list string)
}.

(** [for c in canonical_list: if accepts(c): return c.get("id")] *)
Fixpoint first_accepted (accepts : canonical_program -> bool)
  (canonical_list : list canonical_program) : option Z :=
  match canonical_list with
  | [] => None
  | c :: rest => if accepts c then Some (cp_id c) else first_accepted accepts rest
  end.

Section Mapper.

Variable partial_ratio : string -> string -> Q.
Variable chat_completion : string -> option string.

(** Step 1: [normalize_name(canonical_name) == norm] *)
Definition exact_accepts (norm : string) (c : canonical_program) : bool :=
  let canonical_name := or_empty (canonical_program_name_en c) in
  String.eqb (normalize_name canonical_name) norm.

(** Step 2: [is_fuzzy_match(norm, normalize_name(canonical_name))] *)
Definition fuzzy_accepts (norm : string) (c : canonical_program) : bool :=
  let canonical_name := or_empty (canonical_program_name_en c) in
  is_fuzzy_match partial_ratio norm (normalize_name canonical_name) 85.

(** Step 3: [if keywords: score = ...; if score >= 0.3] *)
Definition keyword_accepts (norm : string) (c : canonical_program) : bool :=
  match keywords c with
  | Some (kw :: kws) => Qle_bool (3 # 10) (keyword_overlap_score norm (kw :: kws))
  | _ => false
  end.

(** Step 4: [llm_semantic_match(program_name, canonical_name)] *)
Definition semantic_accepts (program_name : string) (c : canonical_program) : bool :=
  let canonical_name := or_empty (canonical_program_name_en c) in
  llm_semantic_match chat_completion program_name canonical_name.

Definition map_to_canonical (program_name : string)
  (canonical_list : list canonical_program) : option Z :=
  match program_name, canonical_list with
  | EmptyString, _ => None
  | _, [] => None
  | _, _ =>
      let norm := normalize_name program_name in
      match first_accepted (exact_accepts norm) canonical_list with
      | Some i => Some i
      | None =>
      match first_accepted (fuzzy_accepts norm) canonical_list with
      | Some i => Some i
      | None =>
      match first_accepted (keyword_accepts norm) canonical_list with
      | Some i => Some i
      | None =>
      match first_accepted (semantic_accepts program_name) canonical_list with
      | Some i => Some i
      | None => None
      end end end end
  end.

End Mapper.
End CanonicalMapper.
Import CanonicalMapper.

(** ** category_classifier.py *)

Module CategoryClassifier.

(** [score > best_score] on the overlap scores. *)
Definition Qgt_bool (x y : Q) : bool := negb (Qle_bool x y).

(** The loop over [MAJOR_KEYWORDS.items()], with the two variables
    [best_category] and [best_score] it updates. *)
Fixpoint best_match (text : string) (table : list (string * list string))
  (best_category : option string) (best_score : Q) : option string :=
  match table with
  | [] => best_category
  | (cat, kw_list) :: rest =>
      let score := keyword_overlap_score text kw_list in
      if Qgt_bool score best_score
      then best_match text rest (Some cat) score
      else best_match text rest best_category best_score
  end.

(** The classifier over an arbitrary keyword table. *)
Definition classify_with (table : list (string * list string))
  (program_name : string) (requirements : option string) : string :=
  let text := lower (program_name ++ " " ++ or_empty requirements) in
  if negb (truthy_str (strip text)) then "other"
  else
    match best_match text table None 0%Q with
    | None => "other"
    | Some best_category => best_category
    end.

Definition classify_category : string -> option string -> string :=
  classify_with MAJOR_KEYWORDS.

End CategoryClassifier.
Import CategoryClassifier.

(** ** run_pipeline.py

    The stores are the tables of a remote database, the flags are shared
    with the threads that call [pause_pipeline], [resume_pipeline] and
    [stop_pipeline].  What the run cannot decide itself is collected in an
    [environment]: the reply of the catalog query, which reads and writes
    raise, and what the worker finds in the shared flags when it examines
    them at the head of a record. *)

Module RunPipeline.

Local Open Scope Z_scope.

Inductive table : Type := programs | ic_program_stats | cases.

Definition table_eqb (a b : table) : bool :=
  match a, b with
  | programs, programs | ic_program_stats, ic_program_stats | cases, cases => true
  | _, _ => false
  end.

(** A row of one of the three source tables.  [raw_name] is the column
    that carries the free-text name: [program_en_name] of [programs],
    [program_name] of [ic_program_stats], [applied_program] of [cases].
    [requirements] and [category] are columns of [programs]. *)
Record row : Type := {
  row_id : Z;
  raw_name : option string;
  requirements : option string;
  canonical_program_id : option Z;
  category : option string
}.

Record database : Type := {
  tbl_programs : list row;
  tbl_stats : list row;
  tbl_cases : list row
}.

Definition rows_of (d : database) (t : table) : list row :=
  match t with
  | programs => tbl_programs d
  | ic_program_stats => tbl_stats d
  | cases => tbl_cases d
  end.

Definition set_rows (d : database) (t : table) (l : list row) : database :=
  match t with
  | programs => {| tbl_programs := l; tbl_stats := tbl_stats d; tbl_cases := tbl_cases d |}
  | ic_program_stats => {| tbl_programs := tbl_programs d; tbl_stats := l; tbl_cases := tbl_cases d |}
  | cases => {| tbl_programs := tbl_programs d; tbl_stats := tbl_stats d; tbl_cases := l |}
  end.

(** The dictionary passed to [update]: a key that is absent leaves its
    column alone. *)
Record update_data : Type := {
  upd_canonical_program_id : option Z;
  upd_category : option string
}.

Definition apply_update (u : update_data) (r : row) : row :=
  {| row_id := row_id r;
     raw_name := raw_name r;
     requirements := requirements r;
     canonical_program_id :=
       match upd_canonical_program_id u with
       | Some cid => Some cid
       | None => canonical_program_id r
       end;
     category :=
       match upd_category u with
       | Some cat => Some cat
       | None => category r
       end |}.

(** [supabase.table(t).update(u).eq("id", rid).execute()] *)
Definition update_where_id (t : table) (rid : Z) (u : update_data) (d : database) : database :=
  set_rows d t
    (map (fun r => if row_id r =? rid then apply_update u r else r) (rows_of d t)).

(** [if cid:] and [if resume_from_id:] -- [None] and 0 are false. *)
Definition truthy_id (o : option Z) : bool :=
  match o with
  | Some z => negb (z =? 0)
  | None => false
  end.

Definition is_null (o : option Z) : bool :=
  match o with
  | Some _ => false
  | None => true
  end.

Record options : Type := {
  resume_from_id : option Z;
  resume_from_table : option table;
  only_unmatched : bool
}.

(** The two optional filters of the query on table [t]. *)
Definition selected (o : options) (t : table) (r : row) : bool :=
  (if only_unmatched o then is_null (canonical_program_id r) else true)
  &&
  match resume_from_table o, resume_from_id o with
  | Some t', Some i =>
      if table_eqb t' t && truthy_id (Some i) then i <? row_id r else true
  | _, _ => true
  end.

(** [.order("id")]: ascending, by insertion. *)
Fixpoint insert_by_id (r : row) (l : list row) : list row :=
  match l with
  | [] => [r]
  | x :: l' => if row_id r <? row_id x then r :: l else x :: insert_by_id r l'
  end.

Fixpoint order_by_id (l : list row) : list row :=
  match l with
  | [] => []
  | r :: l' => insert_by_id r (order_by_id l')
  end.

Definition select (o : options) (t : table) (d : database) : list row :=
  order_by_id (filter (selected o t) (rows_of d t)).

(** *** The shared state *)

Record pipeline_state : Type := {
  is_running : bool;
  is_paused : bool;
  should_stop : bool;
  current_table : option table;
  last_processed_id : option Z;
  processed : table -> nat;
  total : table -> nat
}.

Definition initial_state : pipeline_state :=
  {| is_running := false; is_paused := false; should_stop := false;
     current_table := None; last_processed_id := None;
     processed := fun _ => 0%nat; total := fun _ => 0%nat |}.

Definition reset_pipeline_state (_ : pipeline_state) : pipeline_state := initial_state.

Definition set_count (f : table -> nat) (t : table) (n : nat) : table -> nat :=
  fun t' => if table_eqb t' t then n else f t'.

(** *** Results, events, environment *)

Inductive status : Type := StatusOk | StatusStopped | StatusError.

(** The dictionary a run returns (the message is left out). *)
Record result : Type := {
  res_status : status;
  programs_updated : nat;
  stats_updated : nat;
  cases_updated : nat;
  res_last_processed_id : option Z;
  res_last_processed_table : option table
}.

(** What a run does to the outside, in the order in which it does it. *)
Inductive event : Type :=
  | EvLoadCatalog
  | EvSelect (t : table)
  | EvMatch (t : table) (rid : Z) (name : string)
  | EvClassify (rid : Z)
  | EvUpdate (t : table) (rid : Z) (u : update_data).

Record world : Type := {
  db : database;
  st : pipeline_state;
  trace : list event
}.

Inductive catalog_reply : Type :=
  | CatalogRaises
  | CatalogNone
  | CatalogData (canonical_data : list canonical_program).

(** What the worker finds in the shared flags at the head of a record. *)
Inductive signal : Type := NoSignal | StopSeen | PauseSeen.

(** Why a run does not return.  The worker examines the flags inside
    [with _state_lock:].  When it finds [should_stop] set it enters a
    second [with _state_lock:] while it still holds the lock, which is a
    [threading.Lock] and not re-entrant: it blocks for good.  When it finds
    [is_paused] set it sleeps in a loop without leaving the block, so no
    other thread can obtain the lock to clear the flag (module [Locking]
    below). *)
Inductive hang : Type := NestedLock | PausedUnderLock.

Inductive outcome : Type :=
  | Returned (r : result)
  | Hangs (h : hang).

Record environment : Type := {
  load_catalog : catalog_reply;
  read_raises : table -> bool;
  read_none : table -> bool;
  write_raises : table -> Z -> bool;
  signal_at : table -> Z -> signal
}.

Definition log (e : event) (w : world) : world :=
  {| db := db w; st := st w; trace := trace w ++ [e] |}.

Definition with_state (f : pipeline_state -> pipeline_state) (w : world) : world :=
  {| db := db w; st := f (st w); trace := trace w |}.

Definition with_db (f : database -> database) (w : world) : world :=
  {| db := f (db w); st := st w; trace := trace w |}.

(** *** The eligibility filter of the loops over [ic_program_stats] and
    [cases] *)

Definition invalid_keywords : list string :=
  ["faculty"; "school"; "college"; "department"; "research masters";
   "pg research"; "masters"; "phd"; "doctorate"; "degree"]%string.

(** [word_count <= 3 and any(keyword in program_name_lower ...)] *)
Definition short_label (program_name : string) : bool :=
  (Nat.leb (word_count program_name) 3)
  && existsb (fun keyword => contains (lower program_name) keyword) invalid_keywords.

(** [program_name_lower.startswith(("faculty of", ...))] *)
Definition faculty_prefix (program_name : string) : bool :=
  existsb (startswith (lower program_name))
    ["faculty of"; "school of"; "college of"; "department of"]%string.

(** The three [continue] tests, in the order of the source. *)
Definition skipped (program_name : string) : bool :=
  negb (truthy_str program_name) || short_label program_name || faculty_prefix program_name.

(** *** Setters of the shared state *)

Definition set_is_running (b : bool) (s : pipeline_state) : pipeline_state :=
  {| is_running := b; is_paused := is_paused s; should_stop := should_stop s;
     current_table := current_table s; last_processed_id := last_processed_id s;
     processed := processed s; total := total s |}.

(** The three assignments with which an accepted run starts. *)
Definition mark_started (s : pipeline_state) : pipeline_state :=
  {| is_running := true; is_paused := false; should_stop := false;
     current_table := current_table s; last_processed_id := last_processed_id s;
     processed := processed s; total := total s |}.

Definition set_current_table (t : option table) (s : pipeline_state) : pipeline_state :=
  {| is_running := is_running s; is_paused := is_paused s; should_stop := should_stop s;
     current_table := t; last_processed_id := last_processed_id s;
     processed := processed s; total := total s |}.

Definition set_last_processed_id (i : option Z) (s : pipeline_state) : pipeline_state :=
  {| is_running := is_running s; is_paused := is_paused s; should_stop := should_stop s;
     current_table := current_table s; last_processed_id := i;
     processed := processed s; total := total s |}.

(** [progress[t_total] = n; progress[t_processed] = 0] *)
Definition set_total (t : table) (n : nat) (s : pipeline_state) : pipeline_state :=
  {| is_running := is_running s; is_paused := is_paused s; should_stop := should_stop s;
     current_table := current_table s; last_processed_id := last_processed_id s;
     processed := set_count (processed s) t 0%nat; total := set_count (total s) t n |}.

(** [last_processed_id = r.get("id"); progress[t_processed] += 1] *)
Definition count_record (t : table) (rid : Z) (s : pipeline_state) : pipeline_state :=
  {| is_running := is_running s; is_paused := is_paused s; should_stop := should_stop s;
     current_table := current_table s; last_processed_id := Some rid;
     processed := set_count (processed s) t (S (processed s t)); total := total s |}.

(** *** The run *)

Section Run.

Variable partial_ratio : string -> string -> Q.
Variable chat_completion : string -> option string.
Variable env : environment.

(** One write, inside its [try]: the attempt is recorded, the table
    changes unless the call raises. *)
Definition attempt_update (t : table) (rid : Z) (u : update_data) (w : world) : bool * world :=
  let w := log (EvUpdate t rid u) w in
  if write_raises env t rid then (false, w)
  else (true, with_db (update_where_id t rid u) w).

(** [for p in programs:] -- no filter; the category is written for every
    record, the canonical id when one was found. *)
Fixpoint programs_loop (canonical_data : list canonical_program) (rs : list row)
  (programs_updated : nat) (w : world) : option hang * nat * world :=
  match rs with
  | [] => (None, programs_updated, w)
  | p :: rest =>
      match signal_at env programs (row_id p) with
      | StopSeen => (Some NestedLock, programs_updated, w)
      | PauseSeen => (Some PausedUnderLock, programs_updated, w)
      | NoSignal =>
          let w := with_state (count_record programs (row_id p)) w in
          let program_id := row_id p in
          let program_en_name := or_empty (raw_name p) in
          let requirements := or_empty (requirements p) in
          let cid := map_to_canonical partial_ratio chat_completion program_en_name canonical_data in
          let w := log (EvMatch programs program_id program_en_name) w in
          let category := classify_category program_en_name (Some requirements) in
          let w := log (EvClassify program_id) w in
          let update_data :=
            {| upd_canonical_program_id := if truthy_id cid then cid else None;
               upd_category := Some category |} in
          let (ok, w) := attempt_update programs program_id update_data w in
          programs_loop canonical_data rest
            (if ok then S programs_updated else programs_updated) w
      end
  end.

(** [for s in stats:] and [for c in cases:] -- the same text twice in the
    source, which differs in the table and in the name of the column. *)
Fixpoint filtered_loop (t : table) (canonical_data : list canonical_program) (rs : list row)
  (updated : nat) (w : world) : option hang * nat * world :=
  match rs with
  | [] => (None, updated, w)
  | s :: rest =>
      match signal_at env t (row_id s) with
      | StopSeen => (Some NestedLock, updated, w)
      | PauseSeen => (Some PausedUnderLock, updated, w)
      | NoSignal =>
          let w := with_state (count_record t (row_id s)) w in
          let stat_id := row_id s in
          let program_name := or_empty (raw_name s) in
          if skipped program_name then filtered_loop t canonical_data rest updated w
          else
            let cid := map_to_canonical partial_ratio chat_completion program_name canonical_data in
            let w := log (EvMatch t stat_id program_name) w in
            if truthy_id cid then
              let (ok, w) :=
                attempt_update t stat_id
                  {| upd_canonical_program_id := cid; upd_category := None |} w in
              filtered_loop t canonical_data rest (if ok then S updated else updated) w
            else filtered_loop t canonical_data rest updated w
      end
  end.

(** The query on a source table, inside its [try]: a read that raises
    leaves the empty list; a reply whose [data] is [None] is kept as it
    is. *)
Definition fetch (o : options) (t : table) (w : world) : option (list row) * world :=
  let w := log (EvSelect t) w in
  (if read_raises env t then Some []
   else if read_none env t then None
   else Some (select o t (db w)), w).

(** The three early returns with zero counts: a run that is refused, and a
    run that gives up on the catalog. *)
Definition no_updates (s : status) : result :=
  {| res_status := s; programs_updated := 0; stats_updated := 0; cases_updated := 0;
     res_last_processed_id := None; res_last_processed_table := None |}.

(** [[c.get("canonical_program_name_en", "N/A") for c in canonical_data[:3]]]:
    the rows come from [select("*")], so the column is present and a
    missing name is [None]. *)
Definition sample_names (canonical_data : list canonical_program) : list (option string) :=
  map canonical_program_name_en (firstn 3 canonical_data).

(** [', '.join(sample_names)] raises [TypeError] on an item [None]. *)
Definition join_raises (names : list (option string)) : bool :=
  existsb (fun n => match n with Some _ => false | None => true end) names.

(** The [except Exception] that closes the function: the run is no longer
    marked as running and the result has the status "error", the counts
    that exist so far ([... if '...' in locals() else 0]) and the last id
    and the current table of the shared state. *)
Definition failed (programs_updated stats_updated cases_updated : nat) (w : world)
  : outcome * world :=
  let w := with_state (set_is_running false) w in
  (Returned
     {| res_status := StatusError;
        programs_updated := programs_updated;
        stats_updated := stats_updated;
        cases_updated := cases_updated;
        res_last_processed_id := last_processed_id (st w);
        res_last_processed_table := current_table (st w) |}, w).

Definition run_pipeline (o : options) (w : world) : outcome * world :=
  if is_running (st w) then (Returned (no_updates StatusError), w)
  else
    let w := with_state mark_started w in
    let w := log EvLoadCatalog w in
    match load_catalog env with
    | CatalogRaises =>
        (Returned (no_updates StatusError), with_state (set_is_running false) w)
    | CatalogNone =>
        (Returned (no_updates StatusStopped), with_state (set_is_running false) w)
    | CatalogData [] =>
        (Returned (no_updates StatusStopped), with_state (set_is_running false) w)
    | CatalogData canonical_data =>
        if join_raises (sample_names canonical_data) then failed 0 0 0 w else
        let w := with_state (set_current_table (Some programs)) w in
        let (data, w) := fetch o programs w in
        match data with
        | None => failed 0 0 0 w   (* [len(programs)] raises *)
        | Some rs =>
        let w := with_state (set_total programs (List.length rs)) w in
        match programs_loop canonical_data rs 0 w with
        | (Some h, _, w) => (Hangs h, w)
        | (None, programs_updated, w) =>
        let w := with_state (set_current_table (Some ic_program_stats)) w in
        let w := with_state (set_last_processed_id None) w in
        let (data, w) := fetch o ic_program_stats w in
        match data with
        | None => failed programs_updated 0 0 w   (* [len(stats)] raises *)
        | Some rs =>
        let w := with_state (set_total ic_program_stats (List.length rs)) w in
        match filtered_loop ic_program_stats canonical_data rs 0 w with
        | (Some h, _, w) => (Hangs h, w)
        | (None, stats_updated, w) =>
        let w := with_state (set_current_table (Some cases)) w in
        let w := with_state (set_last_processed_id None) w in
        let (data, w) := fetch o cases w in
        match data with
        | None => failed programs_updated stats_updated 0 w   (* [len(cases)] raises *)
        | Some rs =>
        let w := with_state (set_total cases (List.length rs)) w in
        match filtered_loop cases canonical_data rs 0 w with
        | (Some h, _, w) => (Hangs h, w)
        | (None, cases_updated, w) =>
        let w := with_state (set_is_running false) w in
        let w := with_state (set_current_table None) w in
        let w := with_state (set_last_processed_id None) w in
        (Returned
           {| res_status := StatusOk;
              programs_updated := programs_updated;
              stats_updated := stats_updated;
              cases_updated := cases_updated;
              res_last_processed_id := None;
              res_last_processed_table := None |}, w)
        end end end end end end
    end.

End Run.

(** An environment in which nobody pauses or stops the run. *)
Definition undisturbed (e : environment) : environment :=
  {| load_catalog := load_catalog e; read_raises := read_raises e;
     read_none := read_none e;
     write_raises := write_raises e; signal_at := fun _ _ => NoSignal |}.

End RunPipeline.
Import RunPipeline.

(** ** api/v1/canonical.py: the checkpoint view *)

Module Checkpoint.

Local Open Scope Z_scope.

(** The entry of one table: the three figures, or [{"error": ...}] when one
    of its queries raised. *)
Inductive table_checkpoint : Type :=
  | CheckFailed
  | Checked (last_processed_id first_unmatched_id : option Z) (unmatched_count : nat).

(** [checkpoint.get(t, {}).get("last_processed_id")] *)
Definition last_processed_of (c : table_checkpoint) : option Z :=
  match c with
  | Checked l _ _ => l
  | CheckFailed => None
  end.

(** [checkpoint.get(t, {}).get("first_unmatched_id")] *)
Definition first_unmatched_of (c : table_checkpoint) : option Z :=
  match c with
  | Checked _ f _ => f
  | CheckFailed => None
  end.

(** [x and name or rest], for a table name (a non-empty string). *)
Definition and_or (x : option Z) (name : table) (rest : option table) : option table :=
  if truthy_id x then Some name else rest.

(** [a or b] *)
Definition py_or (a b : option Z) : option Z :=
  if truthy_id a then a else b.

Record recommendation : Type := {
  rec_resume_from_table : option table;
  rec_resume_from_id : option Z
}.

Definition recommend (checkpoint : table -> table_checkpoint) : recommendation :=
  {| rec_resume_from_table :=
       and_or (first_unmatched_of (checkpoint programs)) programs
         (and_or (first_unmatched_of (checkpoint ic_program_stats)) ic_program_stats
            (and_or (first_unmatched_of (checkpoint cases)) cases None));
     rec_resume_from_id :=
       py_or (py_or (last_processed_of (checkpoint programs))
                    (last_processed_of (checkpoint ic_program_stats)))
             (last_processed_of (checkpoint cases)) |}.

(** [.order("id", desc=True).limit(1)] and [.order("id").limit(1)] over the
    ids of the rows a filter keeps. *)
Definition greatest_id (l : list row) : option Z :=
  fold_right (fun r acc =>
                match acc with
                | Some m => Some (Z.max (row_id r) m)
                | None => Some (row_id r)
                end) None l.

Definition least_id (l : list row) : option Z :=
  fold_right (fun r acc =>
                match acc with
                | Some m => Some (Z.min (row_id r) m)
                | None => Some (row_id r)
                end) None l.

Definition matched (r : row) : bool := negb (is_null (canonical_program_id r)).
Definition unmatched (r : row) : bool := is_null (canonical_program_id r).

Definition check_table (raises : bool) (rows : list row) : table_checkpoint :=
  if raises then CheckFailed
  else Checked (greatest_id (filter matched rows))
               (least_id (filter unmatched rows))
               (List.length (filter unmatched rows)).

(** [get_checkpoint]: the entries of the three tables and the
    recommendation drawn from them. *)
Definition get_checkpoint (check_raises : table -> bool) (d : database)
  : (table -> table_checkpoint) * recommendation :=
  let checkpoint := fun t => check_table (check_raises t) (rows_of d t) in
  (checkpoint, recommend checkpoint).

End Checkpoint.
Import Checkpoint.

(** ** The state lock

    The threads of the process meet in [_state_lock], a [threading.Lock].
    The worker is followed through the text of one loop iteration; a
    control call ([pause_pipeline], [resume_pipeline], [stop_pipeline],
    [get_pipeline_status]) takes the lock, touches the flags and gives the
    lock back without waiting in between, so it is one step that needs the
    lock to be free. *)

Module Locking.

Inductive owner : Type := Worker | Caller.

(** Where the worker stands in the text of the loop body. *)
Inductive position : Type :=
  | LoopHead        (* about to enter [with _state_lock:] *)
  | CheckStop       (* inside the block: [if should_stop] *)
  | NestedAcquire   (* inside the block: the inner [with _state_lock:] *)
  | CheckPause      (* inside the block: [while is_paused] *)
  | Sleeping        (* inside the block: [time.sleep(0.5)] *)
  | Bookkeeping     (* inside the block: last id and counter *)
  | Matching        (* block left: [map_to_canonical], the oracle *)
  | Writing         (* block left: the store update *)
  | Left.           (* the function has returned *)

Record state : Type := {
  lock : option owner;
  paused : bool;
  stop : bool;
  at_ : position
}.

Inductive action : Type :=
  | WorkerStep
  | PauseCall
  | ResumeCall
  | StopCall
  | StatusCall.

Definition free (s : state) : bool :=
  match lock s with
  | None => true
  | Some _ => false
  end.

Definition move (p : position) (s : state) : state :=
  {| lock := lock s; paused := paused s; stop := stop s; at_ := p |}.

(** One step of the worker; [None] when it cannot move. *)
Definition worker_step (s : state) : option state :=
  match at_ s with
  | LoopHead =>
      if free s
      then Some {| lock := Some Worker; paused := paused s; stop := stop s; at_ := CheckStop |}
      else None
  | CheckStop => Some (move (if stop s then NestedAcquire else CheckPause) s)
  | NestedAcquire =>
      if free s
      then Some {| lock := None; paused := paused s; stop := stop s; at_ := Left |}
      else None
  | CheckPause => Some (move (if paused s then Sleeping else Bookkeeping) s)
  | Sleeping => Some (move CheckPause s)
  | Bookkeeping =>
      Some {| lock := None; paused := paused s; stop := stop s; at_ := Matching |}
  | Matching => Some (move Writing s)
  | Writing => Some (move LoopHead s)
  | Left => None
  end.

(** One step of the system; [None] when the acting thread is blocked. *)
Definition step (a : action) (s : state) : option state :=
  match a with
  | WorkerStep => worker_step s
  | PauseCall =>
      if free s
      then Some {| lock := None; paused := true; stop := stop s; at_ := at_ s |}
      else None
  | ResumeCall =>
      if free s
      then Some {| lock := None; paused := false; stop := stop s; at_ := at_ s |}
      else None
  | StopCall =>
      if free s
      then Some {| lock := None; paused := false; stop := true; at_ := at_ s |}
      else None
  | StatusCall => if free s then Some s else None
  end.

(** A schedule is carried out as far as its actions are enabled. *)
Fixpoint exec (schedule : list action) (s : state) : option state :=
  match schedule with
  | [] => Some s
  | a :: rest =>
      match step a s with
      | Some s' => exec rest s'
      | None => None
      end
  end.

Definition reachable (s s' : state) : Prop :=
  exists schedule, exec schedule s = Some s'.

(** A run that has just started: flags cleared, lock free. *)
Definition start : state :=
  {| lock := None; paused := false; stop := false; at_ := LoopHead |}.

(** The lock is held across a wait or across an external call. *)
Definition holds_lock_outside_flag_update (s : state) : bool :=
  match lock s, at_ s with
  | Some Worker, (Sleeping | Matching | Writing | NestedAcquire) => true
  | _, _ => false
  end.

End Locking.

(** * Properties *)

(** ** The cascading matcher *)

Module CanonicalMapperFacts.

(** [c] is the first entry of [l], in the order of the list, that [P]
    accepts. *)
Definition first_satisfying (P : canonical_program -> bool)
  (l : list canonical_program) (c : canonical_program) : Prop :=
  exists before after,
    l = before ++ c :: after /\ P c = true /\ forall x, In x before -> P x = false.

Definition none_satisfying (P : canonical_program -> bool)
  (l : list canonical_program) : Prop :=
  forall x, In x l -> P x = false.

Lemma first_accepted_first (P : canonical_program -> bool) l c :
  first_satisfying P l c -> first_accepted P l = Some (cp_id c).
Proof.
  intros (before & after & -> & Hc & Hbefore).
  induction before as [|x before IH]; simpl.
  - now rewrite Hc.
  - rewrite (Hbefore x) by now left.
    apply IH. intros y Hy. apply Hbefore. now right.
Qed.

Lemma first_accepted_none (P : canonical_program -> bool) l :
  none_satisfying P l -> first_accepted P l = None.
Proof.
  induction l as [|x l IH]; intros Hnone; simpl; [reflexivity|].
  rewrite (Hnone x) by now left.
  apply IH. intros y Hy. apply Hnone. now right.
Qed.

Lemma first_accepted_inv (P : canonical_program -> bool) l i :
  first_accepted P l = Some i ->
  exists c, first_satisfying P l c /\ cp_id c = i.
Proof.
  induction l as [|x l IH]; simpl; [discriminate|].
  destruct (P x) eqn:Hx.
  - intros [= <-]. exists x. split; [|reflexivity].
    exists [], l. repeat split; [assumption|]. intros y [].
  - intros H. destruct (IH H) as (c & (before & after & -> & Hc & Hb) & Hid).
    exists c. split; [|assumption].
    exists (x :: before), after. repeat split; [assumption|].
    intros y [<-|Hy]; [assumption|now apply Hb].
Qed.

Lemma exact_accepts_spec (norm : string) (c : canonical_program) :
  exact_accepts norm c = true <->
  normalize_name (or_empty (canonical_program_name_en c)) = norm.
Proof. unfold exact_accepts. apply String.eqb_eq. Qed.

Section Cascade.

Variable partial_ratio : string -> string -> Q.
Variable chat_completion : string -> option string.

Local Abbreviation map_to_canonical := (map_to_canonical partial_ratio chat_completion).
Local Abbreviation fuzzy_accepts := (fuzzy_accepts partial_ratio).
Local Abbreviation semantic_accepts := (semantic_accepts chat_completion).

Lemma map_to_canonical_unfold program_name l :
  program_name <> "" ->
  l <> [] ->
  map_to_canonical program_name l =
    let norm := normalize_name program_name in
    match first_accepted (exact_accepts norm) l with
    | Some i => Some i
    | None =>
    match first_accepted (fuzzy_accepts norm) l with
    | Some i => Some i
    | None =>
    match first_accepted (keyword_accepts norm) l with
    | Some i => Some i
    | None => first_accepted (semantic_accepts program_name) l
    end end end.
Proof.
  intros Hname Hl.
  destruct program_name as [|a s]; [congruence|].
  destruct l as [|c l]; [congruence|].
  unfold CanonicalMapper.map_to_canonical. cbv zeta.
  repeat match goal with |- context [match ?x with Some _ => _ | None => _ end] =>
    destruct x; try reflexivity end.
Qed.

Lemma first_satisfying_nonempty P l c : first_satisfying P l c -> l <> [].
Proof. intros (before & after & -> & _). now destruct before. Qed.

(** C1: the stages run in the order exact, fuzzy, keyword, semantic; the
    first stage that accepts an entry decides, and it returns the id of
    the first entry of the catalog, in the order of the list, that it
    accepts.  When some entry has the normalised name of the raw name, the
    id of the first such entry is returned whatever the later stages would
    accept.  When no stage accepts an entry the result is none.  The raw
    name is not empty: the specification sets the empty raw name apart
    ("returns none immediately. Otherwise, stages run ..."), and so does
    the guard at the head of the function
    ([map_to_canonical_empty_name]). *)
Theorem map_to_canonical_cascade (program_name : string) (l : list canonical_program) :
  program_name <> "" ->
  let norm := normalize_name program_name in
  (forall before c after,
      l = before ++ c :: after ->
      normalize_name (or_empty (canonical_program_name_en c)) = norm ->
      (forall x, In x before ->
         normalize_name (or_empty (canonical_program_name_en x)) <> norm) ->
      map_to_canonical program_name l = Some (cp_id c))
  /\ (forall c,
      none_satisfying (exact_accepts norm) l ->
      first_satisfying (fuzzy_accepts norm) l c ->
      map_to_canonical program_name l = Some (cp_id c))
  /\ (forall c,
      none_satisfying (exact_accepts norm) l ->
      none_satisfying (fuzzy_accepts norm) l ->
      first_satisfying (keyword_accepts norm) l c ->
      map_to_canonical program_name l = Some (cp_id c))
  /\ (forall c,
      none_satisfying (exact_accepts norm) l ->
      none_satisfying (fuzzy_accepts norm) l ->
      none_satisfying (keyword_accepts norm) l ->
      first_satisfying (semantic_accepts program_name) l c ->
      map_to_canonical program_name l = Some (cp_id c))
  /\ (none_satisfying (exact_accepts norm) l ->
      none_satisfying (fuzzy_accepts norm) l ->
      none_satisfying (keyword_accepts norm) l ->
      none_satisfying (semantic_accepts program_name) l ->
      map_to_canonical program_name l = None).
Proof.
  intros Hname norm.
  repeat split.
  - intros before c after Hl Hc Hbefore.
    assert (Hfirst : first_satisfying (exact_accepts norm) l c).
    { exists before, after. repeat split; [assumption|now apply exact_accepts_spec|].
      intros x Hx. destruct (exact_accepts norm x) eqn:E; [|reflexivity].
      apply exact_accepts_spec in E. now elim (Hbefore x Hx). }
    rewrite map_to_canonical_unfold by eauto using first_satisfying_nonempty.
    cbv zeta. fold norm. now rewrite (first_accepted_first _ _ _ Hfirst).
  - intros c H1 H2.
    rewrite map_to_canonical_unfold by eauto using first_satisfying_nonempty.
    cbv zeta. fold norm.
    now rewrite (first_accepted_none _ _ H1), (first_accepted_first _ _ _ H2).
  - intros c H1 H2 H3.
    rewrite map_to_canonical_unfold by eauto using first_satisfying_nonempty.
    cbv zeta. fold norm.
    now rewrite (first_accepted_none _ _ H1), (first_accepted_none _ _ H2),
      (first_accepted_first _ _ _ H3).
  - intros c H1 H2 H3 H4.
    rewrite map_to_canonical_unfold by eauto using first_satisfying_nonempty.
    cbv zeta. fold norm.
    now rewrite (first_accepted_none _ _ H1), (first_accepted_none _ _ H2),
      (first_accepted_none _ _ H3), (first_accepted_first _ _ _ H4).
  - intros H1 H2 H3 H4.
    destruct l as [|c0 l0].
    + now destruct program_name.
    + rewrite map_to_canonical_unfold by congruence.
      cbv zeta. fold norm.
      now rewrite (first_accepted_none _ _ H1), (first_accepted_none _ _ H2),
        (first_accepted_none _ _ H3), (first_accepted_none _ _ H4).
Qed.

(** The guard at the head of the function: an empty raw name is answered
    with none before any stage runs. *)
Lemma map_to_canonical_empty_name l : map_to_canonical "" l = None.
Proof. reflexivity. Qed.

End Cascade.

(** A similarity score and an oracle for the examples: the score is 100 on
    equal strings and 40 otherwise, the oracle answers no. *)
Definition sample_partial_ratio (a b : string) : Q :=
  if String.eqb a b then 100%Q else 40%Q.

Definition sample_chat_completion (_ : string) : option string := Some "No.".

Definition entry_finance : canonical_program :=
  {| cp_id := 4; canonical_program_name_en := Some "Finance";
     keywords := Some ["data"; "science"] |}.

Definition entry_data_science : canonical_program :=
  {| cp_id := 7; canonical_program_name_en := Some "Data Science (MSc)";
     keywords := None |}.

Definition entry_msc_data_science : canonical_program :=
  {| cp_id := 9; canonical_program_name_en := Some "MSc Data Science";
     keywords := None |}.

Definition sample_catalog : list canonical_program :=
  [entry_finance; entry_data_science; entry_msc_data_science].

(** The theorem at work: "MSc Data Science" has the normalised name of the
    second and of the third entry; the second is returned although the
    first entry would pass the keyword stage. *)
Lemma map_to_canonical_cascade_witness :
  "MSc Data Science" <> ""
  /\ keyword_accepts (normalize_name "MSc Data Science") entry_finance = true
  /\ map_to_canonical sample_partial_ratio sample_chat_completion
       "MSc Data Science" sample_catalog = Some 7%Z.
Proof.
  split; [discriminate|]. split; [reflexivity|].
  refine (proj1 (map_to_canonical_cascade sample_partial_ratio sample_chat_completion
                   "MSc Data Science" sample_catalog _)
            [entry_finance] entry_data_science [entry_msc_data_science] _ _ _).
  - discriminate.
  - reflexivity.
  - reflexivity.
  - intros x [<-|[]]. vm_compute. discriminate.
Defined.

End CanonicalMapperFacts.

(** ** The category classifier *)

Module CategoryClassifierFacts.

Local Open Scope Q_scope.

(** The overlap score of a table entry against the haystack. *)
Definition score (text : string) (e : string * list string) : Q :=
  keyword_overlap_score text (snd e).

(** [best] is the first entry of the table whose score is the greatest:
    the entries before it score strictly less, those after it at most as
    much. *)
Definition first_maximum (text : string) (table : list (string * list string))
  (best : string * list string) : Prop :=
  exists before after,
    table = before ++ best :: after
    /\ (forall x, In x before -> score text x < score text best)
    /\ (forall x, In x after -> score text x <= score text best).

Lemma Qgt_bool_true x y : Qgt_bool x y = true <-> y < x.
Proof.
  unfold Qgt_bool. rewrite negb_true_iff. split.
  - intros H. apply Qnot_le_lt. intros Hle. apply Qle_bool_iff in Hle. congruence.
  - intros H. destruct (Qle_bool x y) eqn:E; [|reflexivity].
    apply Qle_bool_iff in E. now elim (Qlt_not_le _ _ H).
Qed.

Lemma Qgt_bool_false x y : Qgt_bool x y = false <-> x <= y.
Proof.
  unfold Qgt_bool. rewrite negb_false_iff. apply Qle_bool_iff.
Qed.

Lemma keyword_overlap_score_nonneg text kws : 0 <= keyword_overlap_score text kws.
Proof.
  unfold keyword_overlap_score.
  destruct kws as [|k kws]; [apply Qle_refl|].
  destruct (negb (truthy_str text)); [apply Qle_refl|].
  unfold Qle; simpl. lia.
Qed.

Section Loop.

Variable text : string.

(** Nothing in the rest of the table beats the best score so far: the
    loop leaves its variables alone. *)
Lemma best_match_keeps table best_category best_score :
  (forall x, In x table -> score text x <= best_score) ->
  best_match text table best_category best_score = best_category.
Proof.
  revert best_category best_score.
  induction table as [|[cat kws] table IH]; intros bc bs Hle; simpl; [reflexivity|].
  assert (H : Qgt_bool (keyword_overlap_score text kws) bs = false).
  { apply Qgt_bool_false. apply (Hle (cat, kws)). now left. }
  rewrite H. apply IH. intros x Hx. apply Hle. now right.
Qed.

(** Some entry beats the best score so far: the loop ends on the first
    maximum of the table. *)
Lemma best_match_first_maximum table best_category best_score :
  (exists x, In x table /\ best_score < score text x) ->
  exists best,
    first_maximum text table best
    /\ best_score < score text best
    /\ best_match text table best_category best_score = Some (fst best).
Proof.
  revert best_category best_score.
  induction table as [|[cat kws] table IH]; intros bc bs (x & Hx & Hlt).
  - destruct Hx.
  - simpl. destruct (Qgt_bool (keyword_overlap_score text kws) bs) eqn:Hhead.
    + apply Qgt_bool_true in Hhead.
      destruct (existsb (fun y => Qgt_bool (score text y) (keyword_overlap_score text kws)) table)
        eqn:Hlater.
      * apply existsb_exists in Hlater. destruct Hlater as (y & Hy & Hgt).
        apply Qgt_bool_true in Hgt.
        destruct (IH (Some cat) (keyword_overlap_score text kws) (ex_intro _ y (conj Hy Hgt)))
          as (best & (before & after & -> & Hb & Ha) & Hbest & Heq).
        exists best. split; [|split; [|exact Heq]].
        -- exists ((cat, kws) :: before), after. split; [reflexivity|]. split; [|exact Ha].
           intros z [<-|Hz]; [exact Hbest|now apply Hb].
        -- now apply Qlt_trans with (keyword_overlap_score text kws).
      * exists (cat, kws). split; [|split; [exact Hhead|]].
        -- exists [], table. split; [reflexivity|]. split; [intros z []|].
           intros z Hz. apply Qgt_bool_false.
           destruct (Qgt_bool (score text z) (score text (cat, kws))) eqn:E; [|reflexivity].
           assert (Hex : existsb (fun y => Qgt_bool (score text y) (keyword_overlap_score text kws))
                           table = true)
             by (apply existsb_exists; exists z; split; assumption).
           congruence.
        -- apply best_match_keeps. intros z Hz. apply Qgt_bool_false.
           destruct (Qgt_bool (score text z) (keyword_overlap_score text kws)) eqn:E; [|reflexivity].
           assert (Hex : existsb (fun y => Qgt_bool (score text y) (keyword_overlap_score text kws))
                           table = true)
             by (apply existsb_exists; exists z; split; assumption).
           congruence.
    + apply Qgt_bool_false in Hhead.
      destruct Hx as [<-|Hx].
      * now elim (Qlt_not_le _ _ Hlt).
      * destruct (IH bc bs (ex_intro _ x (conj Hx Hlt)))
          as (best & (before & after & -> & Hb & Ha) & Hbest & Heq).
        exists best. split; [|split; [exact Hbest|exact Heq]].
        exists ((cat, kws) :: before), after. split; [reflexivity|]. split; [|exact Ha].
        intros z [<-|Hz]; [|now apply Hb].
        now apply Qle_lt_trans with bs.
Qed.

End Loop.

(** The three cases of the classifier, over any keyword table. *)
Lemma classify_with_spec table program_name requirements :
  let text := lower (program_name ++ " " ++ or_empty requirements) in
  (strip text = ""%string -> classify_with table program_name requirements = "other"%string)
  /\ ((forall e, In e table -> score text e == 0) ->
      classify_with table program_name requirements = "other"%string)
  /\ (strip text <> ""%string ->
      forall e, In e table -> 0 < score text e ->
      exists best,
        first_maximum text table best
        /\ 0 < score text best
        /\ classify_with table program_name requirements = fst best).
Proof.
  intros text. unfold classify_with. fold text. repeat split.
  - intros ->. reflexivity.
  - intros Hzero. destruct (negb (truthy_str (strip text))); [reflexivity|].
    rewrite best_match_keeps; [reflexivity|].
    intros x Hx. rewrite (Hzero x Hx). apply Qle_refl.
  - intros Hblank e He Hpos.
    destruct (strip text) as [|a s] eqn:Hs; [congruence|]. simpl.
    destruct (best_match_first_maximum text table None 0 (ex_intro _ e (conj He Hpos)))
      as (best & Hmax & Hbest & Heq).
    exists best. rewrite Heq. now repeat split.
Qed.

(** C9: the classifier answers "other" on a blank haystack and when every
    category scores 0; otherwise it answers the category of the greatest
    overlap score, and among several categories with that score the one
    that comes first in the table. *)
Theorem classify_category_spec (program_name : string) (requirements : option string) :
  let text := lower (program_name ++ " " ++ or_empty requirements) in
  (strip text = ""%string -> classify_category program_name requirements = "other"%string)
  /\ ((forall e, In e MAJOR_KEYWORDS -> score text e == 0) ->
      classify_category program_name requirements = "other"%string)
  /\ (strip text <> ""%string ->
      forall e, In e MAJOR_KEYWORDS -> 0 < score text e ->
      exists best,
        first_maximum text MAJOR_KEYWORDS best
        /\ 0 < score text best
        /\ classify_category program_name requirements = fst best).
Proof. exact (classify_with_spec MAJOR_KEYWORDS program_name requirements). Qed.

(** The theorem at "Statistics", where [data_science] scores 1/10 and
    [mathematics], later in the table, 1/9. *)
Lemma classify_category_spec_witness :
  exists best,
    first_maximum "statistics " MAJOR_KEYWORDS best
    /\ 0 < score "statistics " best
    /\ classify_category "Statistics" None = fst best.
Proof.
  refine (proj2 (proj2 (classify_category_spec "Statistics" None)) _
            ("data_science"%string,
             ["data science"; "data analytics"; "statistics";
              "machine learning"; "AI"; "big data";
              "数据科学"; "数据分析"; "统计"; "人工智能"]%string) _ _).
  - discriminate.
  - vm_compute. tauto.
  - reflexivity.
Defined.

(** A tie at the greatest score: "Finance and Chemical" gives
    [chemical_engineering] and [finance] 1/14 each; the earlier entry of
    the table is returned. *)
Example classify_examples :
  classify_category "MSc Computer Science" None = "computer_science"%string
  /\ classify_category "Statistics" None = "mathematics"%string
  /\ classify_category "Finance and Chemical" None = "chemical_engineering"%string
  /\ classify_category "   " (Some ""%string) = "other"%string
  /\ classify_category "Zoology" None = "other"%string.
Proof. repeat split; reflexivity. Qed.

End CategoryClassifierFacts.

(** ** The name normaliser *)

Module NormalizeFacts.

(** The two spellings of the specification's example meet in one
    normalised name; absent input gives the empty string. *)
Example normalize_name_examples :
  normalize_name "MSc Computer Science (Part-Time)" = "computer science part time"
  /\ normalize_name "Computer Science - Part Time Programme" = "computer science part time"
  /\ normalize_name "" = "".
Proof. repeat split; reflexivity. Qed.

(** The first substitution has no word boundaries: a branch of the
    alternation is cut out wherever it occurs. *)
Lemma remove_tokens_inside_words :
  remove_tokens "mathematics" = "thetics"
  /\ remove_tokens "systems" = "syste"
  /\ remove_tokens "pharmacy" = "pharcy".
Proof. repeat split; reflexivity. Qed.

(** C5 (the code departs from it): "ma" inside "mathematics" and "ms"
    inside "systems" are removed although they are no words of their
    own. *)
Theorem normalize_name_cuts_inside_words :
  normalize_name "Mathematics" = "thetics"
  /\ normalize_name "Information Systems" = "infortion syste"
  /\ contains (normalize_name "Mathematics") "ma" = false
  /\ contains (normalize_name "Information Systems") "ms" = false.
Proof. repeat split; reflexivity. Qed.

(** C4 (the code departs from it): cutting "ma" out of "dilemmas" joins
    "m" and "s" into a new "ms", which the second application removes. *)
Theorem normalize_name_not_idempotent :
  normalize_name "Dilemmas" = "dilems"
  /\ normalize_name (normalize_name "Dilemmas") = "dile"
  /\ normalize_name (normalize_name "Dilemmas") <> normalize_name "Dilemmas".
Proof. repeat split; try reflexivity. vm_compute. discriminate. Qed.

(** *** Where the normaliser is idempotent

    The later passes undo nothing of what the earlier ones did, with one
    exception: cutting a token out can bring the characters of a new token
    together.  Applying the normaliser twice gives the result of applying
    it once exactly when the normalised name contains no token any
    more. *)

Fixpoint every (P : ascii -> bool) (s : string) : bool :=
  match s with
  | EmptyString => true
  | String c s' => P c && every P s'
  end.

Definition is_lowered (c : ascii) : bool := Ascii.eqb (lower_char c) c.
Definition is_plain (c : ascii) : bool := negb (is_special c).

Lemma lower_char_idem c : lower_char (lower_char c) = lower_char c.
Proof. destruct c as [[] [] [] [] [] [] [] []]; reflexivity. Qed.

Lemma every_lower s : every is_lowered (lower s) = true.
Proof.
  induction s as [|c s IH]; simpl; [reflexivity|].
  rewrite IH, andb_true_r. apply Ascii.eqb_eq, lower_char_idem.
Qed.

Lemma lower_fixed s : every is_lowered s = true -> lower s = s.
Proof.
  induction s as [|c s IH]; simpl; [reflexivity|].
  intros H. apply andb_true_iff in H. destruct H as [Hc Hs].
  apply Ascii.eqb_eq in Hc. now rewrite Hc, IH.
Qed.

Lemma replace_special_fixed s : every is_plain s = true -> replace_special s = s.
Proof.
  induction s as [|c s IH]; simpl; [reflexivity|].
  intros H. apply andb_true_iff in H. destruct H as [Hc Hs].
  unfold is_plain in Hc. apply negb_true_iff in Hc. now rewrite Hc, IH.
Qed.

Lemma every_replace_special_plain s : every is_plain (replace_special s) = true.
Proof.
  induction s as [|c s IH]; simpl; [reflexivity|].
  rewrite IH, andb_true_r. unfold is_plain.
  destruct (is_special c) eqn:E; [reflexivity|now rewrite E].
Qed.

Section Passes.

Variable P : ascii -> bool.

Lemma every_remove_tokens_from k s :
  every P s = true -> every P (remove_tokens_from k s) = true.
Proof.
  revert k. induction s as [|c s IH]; intros k; [reflexivity|].
  intros H. simpl in H. apply andb_true_iff in H. destruct H as [Hc Hs].
  cbn [remove_tokens_from]. destruct k as [|k]; [|now apply IH].
  destruct (match_here degree_tokens (String c s)) as [[|k]|]; simpl;
    rewrite ?Hc; simpl; now apply IH.
Qed.

Hypothesis space_ok : P " "%char = true.

Lemma every_replace_special s :
  every P s = true -> every P (replace_special s) = true.
Proof.
  induction s as [|c s IH]; simpl; [reflexivity|].
  intros H. apply andb_true_iff in H. destruct H as [Hc Hs].
  rewrite (IH Hs), andb_true_r. now destruct (is_special c).
Qed.

Lemma every_collapse_from b s :
  every P s = true -> every P (collapse_from b s) = true.
Proof.
  revert b. induction s as [|c s IH]; intros b; simpl; [reflexivity|].
  intros H. apply andb_true_iff in H. destruct H as [Hc Hs].
  destruct (is_space c); [destruct b|]; simpl; rewrite ?space_ok, ?Hc; simpl; now apply IH.
Qed.

End Passes.

Lemma every_lstrip P s : every P s = true -> every P (lstrip s) = true.
Proof.
  induction s as [|c s IH]; simpl; [reflexivity|].
  intros H. destruct (is_space c); [|exact H].
  apply andb_true_iff in H. now apply IH.
Qed.

Lemma every_rstrip P s : every P s = true -> every P (rstrip s) = true.
Proof.
  induction s as [|c s IH]; simpl; [reflexivity|].
  intros H. apply andb_true_iff in H. destruct H as [Hc Hs].
  specialize (IH Hs). destruct (rstrip s) as [|c' r].
  - destruct (is_space c); simpl; [reflexivity|now rewrite Hc].
  - cbn [every] in *. now rewrite Hc, IH.
Qed.

(** White space as the third substitution leaves it: single spaces only.
    [after_space] tells whether the previous character was a space. *)
Fixpoint tidy (after_space : bool) (s : string) : bool :=
  match s with
  | EmptyString => true
  | String c s' =>
      if is_space c
      then Ascii.eqb c " "%char && negb after_space && tidy true s'
      else tidy false s'
  end.

Lemma tidy_collapse_from b s : tidy b (collapse_from b s) = true.
Proof.
  revert b. induction s as [|c s IH]; intros b; simpl; [reflexivity|].
  destruct (is_space c) eqn:E.
  - destruct b; [apply IH|]. simpl. apply IH.
  - simpl. rewrite E. apply IH.
Qed.

Lemma collapse_from_fixed b s : tidy b s = true -> collapse_from b s = s.
Proof.
  revert b. induction s as [|c s IH]; intros b; simpl; [reflexivity|].
  destruct (is_space c).
  - intros H. apply andb_true_iff in H. destruct H as [H Hs].
    apply andb_true_iff in H. destruct H as [Hc Hb].
    apply Ascii.eqb_eq in Hc. apply negb_true_iff in Hb. subst. now rewrite (IH true Hs).
  - intros H. now rewrite (IH false H).
Qed.

Lemma tidy_weaken s : tidy true s = true -> tidy false s = true.
Proof.
  destruct s as [|c s]; simpl; [reflexivity|].
  destruct (is_space c); [|tauto]. rewrite andb_false_r. discriminate.
Qed.

Lemma tidy_lstrip b s : tidy b s = true -> tidy false (lstrip s) = true.
Proof.
  revert b. induction s as [|c s IH]; intros b; simpl; [reflexivity|].
  destruct (is_space c) eqn:E.
  - intros H. apply andb_true_iff in H. destruct H as [_ Hs]. now apply (IH true).
  - intros H. simpl. now rewrite E.
Qed.

Lemma tidy_rstrip b s : tidy b s = true -> tidy b (rstrip s) = true.
Proof.
  revert b. induction s as [|c s IH]; intros b; simpl; [reflexivity|].
  destruct (is_space c) eqn:E.
  - intros H. apply andb_true_iff in H. destruct H as [H Hs].
    specialize (IH true Hs). destruct (rstrip s) as [|c' r]; [reflexivity|].
    remember (String c' r) as t. simpl. now rewrite E, H, IH.
  - intros H. specialize (IH false H). destruct (rstrip s) as [|c' r].
    + simpl. now rewrite E.
    + remember (String c' r) as t. simpl. now rewrite E.
Qed.

(** The string is empty or begins with a character that is no space. *)
Definition headed (s : string) : bool :=
  match s with
  | EmptyString => true
  | String c _ => negb (is_space c)
  end.

Lemma headed_lstrip s : headed (lstrip s) = true.
Proof.
  induction s as [|c s IH]; simpl; [reflexivity|].
  destruct (is_space c) eqn:E; [exact IH|]. simpl. now rewrite E.
Qed.

Lemma headed_rstrip s : headed s = true -> headed (rstrip s) = true.
Proof.
  destruct s as [|c s]; simpl; [reflexivity|].
  intros H. apply negb_true_iff in H.
  destruct (rstrip s); rewrite ?H; simpl; now rewrite H.
Qed.

Lemma lstrip_fixed s : headed s = true -> lstrip s = s.
Proof.
  destruct s as [|c s]; simpl; [reflexivity|].
  intros H. apply negb_true_iff in H. now rewrite H.
Qed.

Lemma rstrip_idem s : rstrip (rstrip s) = rstrip s.
Proof.
  induction s as [|c s IH]; simpl; [reflexivity|].
  destruct (rstrip s) as [|c' r] eqn:E.
  - destruct (is_space c) eqn:Ec; simpl; [reflexivity|now rewrite Ec].
  - cbn [rstrip]. cbn [rstrip] in IH. now rewrite IH.
Qed.

Lemma strip_idem s : strip (strip s) = strip s.
Proof.
  unfold strip.
  rewrite (lstrip_fixed (rstrip (lstrip s))) by apply headed_rstrip, headed_lstrip.
  apply rstrip_idem.
Qed.

(** The normalised name is a fixed point of every pass but the first
    substitution. *)
Lemma normalize_name_lowered x : lower (normalize_name x) = normalize_name x.
Proof.
  apply lower_fixed. unfold normalize_name.
  destruct (negb (truthy_str x)); [reflexivity|]. cbv zeta.
  apply every_rstrip, every_lstrip, every_collapse_from; [reflexivity|].
  apply every_replace_special; [reflexivity|].
  apply every_remove_tokens_from, every_lower.
Qed.

Lemma normalize_name_plain x : replace_special (normalize_name x) = normalize_name x.
Proof.
  apply replace_special_fixed. unfold normalize_name.
  destruct (negb (truthy_str x)); [reflexivity|]. cbv zeta.
  apply every_rstrip, every_lstrip, every_collapse_from; [reflexivity|].
  apply every_replace_special_plain.
Qed.

Lemma normalize_name_tidy x : collapse_spaces (normalize_name x) = normalize_name x.
Proof.
  apply collapse_from_fixed. unfold normalize_name.
  destruct (negb (truthy_str x)); [reflexivity|]. cbv zeta.
  apply tidy_rstrip, (tidy_lstrip false), tidy_collapse_from.
Qed.

Lemma normalize_name_stripped x : strip (normalize_name x) = normalize_name x.
Proof.
  unfold normalize_name.
  destruct (negb (truthy_str x)); [reflexivity|]. cbv zeta. apply strip_idem.
Qed.

(** No pass makes the text longer, and the first substitution keeps the
    length only of a text it leaves alone. *)
Lemma length_remove_tokens_from k s :
  String.length (remove_tokens_from k s) <= String.length s.
Proof.
  revert k. induction s as [|c s IH]; intros k; [apply Nat.le_refl|].
  cbn [remove_tokens_from]. destruct k as [|k].
  - destruct (match_here degree_tokens (String c s)) as [[|k]|]; simpl;
      first [specialize (IH 0); lia | specialize (IH k); lia].
  - specialize (IH k). simpl. lia.
Qed.

Lemma remove_tokens_same_length s :
  String.length (remove_tokens s) = String.length s -> remove_tokens s = s.
Proof.
  unfold remove_tokens. induction s as [|c s IH]; [reflexivity|].
  cbn [remove_tokens_from].
  destruct (match_here degree_tokens (String c s)) as [[|k]|]; simpl; intros H;
    try (f_equal; apply IH; lia).
  pose proof (length_remove_tokens_from k s). lia.
Qed.

Lemma length_replace_special s : String.length (replace_special s) = String.length s.
Proof. induction s as [|c s IH]; simpl; congruence. Qed.

Lemma length_collapse_from b s : String.length (collapse_from b s) <= String.length s.
Proof.
  revert b. induction s as [|c s IH]; intros b; simpl; [apply Nat.le_refl|].
  destruct (is_space c); [destruct b|]; simpl;
    first [specialize (IH true); lia | specialize (IH false); lia].
Qed.

Lemma length_lstrip s : String.length (lstrip s) <= String.length s.
Proof.
  induction s as [|c s IH]; simpl; [apply Nat.le_refl|].
  destruct (is_space c); simpl; lia.
Qed.

Lemma length_rstrip s : String.length (rstrip s) <= String.length s.
Proof.
  induction s as [|c s IH]; simpl; [apply Nat.le_refl|].
  destruct (rstrip s); [destruct (is_space c)|]; simpl in *; lia.
Qed.

Lemma length_after_removal s :
  String.length (strip (collapse_spaces (replace_special s))) <= String.length s.
Proof.
  unfold strip, collapse_spaces.
  pose proof (length_rstrip (lstrip (collapse_from false (replace_special s)))).
  pose proof (length_lstrip (collapse_from false (replace_special s))).
  pose proof (length_collapse_from false (replace_special s)).
  pose proof (length_replace_special s). lia.
Qed.

(** X1: the second application of the normaliser changes the normalised
    name if and only if the first substitution still finds a token in it. *)
Lemma normalize_name_idempotent_iff x :
  normalize_name (normalize_name x) = normalize_name x
  <-> remove_tokens (normalize_name x) = normalize_name x.
Proof.
  set (y := normalize_name x).
  assert (Hy : normalize_name y
               = match y with
                 | EmptyString => EmptyString
                 | _ => strip (collapse_spaces (replace_special (remove_tokens y)))
                 end).
  { unfold normalize_name at 1. destruct y eqn:E; [reflexivity|].
    cbn [truthy_str negb]. cbv zeta. rewrite <- E. unfold y.
    now rewrite normalize_name_lowered. }
  split.
  - intros H. rewrite Hy in H. destruct y as [|c s] eqn:E; [reflexivity|].
    apply remove_tokens_same_length.
    pose proof (length_after_removal (remove_tokens (String c s))) as H1.
    rewrite H in H1.
    pose proof (length_remove_tokens_from 0 (String c s)) as H2.
    unfold remove_tokens in *. lia.
  - intros H. rewrite Hy. destruct y as [|c s] eqn:E; [reflexivity|].
    rewrite H. rewrite <- E. unfold y.
    now rewrite normalize_name_plain, normalize_name_tidy, normalize_name_stripped.
Qed.

End NormalizeFacts.

(** ** The checkpoint view *)

Module CheckpointFacts.

Local Open Scope Z_scope.

Definition matched_row (i cid : Z) : row :=
  {| row_id := i; raw_name := Some "Data Science"; requirements := None;
     canonical_program_id := Some cid; category := None |}.

Definition unmatched_row (i : Z) (name : string) : row :=
  {| row_id := i; raw_name := Some name; requirements := None;
     canonical_program_id := None; category := None |}.

(** Every programme is matched (the greatest id is 50); the statistics are
    matched up to id 6 and id 7 is open. *)
Definition programs_done_stats_open : database :=
  {| tbl_programs := [matched_row 49 7; matched_row 50 7];
     tbl_stats := [matched_row 5 7; matched_row 6 7; unmatched_row 7 "Applied Zoology"];
     tbl_cases := [] |}.

(** The table and the id of the recommendation are computed by two
    independent chains of [or]: the table is the first with an open record,
    the id is the first non-zero last-matched id of any table. *)
Lemma recommend_unfold checkpoint :
  rec_resume_from_id (recommend checkpoint) =
    py_or (py_or (last_processed_of (checkpoint programs))
                 (last_processed_of (checkpoint ic_program_stats)))
          (last_processed_of (checkpoint cases)).
Proof. reflexivity. Qed.

(** C6 (the code departs from it): the recommended table is
    [ic_program_stats], whose last matched id is 6, and the recommended id
    is 50, the last matched id of [programs]. *)
Theorem recommendation_mixes_tables :
  let (checkpoint, r) := get_checkpoint (fun _ => false) programs_done_stats_open in
  first_unmatched_of (checkpoint programs) = None
  /\ first_unmatched_of (checkpoint ic_program_stats) = Some 7
  /\ last_processed_of (checkpoint ic_program_stats) = Some 6
  /\ rec_resume_from_table r = Some ic_program_stats
  /\ rec_resume_from_id r = Some 50.
Proof. cbn. repeat split; reflexivity. Qed.

(** Where the first table in the order of priority still has an open
    record and a matched one with a non-zero id, table and id agree. *)
Lemma recommendation_on_programs checkpoint f l :
  first_unmatched_of (checkpoint programs) = Some f ->
  last_processed_of (checkpoint programs) = Some l ->
  f <> 0 -> l <> 0 ->
  recommend checkpoint =
    {| rec_resume_from_table := Some programs; rec_resume_from_id := Some l |}.
Proof.
  intros Hf Hl Hf0 Hl0. unfold recommend, and_or, py_or. rewrite Hf, Hl.
  unfold truthy_id.
  apply Z.eqb_neq in Hf0, Hl0. rewrite Hf0, Hl0. cbn. now rewrite Hl0.
Qed.

End CheckpointFacts.

(** ** The pipeline *)

Module RunPipelineFacts.

Local Open Scope Z_scope.

(** *** Tables *)

Lemma table_eqb_eq a b : table_eqb a b = true <-> a = b.
Proof. destruct a, b; simpl; split; intros H; congruence. Qed.

Lemma rows_of_set_rows d t l : rows_of (set_rows d t l) t = l.
Proof. now destruct t. Qed.

Lemma rows_of_set_rows_other d t t' l :
  t' <> t -> rows_of (set_rows d t l) t' = rows_of d t'.
Proof. destruct t, t'; simpl; congruence. Qed.

Lemma rows_of_update_other t t' rid u d :
  t' <> t -> rows_of (update_where_id t rid u d) t' = rows_of d t'.
Proof. apply rows_of_set_rows_other. Qed.

Lemma rows_of_update t rid u d :
  rows_of (update_where_id t rid u d) t =
    map (fun r => if row_id r =? rid then apply_update u r else r) (rows_of d t).
Proof. apply rows_of_set_rows. Qed.

(** *** The query *)

Lemma insert_by_id_In r x l : In x (insert_by_id r l) <-> x = r \/ In x l.
Proof.
  induction l as [|y l IH]; simpl.
  - intuition congruence.
  - destruct (row_id r <? row_id y); simpl; rewrite ?IH; intuition congruence.
Qed.

Lemma order_by_id_In x l : In x (order_by_id l) <-> In x l.
Proof.
  induction l as [|y l IH]; simpl; [tauto|].
  rewrite insert_by_id_In, IH. intuition congruence.
Qed.

Lemma select_In o t d x :
  In x (select o t d) <-> In x (rows_of d t) /\ selected o t x = true.
Proof. unfold select. now rewrite order_by_id_In, filter_In. Qed.

(** The query reads the rows of its own table only. *)
Lemma select_ext o t d d' : rows_of d t = rows_of d' t -> select o t d = select o t d'.
Proof. unfold select. now intros ->. Qed.

Lemma filter_none {A} (P : A -> bool) l :
  (forall x, In x l -> P x = false) -> filter P l = [].
Proof.
  induction l as [|x l IH]; intros H; simpl; [reflexivity|].
  rewrite (H x) by now left. apply IH. intros y Hy. apply H. now right.
Qed.

(** *** Traces *)

(** [w'] continues the trace of [w] with events that satisfy [P]. *)
Definition extends (P : event -> Prop) (w w' : world) : Prop :=
  exists evs, trace w' = trace w ++ evs /\ Forall P evs.

Lemma extends_refl P w : extends P w w.
Proof. exists []. now rewrite app_nil_r. Qed.

Lemma extends_trans P w1 w2 w3 : extends P w1 w2 -> extends P w2 w3 -> extends P w1 w3.
Proof.
  intros (e1 & H1 & F1) (e2 & H2 & F2). exists (e1 ++ e2). split.
  - now rewrite H2, H1, app_assoc.
  - apply Forall_app. now split.
Qed.

Lemma extends_log (P : event -> Prop) e w : P e -> extends P w (log e w).
Proof. intros He. exists [e]. split; [reflexivity|]. now constructor. Qed.

Lemma extends_with_state P f w : extends P w (with_state f w).
Proof. exists []. simpl. now rewrite app_nil_r. Qed.

Lemma extends_with_db P f w : extends P w (with_db f w).
Proof. exists []. simpl. now rewrite app_nil_r. Qed.

Lemma extends_weaken (P Q : event -> Prop) w w' :
  (forall e, P e -> Q e) -> extends P w w' -> extends Q w w'.
Proof.
  intros HPQ (evs & H & F). exists evs. split; [assumption|].
  eapply Forall_impl; eauto.
Qed.

(** No call of the matcher on behalf of [t] carries a name that the
    eligibility filter skips. *)
Definition filter_respected (t : table) (e : event) : Prop :=
  match e with
  | EvMatch t' _ name => t' = t -> skipped name = false
  | _ => True
  end.

(** The event touches table [t] only. *)
Definition about (t : table) (e : event) : Prop :=
  match e with
  | EvMatch t' _ _ => t' = t
  | EvUpdate t' _ _ => t' = t
  | EvClassify _ => t = programs
  | EvSelect t' => t' = t
  | EvLoadCatalog => False
  end.

Section Loops.

Variable partial_ratio : string -> string -> Q.
Variable chat_completion : string -> option string.
Variable env : environment.

Local Abbreviation map_to_canonical := (map_to_canonical partial_ratio chat_completion).
Local Abbreviation programs_loop := (programs_loop partial_ratio chat_completion env).
Local Abbreviation filtered_loop := (filtered_loop partial_ratio chat_completion env).
Local Abbreviation attempt_update := (attempt_update env).

Lemma attempt_update_extends (P : event -> Prop) t rid u w :
  P (EvUpdate t rid u) -> extends P w (snd (attempt_update t rid u w)).
Proof.
  intros HP. unfold RunPipeline.attempt_update.
  destruct (write_raises env t rid); simpl.
  - now apply extends_log.
  - eapply extends_trans;
      [apply (extends_log P (EvUpdate t rid u) w HP)|apply extends_with_db].
Qed.

Lemma programs_loop_extends cat rs n w :
  extends (about programs) w (snd (programs_loop cat rs n w)).
Proof.
  revert n w. induction rs as [|p rs IH]; intros n w; simpl.
  - apply extends_refl.
  - destruct (signal_at env programs (row_id p)); simpl; try apply extends_refl.
    match goal with |- context [attempt_update ?t ?i ?u ?w0] =>
      pose proof (attempt_update_extends (about programs) t i u w0 eq_refl) as Hupd;
      destruct (attempt_update t i u w0) as [ok w1] end.
    simpl in Hupd.
    eapply extends_trans; [|apply IH].
    eapply extends_trans; [|exact Hupd].
    eapply extends_trans; [apply extends_with_state|].
    eapply extends_trans; apply extends_log; reflexivity.
Qed.

Lemma filtered_loop_extends t cat rs n w :
  extends (fun e => about t e /\ filter_respected t e) w (snd (filtered_loop t cat rs n w)).
Proof.
  revert n w. induction rs as [|s rs IH]; intros n w; simpl.
  - apply extends_refl.
  - destruct (signal_at env t (row_id s)); simpl; try apply extends_refl.
    destruct (skipped (or_empty (raw_name s))) eqn:Hskip.
    + eapply extends_trans; [apply extends_with_state|apply IH].
    + destruct (truthy_id (map_to_canonical (or_empty (raw_name s)) cat)).
      * match goal with |- context [attempt_update ?t ?i ?u ?w0] =>
          pose proof (attempt_update_extends
                        (fun e => about t e /\ filter_respected t e) t i u w0
                        (conj eq_refl I)) as Hupd;
          destruct (attempt_update t i u w0) as [ok w1] end.
        simpl in Hupd.
        eapply extends_trans; [|apply IH].
        eapply extends_trans; [|exact Hupd].
        eapply extends_trans; [apply extends_with_state|].
        apply extends_log. split; [reflexivity|]. intros _. exact Hskip.
      * eapply extends_trans; [|apply IH].
        eapply extends_trans; [apply extends_with_state|].
        apply extends_log. split; [reflexivity|]. intros _. exact Hskip.
Qed.

(** *** What a loop that runs to its end does to the tables *)

Definition written (t : table) (r : row) : bool :=
  negb (write_raises env t (row_id r)).

(** The dictionary the loop over [programs] writes for [p]. *)
Definition program_update (cat : list canonical_program) (p : row) : update_data :=
  let program_en_name := or_empty (raw_name p) in
  let cid := map_to_canonical program_en_name cat in
  {| upd_canonical_program_id := if truthy_id cid then cid else None;
     upd_category :=
       Some (classify_category program_en_name (Some (or_empty (requirements p)))) |}.

Fixpoint db_after_programs (cat : list canonical_program) (rs : list row) (d : database)
  : database :=
  match rs with
  | [] => d
  | p :: rest =>
      db_after_programs cat rest
        (if written programs p
         then update_where_id programs (row_id p) (program_update cat p) d
         else d)
  end.

(** The record passes the filter, the matcher finds a usable id, and the
    write goes through: the record counts as updated. *)
Definition counted (t : table) (cat : list canonical_program) (s : row) : bool :=
  negb (skipped (or_empty (raw_name s)))
  && truthy_id (map_to_canonical (or_empty (raw_name s)) cat)
  && written t s.

Definition match_update (cat : list canonical_program) (s : row) : update_data :=
  {| upd_canonical_program_id := map_to_canonical (or_empty (raw_name s)) cat;
     upd_category := None |}.

Fixpoint db_after_filtered (t : table) (cat : list canonical_program) (rs : list row)
  (d : database) : database :=
  match rs with
  | [] => d
  | s :: rest =>
      db_after_filtered t cat rest
        (if counted t cat s then update_where_id t (row_id s) (match_update cat s) d else d)
  end.

Lemma programs_loop_result cat rs n w n' w' :
  programs_loop cat rs n w = (None, n', w') ->
  db w' = db_after_programs cat rs (db w)
  /\ n' = (n + List.length (filter (written programs) rs))%nat.
Proof.
  revert n w. induction rs as [|p rs IH]; intros n w; simpl.
  - intros [= <- <-]. split; [reflexivity|lia].
  - destruct (signal_at env programs (row_id p)); try discriminate.
    unfold RunPipeline.attempt_update, written.
    destruct (write_raises env programs (row_id p)); simpl; intros H;
      apply IH in H; destruct H as [Hdb Hn]; simpl in Hdb.
    all: split; [exact Hdb | unfold written in Hn; lia].
Qed.

Lemma filtered_loop_result t cat rs n w n' w' :
  filtered_loop t cat rs n w = (None, n', w') ->
  db w' = db_after_filtered t cat rs (db w)
  /\ n' = (n + List.length (filter (counted t cat) rs))%nat.
Proof.
  revert n w. induction rs as [|s rs IH]; intros n w; simpl.
  - intros [= <- <-]. split; [reflexivity|lia].
  - destruct (signal_at env t (row_id s)); try discriminate.
    unfold counted, written, RunPipeline.attempt_update.
    destruct (skipped (or_empty (raw_name s))); simpl.
    + intros H. apply IH in H. exact H.
    + destruct (truthy_id (map_to_canonical (or_empty (raw_name s)) cat)); simpl.
      * destruct (write_raises env t (row_id s)); simpl; intros H;
          apply IH in H; destruct H as [Hdb Hn]; simpl in Hdb.
        all: split; [exact Hdb | unfold counted, written in Hn; lia].
      * intros H. apply IH in H. exact H.
Qed.

(** A loop that nobody disturbs runs to its end. *)
Lemma programs_loop_undisturbed cat rs n w :
  (forall i, signal_at env programs i = NoSignal) ->
  fst (fst (programs_loop cat rs n w)) = None.
Proof.
  intros Hq. revert n w. induction rs as [|p rs IH]; intros n w; simpl; [reflexivity|].
  rewrite Hq. destruct (RunPipeline.attempt_update _ _ _ _ _). apply IH.
Qed.

Lemma filtered_loop_undisturbed t cat rs n w :
  (forall i, signal_at env t i = NoSignal) ->
  fst (fst (filtered_loop t cat rs n w)) = None.
Proof.
  intros Hq. revert n w. induction rs as [|s rs IH]; intros n w; simpl; [reflexivity|].
  rewrite Hq. destruct (skipped _); [apply IH|].
  destruct (truthy_id _); [|apply IH].
  destruct (RunPipeline.attempt_update _ _ _ _ _). apply IH.
Qed.

(** Each loop writes to its own table. *)
Lemma db_after_programs_other cat rs d t :
  t <> programs -> rows_of (db_after_programs cat rs d) t = rows_of d t.
Proof.
  intros Ht. revert d. induction rs as [|p rs IH]; intros d; simpl; [reflexivity|].
  rewrite IH. destruct (written programs p); [|reflexivity].
  exact (rows_of_update_other programs t (row_id p) (program_update cat p) d Ht).
Qed.

Lemma db_after_filtered_other t cat rs d t' :
  t' <> t -> rows_of (db_after_filtered t cat rs d) t' = rows_of d t'.
Proof.
  intros Ht. revert d. induction rs as [|s rs IH]; intros d; simpl; [reflexivity|].
  rewrite IH. destruct (counted t cat s); [|reflexivity].
  exact (rows_of_update_other t t' (row_id s) (match_update cat s) d Ht).
Qed.

(** What the loop over [rs] makes of one row of its table. *)
Fixpoint settled (t : table) (cat : list canonical_program) (rs : list row) (r : row) : row :=
  match rs with
  | [] => r
  | s :: rest =>
      settled t cat rest
        (if counted t cat s && (row_id r =? row_id s)
         then apply_update (match_update cat s) r
         else r)
  end.

Lemma db_after_filtered_rows t cat rs d :
  rows_of (db_after_filtered t cat rs d) t = map (settled t cat rs) (rows_of d t).
Proof.
  revert d. induction rs as [|s rs IH]; intros d; simpl.
  - now rewrite map_id.
  - rewrite IH. destruct (counted t cat s); simpl.
    + rewrite rows_of_update, map_map. reflexivity.
    + reflexivity.
Qed.

Lemma settled_row_id t cat rs r : row_id (settled t cat rs r) = row_id r.
Proof.
  revert r. induction rs as [|s rs IH]; intros r; simpl; [reflexivity|].
  rewrite IH. now destruct (counted t cat s && (row_id r =? row_id s)).
Qed.

Lemma settled_raw_name t cat rs r : raw_name (settled t cat rs r) = raw_name r.
Proof.
  revert r. induction rs as [|s rs IH]; intros r; simpl; [reflexivity|].
  rewrite IH. now destruct (counted t cat s && (row_id r =? row_id s)).
Qed.

(** A row is still unmatched after the loop only if it was unmatched
    before and no record of its id counted as updated. *)
Lemma settled_null t cat rs r :
  is_null (canonical_program_id (settled t cat rs r)) = true ->
  is_null (canonical_program_id r) = true
  /\ forall s, In s rs -> row_id s = row_id r -> counted t cat s = false.
Proof.
  revert r. induction rs as [|s rs IH]; intros r; simpl.
  - intros H. split; [exact H|]. intros s [].
  - intros H. apply IH in H. destruct H as [Hnull Hrest].
    destruct (counted t cat s) eqn:Hc; simpl in *.
    + destruct (Z.eqb_spec (row_id r) (row_id s)) as [Heq|Hne]; simpl in *.
      * unfold counted in Hc. apply andb_true_iff in Hc. destruct Hc as [Hc _].
        apply andb_true_iff in Hc. destruct Hc as [_ Hc].
        destruct (map_to_canonical (or_empty (raw_name s)) cat); simpl in *; discriminate.
      * split; [exact Hnull|]. intros s' [<-|Hs'] Hid; [congruence|].
        apply Hrest; assumption.
    + split; [exact Hnull|]. intros s' [<-|Hs'] Hid; [exact Hc|].
      apply Hrest; [assumption|].
      now destruct (Z.eqb_spec (row_id r) (row_id s)).
Qed.

Lemma counted_ext t cat r r' :
  row_id r' = row_id r -> raw_name r' = raw_name r -> counted t cat r' = counted t cat r.
Proof. unfold counted, written. now intros -> ->. Qed.

Lemma selected_ext o t r r' :
  row_id r' = row_id r ->
  is_null (canonical_program_id r') = true ->
  is_null (canonical_program_id r) = true ->
  selected o t r' = selected o t r.
Proof. unfold selected. now intros -> -> ->. Qed.

(** The heart of the second run: among the rows that the first loop left
    unmatched none counts as updated when the same query and the same loop
    come again. *)
Lemma nothing_left_to_count o t cat d d1 :
  only_unmatched o = true ->
  rows_of d1 t = map (settled t cat (select o t d)) (rows_of d t) ->
  forall r', In r' (select o t d1) -> counted t cat r' = false.
Proof.
  intros Honly Hrows r' Hr'.
  apply select_In in Hr'. destruct Hr' as [Hin Hsel].
  rewrite Hrows in Hin. apply in_map_iff in Hin. destruct Hin as (r & <- & Hr).
  assert (Hnull' : is_null (canonical_program_id (settled t cat (select o t d) r)) = true).
  { unfold selected in Hsel. rewrite Honly in Hsel.
    now apply andb_true_iff in Hsel. }
  destruct (settled_null _ _ _ _ Hnull') as [Hnull Hnone].
  rewrite (counted_ext t cat r) by (apply settled_row_id || apply settled_raw_name).
  apply Hnone; [|reflexivity].
  apply select_In. split; [exact Hr|].
  rewrite <- Hsel. symmetry.
  apply selected_ext; [apply settled_row_id|assumption..].
Qed.

(** In the loop over [programs] every record reaches the matcher under
    its own name, whatever the name is, and the classifier after it. *)
Lemma programs_loop_matches_all cat rs n w p :
  (forall i, signal_at env programs i = NoSignal) ->
  In p rs ->
  In (EvMatch programs (row_id p) (or_empty (raw_name p)))
     (trace (snd (programs_loop cat rs n w)))
  /\ In (EvClassify (row_id p)) (trace (snd (programs_loop cat rs n w))).
Proof.
  intros Hq. revert n w. induction rs as [|q rs IH]; intros n w Hp; [destruct Hp|].
  simpl. rewrite Hq.
  match goal with |- context [RunPipeline.attempt_update ?e ?t ?i ?u ?w0] =>
    pose proof (attempt_update_extends (fun _ => True) t i u w0 I) as Hupd;
    destruct (RunPipeline.attempt_update e t i u w0) as [ok w1] end.
  destruct Hp as [->|Hp]; [|now apply IH].
  destruct (programs_loop_extends cat rs (if ok then S n else n) w1) as (evs & -> & _).
  destruct Hupd as (evs' & Hw1 & _). simpl in Hw1. rewrite Hw1.
  rewrite !in_app_iff. split.
  - left. left. left. right. now left.
  - left. left. right. now left.
Qed.

End Loops.

(** *** Whole runs *)

(** One step through the text of a run: the reply of the next query. *)
Ltac query F data wf :=
  match goal with |- context [fetch ?e ?o ?t ?w0] =>
    destruct (fetch e o t w0) as [data wf] eqn:F end.

Section Runs.

Variable partial_ratio : string -> string -> Q.
Variable chat_completion : string -> option string.

Local Abbreviation run_pipeline := (run_pipeline partial_ratio chat_completion).
Local Abbreviation programs_loop := (programs_loop partial_ratio chat_completion).
Local Abbreviation filtered_loop := (filtered_loop partial_ratio chat_completion).
Local Abbreviation db_after_programs := (db_after_programs partial_ratio chat_completion).
Local Abbreviation db_after_filtered := (db_after_filtered partial_ratio chat_completion).
Local Abbreviation counted := (counted partial_ratio chat_completion).

(** The rows a loop works on: the reply of the query, or nothing when the
    read raises. *)
Definition fetched (env : environment) (o : options) (t : table) (d : database) : list row :=
  if read_raises env t then [] else select o t d.

Lemma fetched_ext env o t d d' :
  rows_of d t = rows_of d' t -> fetched env o t d = fetched env o t d'.
Proof. unfold fetched. intros H. now rewrite (select_ext o t d d' H). Qed.

(** The query on [t] raises or replies with data: the loop has a list to
    work on. *)
Definition answers (env : environment) (t : table) : Prop :=
  read_raises env t = true \/ read_none env t = false.

Lemma fetch_some env o t w rs w1 :
  fetch env o t w = (Some rs, w1) ->
  rs = fetched env o t (db w) /\ w1 = log (EvSelect t) w /\ answers env t.
Proof.
  unfold fetch, fetched, answers.
  destruct (read_raises env t); [intros [= <- <-]; auto|].
  destruct (read_none env t); [discriminate|]. intros [= <- <-]. auto.
Qed.

Lemma fetch_none env o t w w1 :
  fetch env o t w = (None, w1) -> w1 = log (EvSelect t) w /\ ~ answers env t.
Proof.
  unfold fetch, answers.
  destruct (read_raises env t); [discriminate|].
  destruct (read_none env t); [|discriminate]. intros [= <-].
  split; [reflexivity|]. intros [H|H]; discriminate.
Qed.

Lemma fetch_answers env o t w :
  answers env t ->
  fetch env o t w = (Some (fetched env o t (db w)), log (EvSelect t) w).
Proof.
  unfold fetch, fetched, answers.
  destruct (read_raises env t); [reflexivity|].
  destruct (read_none env t); [|reflexivity]. intros [H|H]; discriminate.
Qed.

Lemma fetch_extends (P : event -> Prop) env o t w data w1 :
  P (EvSelect t) -> fetch env o t w = (data, w1) -> extends P w w1.
Proof. intros HP [= _ <-]. now apply extends_log. Qed.


(** A run that returns "ok" has gone through the three loops; its counts
    and the tables it leaves are those of the loops. *)
Lemma run_pipeline_ok env o w r w' :
  run_pipeline env o w = (Returned r, w') ->
  res_status r = StatusOk ->
  is_running (st w) = false
  /\ is_running (st w') = false
  /\ exists cat,
       load_catalog env = CatalogData cat /\ cat <> []
       /\ let rp := fetched env o programs (db w) in
          let d1 := db_after_programs env cat rp (db w) in
          let rs := fetched env o ic_program_stats d1 in
          let d2 := db_after_filtered env ic_program_stats cat rs d1 in
          let rc := fetched env o cases d2 in
          let d3 := db_after_filtered env cases cat rc d2 in
          db w' = d3
          /\ programs_updated r = List.length (filter (written env programs) rp)
          /\ stats_updated r = List.length (filter (counted env ic_program_stats cat) rs)
          /\ cases_updated r = List.length (filter (counted env cases cat) rc).
Proof.
  unfold RunPipeline.run_pipeline, failed.
  destruct (is_running (st w)) eqn:Hrun; [intros [= <- <-]; discriminate|].
  destruct (load_catalog env) as [| |cat] eqn:Hcat; try (intros [= <- <-]; discriminate).
  destruct cat as [|c cat]; [intros [= <- <-]; discriminate|].
  destruct (join_raises (sample_names (c :: cat))); [intros [= <- <-]; discriminate|].
  cbv zeta.
  query F1 data wf. destruct data as [rs1|]; [|intros [= <- <-]; discriminate].
  apply fetch_some in F1. destruct F1 as (-> & -> & _).
  match goal with |- context [RunPipeline.programs_loop ?a ?b ?e ?c0 ?rs ?n ?w0] =>
    destruct (RunPipeline.programs_loop a b e c0 rs n w0) as [[h1 n1] w1] eqn:L1 end.
  destruct h1; [intros [= <- <-]|].
  apply programs_loop_result in L1. destruct L1 as [Hd1 Hn1]. simpl in Hd1, Hn1.
  query F2 data wf. destruct data as [rs2|]; [|intros [= <- <-]; discriminate].
  apply fetch_some in F2. destruct F2 as (-> & -> & _).
  match goal with |- context [RunPipeline.filtered_loop ?a ?b ?e ?t ?c0 ?rs ?n ?w0] =>
    destruct (RunPipeline.filtered_loop a b e t c0 rs n w0) as [[h2 n2] w2] eqn:L2 end.
  destruct h2; [intros [= <- <-]|].
  apply filtered_loop_result in L2. destruct L2 as [Hd2 Hn2]. simpl in Hd2, Hn2.
  query F3 data wf. destruct data as [rs3|]; [|intros [= <- <-]; discriminate].
  apply fetch_some in F3. destruct F3 as (-> & -> & _).
  match goal with |- context [RunPipeline.filtered_loop ?a ?b ?e ?t ?c0 ?rs ?n ?w0] =>
    destruct (RunPipeline.filtered_loop a b e t c0 rs n w0) as [[h3 n3] w3] eqn:L3 end.
  destruct h3; [intros [= <- <-]|].
  apply filtered_loop_result in L3. destruct L3 as [Hd3 Hn3]. simpl in Hd3, Hn3.
  intros [= <- <-] _. simpl.
  split; [reflexivity|]. split; [reflexivity|].
  exists (c :: cat). split; [reflexivity|]. split; [discriminate|].
  rewrite Hd1 in Hd2, Hn2. rewrite Hd2 in Hd3, Hn3.
  now repeat split.
Qed.

(** A run that returns "ok" has found names in the first rows of the
    catalog and a list in the reply of every query. *)
Lemma run_pipeline_ok_replies env o w r w' :
  run_pipeline env o w = (Returned r, w') ->
  res_status r = StatusOk ->
  exists cat,
    load_catalog env = CatalogData cat
    /\ join_raises (sample_names cat) = false
    /\ forall t, answers env t.
Proof.
  unfold RunPipeline.run_pipeline, failed.
  destruct (is_running (st w)) eqn:Hrun; [intros [= <- <-]; discriminate|].
  destruct (load_catalog env) as [| |cat] eqn:Hcat; try (intros [= <- <-]; discriminate).
  destruct cat as [|c cat]; [intros [= <- <-]; discriminate|].
  destruct (join_raises (sample_names (c :: cat))) eqn:Hjoin;
    [intros [= <- <-]; discriminate|].
  cbv zeta.
  query F1 data wf. destruct data as [rs1|]; [|intros [= <- <-]; discriminate].
  apply fetch_some in F1. destruct F1 as (_ & -> & A1).
  match goal with |- context [RunPipeline.programs_loop ?a ?b ?e ?c0 ?rs ?n ?w0] =>
    destruct (RunPipeline.programs_loop a b e c0 rs n w0) as [[h1 n1] w1] end.
  destruct h1; [intros [= <- <-]|].
  query F2 data wf. destruct data as [rs2|]; [|intros [= <- <-]; discriminate].
  apply fetch_some in F2. destruct F2 as (_ & -> & A2).
  match goal with |- context [RunPipeline.filtered_loop ?a ?b ?e ?t ?c0 ?rs ?n ?w0] =>
    destruct (RunPipeline.filtered_loop a b e t c0 rs n w0) as [[h2 n2] w2] end.
  destruct h2; [intros [= <- <-]|].
  query F3 data wf. destruct data as [rs3|]; [|intros [= <- <-]; discriminate].
  apply fetch_some in F3. destruct F3 as (_ & -> & A3).
  intros _ _. exists (c :: cat). split; [reflexivity|]. split; [exact Hjoin|].
  intros t. now destruct t.
Qed.

(** The closing [except]: a first row of the catalog without a name makes
    the line that logs the names raise; the run returns "error" before it
    has touched a source table. *)
Lemma run_pipeline_unnamed_row env o w cat :
  is_running (st w) = false ->
  load_catalog env = CatalogData cat ->
  join_raises (sample_names cat) = true ->
  exists r w',
    run_pipeline env o w = (Returned r, w')
    /\ res_status r = StatusError
    /\ programs_updated r = 0%nat /\ stats_updated r = 0%nat /\ cases_updated r = 0%nat
    /\ db w' = db w
    /\ trace w' = trace w ++ [EvLoadCatalog]
    /\ is_running (st w') = false.
Proof.
  intros Hrun Hcat Hjoin. unfold RunPipeline.run_pipeline, failed.
  rewrite Hrun, Hcat. destruct cat as [|c cat]; [discriminate Hjoin|].
  rewrite Hjoin. eexists _, _. repeat split.
Qed.

(** A reply without data makes [len] raise: the run returns "error" with
    the counts it has so far; here for the first query. *)
Lemma run_pipeline_no_data env o w cat :
  is_running (st w) = false ->
  load_catalog env = CatalogData cat -> cat <> [] ->
  join_raises (sample_names cat) = false ->
  read_raises env programs = false -> read_none env programs = true ->
  exists r w',
    run_pipeline env o w = (Returned r, w')
    /\ res_status r = StatusError
    /\ programs_updated r = 0%nat /\ stats_updated r = 0%nat /\ cases_updated r = 0%nat
    /\ res_last_processed_table r = Some programs
    /\ db w' = db w
    /\ trace w' = trace w ++ [EvLoadCatalog; EvSelect programs]
    /\ is_running (st w') = false.
Proof.
  intros Hrun Hcat Hne Hjoin Hraise Hnone. unfold RunPipeline.run_pipeline, failed, fetch.
  rewrite Hrun, Hcat. destruct cat as [|c cat]; [congruence|].
  rewrite Hjoin. cbv zeta. rewrite Hraise, Hnone.
  eexists _, _. repeat split. cbn [trace with_state log]. now rewrite <- app_assoc.
Qed.

(** A run that is accepted, is not disturbed, finds a catalog whose first
    rows have names and a list in the reply of every query returns
    "ok". *)
Lemma run_pipeline_undisturbed env o w cat :
  is_running (st w) = false ->
  load_catalog env = CatalogData cat -> cat <> [] ->
  join_raises (sample_names cat) = false ->
  (forall t, answers env t) ->
  exists r w',
    run_pipeline (undisturbed env) o w = (Returned r, w') /\ res_status r = StatusOk.
Proof.
  intros Hrun Hcat Hne Hjoin Hans.
  assert (Hans' : forall t, answers (undisturbed env) t) by exact Hans.
  unfold RunPipeline.run_pipeline. rewrite Hrun. simpl load_catalog. rewrite Hcat.
  destruct cat as [|c cat]; [congruence|]. rewrite Hjoin.
  cbv zeta. rewrite (fetch_answers (undisturbed env) o programs _ (Hans' programs)).
  match goal with |- context [RunPipeline.programs_loop ?a ?b ?e ?c0 ?rs ?n ?w0] =>
    pose proof (programs_loop_undisturbed a b e c0 rs n w0 (fun _ => eq_refl)) as Q1;
    destruct (RunPipeline.programs_loop a b e c0 rs n w0) as [[h1 n1] w1] end.
  simpl in Q1. subst h1.
  rewrite (fetch_answers (undisturbed env) o ic_program_stats _ (Hans' ic_program_stats)).
  match goal with |- context [RunPipeline.filtered_loop ?a ?b ?e ?t ?c0 ?rs ?n ?w0] =>
    pose proof (filtered_loop_undisturbed a b e t c0 rs n w0 (fun _ => eq_refl)) as Q2;
    destruct (RunPipeline.filtered_loop a b e t c0 rs n w0) as [[h2 n2] w2] end.
  simpl in Q2. subst h2.
  rewrite (fetch_answers (undisturbed env) o cases _ (Hans' cases)).
  match goal with |- context [RunPipeline.filtered_loop ?a ?b ?e ?t ?c0 ?rs ?n ?w0] =>
    pose proof (filtered_loop_undisturbed a b e t c0 rs n w0 (fun _ => eq_refl)) as Q3;
    destruct (RunPipeline.filtered_loop a b e t c0 rs n w0) as [[h3 n3] w3] end.
  simpl in Q3. subst h3.
  eexists _, _. split; reflexivity.
Qed.

(** Undisturbed or not, the environment answers reads and writes alike. *)
Lemma counted_undisturbed env :
  counted (undisturbed env) = counted env.
Proof. reflexivity. Qed.

Lemma settled_undisturbed env :
  settled partial_ratio chat_completion (undisturbed env)
  = settled partial_ratio chat_completion env.
Proof. reflexivity. Qed.

Lemma second_loop_counts_nothing env o t cat d d1 :
  only_unmatched o = true ->
  rows_of d1 t
    = map (settled partial_ratio chat_completion env t cat (fetched env o t d)) (rows_of d t) ->
  filter (counted env t cat) (fetched (undisturbed env) o t d1) = [].
Proof.
  intros Honly Hrows. apply filter_none. unfold fetched in *. simpl read_raises.
  destruct (read_raises env t); [intros x []|].
  now apply nothing_left_to_count with (d := d).
Qed.

(** C7 (amended): a run with [only_unmatched] that returns "ok", followed
    by a second run with the same options under the same catalog, the same
    answers of the matcher and the same behaviour of the stores, leaves
    nothing to update in [ic_program_stats] and [cases].  In [programs]
    the second run writes the category of every record that is still
    unmatched again and counts each of these writes. *)
Theorem rerun_only_unmatched (env : environment) (o : options) (w : world)
  (r1 : result) (w1 : world) :
  only_unmatched o = true ->
  run_pipeline env o w = (Returned r1, w1) ->
  res_status r1 = StatusOk ->
  exists r2 w2,
    run_pipeline (undisturbed env) o w1 = (Returned r2, w2)
    /\ res_status r2 = StatusOk
    /\ stats_updated r2 = 0%nat
    /\ cases_updated r2 = 0%nat
    /\ programs_updated r2 =
         List.length
           (filter (fun p => negb (write_raises env programs (row_id p)))
                   (if read_raises env programs then [] else select o programs (db w1))).
Proof.
  intros Honly H1 Hok1.
  destruct (run_pipeline_ok _ _ _ _ _ H1 Hok1)
    as (_ & Hrun1 & cat & Hcat & Hne & Hdb1 & _). cbv zeta in Hdb1.
  destruct (run_pipeline_ok_replies _ _ _ _ _ H1 Hok1) as (cat0 & Hcat0 & Hjoin & Hans).
  rewrite Hcat in Hcat0. injection Hcat0 as <-.
  destruct (run_pipeline_undisturbed env o w1 cat Hrun1 Hcat Hne Hjoin Hans)
    as (r2 & w2 & H2 & Hok2).
  exists r2, w2. split; [exact H2|]. split; [exact Hok2|].
  destruct (run_pipeline_ok _ _ _ _ _ H2 Hok2)
    as (_ & _ & cat' & Hcat' & _ & _ & Hp2 & Hs2 & Hc2).
  simpl load_catalog in Hcat'. rewrite Hcat in Hcat'. injection Hcat' as <-.
  cbv zeta in Hp2, Hs2, Hc2. rewrite counted_undisturbed in Hs2, Hc2.
  set (d1 := db_after_programs env cat (fetched env o programs (db w)) (db w)) in *.
  set (d2 := db_after_filtered env ic_program_stats cat
               (fetched env o ic_program_stats d1) d1) in *.
  assert (Hstats : rows_of (db w1) ic_program_stats
                   = map (settled partial_ratio chat_completion env ic_program_stats cat
                            (fetched env o ic_program_stats d1))
                         (rows_of d1 ic_program_stats)).
  { rewrite Hdb1. rewrite db_after_filtered_other by discriminate.
    apply db_after_filtered_rows. }
  assert (Hcases : rows_of (db w1) cases
                   = map (settled partial_ratio chat_completion env cases cat
                            (fetched env o cases d2))
                         (rows_of d2 cases)).
  { rewrite Hdb1. apply db_after_filtered_rows. }
  split; [|split].
  - rewrite Hs2. rewrite (second_loop_counts_nothing env o ic_program_stats cat d1);
      [reflexivity|exact Honly|].
    rewrite db_after_programs_other by discriminate. exact Hstats.
  - rewrite Hc2. rewrite (second_loop_counts_nothing env o cases cat d2);
      [reflexivity|exact Honly|].
    rewrite db_after_filtered_other by discriminate.
    rewrite db_after_programs_other by discriminate. exact Hcases.
  - exact Hp2.
Qed.

(** *** The eligibility filter in a run *)

Lemma skipped_false name :
  skipped name = false ->
  name <> ""%string /\ short_label name = false /\ faculty_prefix name = false.
Proof.
  unfold skipped. intros H.
  apply orb_false_iff in H. destruct H as [H Hprefix].
  apply orb_false_iff in H. destruct H as [Hempty Hshort].
  repeat split; try assumption.
  intros ->. discriminate.
Qed.

(** A call of the matcher for a table other than [programs] carries a
    name that passes the filter. *)
Definition only_eligible (e : event) : Prop :=
  match e with
  | EvMatch t _ name => t <> programs -> skipped name = false
  | _ => True
  end.

Lemma extends_with_state_r P f w w1 : extends P w w1 -> extends P w (with_state f w1).
Proof. intros H. eapply extends_trans; [exact H|apply extends_with_state]. Qed.

Lemma extends_log_r (P : event -> Prop) e w w1 :
  P e -> extends P w w1 -> extends P w (log e w1).
Proof. intros He H. eapply extends_trans; [exact H|now apply extends_log]. Qed.

Lemma about_programs_eligible e : about programs e -> only_eligible e.
Proof. destruct e; simpl; tauto. Qed.

Lemma filtered_eligible t e : about t e /\ filter_respected t e -> only_eligible e.
Proof. destruct e; simpl; tauto. Qed.

Lemma run_pipeline_extends env o w :
  extends only_eligible w (snd (run_pipeline env o w)).
Proof.
  unfold RunPipeline.run_pipeline, failed. cbv zeta.
  destruct (is_running (st w)); [apply extends_refl|].
  assert (Hload : extends only_eligible w (log EvLoadCatalog (with_state mark_started w))).
  { apply extends_log_r; [exact I|]. apply extends_with_state. }
  destruct (load_catalog env) as [| |cat]; cbn [snd];
    try (now apply extends_with_state_r).
  destruct cat as [|c cat]; cbn [snd]; [now apply extends_with_state_r|].
  destruct (join_raises (sample_names (c :: cat))); cbn [snd];
    [now apply extends_with_state_r|].
  cbv zeta.
  query F1 data1 wf1. apply (fetch_extends only_eligible) in F1; [|exact I].
  assert (Y1 : extends only_eligible w wf1).
  { eapply extends_trans; [|exact F1]. now apply extends_with_state_r. }
  destruct data1 as [rs1|]; [|cbn [snd]; now apply extends_with_state_r].
  match goal with |- context [RunPipeline.programs_loop ?a ?b ?e ?c0 ?rs ?n ?w0] =>
    pose proof (programs_loop_extends a b e c0 rs n w0) as E1;
    destruct (RunPipeline.programs_loop a b e c0 rs n w0) as [[h1 n1] w1] end.
  simpl in E1. apply (extends_weaken _ only_eligible) in E1; [|apply about_programs_eligible].
  assert (X1 : extends only_eligible w w1).
  { eapply extends_trans; [|exact E1]. now apply extends_with_state_r. }
  destruct h1; [exact X1|].
  query F2 data2 wf2. apply (fetch_extends only_eligible) in F2; [|exact I].
  assert (Y2 : extends only_eligible w wf2).
  { eapply extends_trans; [|exact F2]. now do 2 apply extends_with_state_r. }
  destruct data2 as [rs2|]; [|cbn [snd]; now apply extends_with_state_r].
  match goal with |- context [RunPipeline.filtered_loop ?a ?b ?e ?t ?c0 ?rs ?n ?w0] =>
    pose proof (filtered_loop_extends a b e t c0 rs n w0) as E2;
    destruct (RunPipeline.filtered_loop a b e t c0 rs n w0) as [[h2 n2] w2] end.
  simpl in E2. apply (extends_weaken _ only_eligible) in E2; [|apply filtered_eligible].
  assert (X2 : extends only_eligible w w2).
  { eapply extends_trans; [|exact E2]. now apply extends_with_state_r. }
  destruct h2; [exact X2|].
  query F3 data3 wf3. apply (fetch_extends only_eligible) in F3; [|exact I].
  assert (Y3 : extends only_eligible w wf3).
  { eapply extends_trans; [|exact F3]. now do 2 apply extends_with_state_r. }
  destruct data3 as [rs3|]; [|cbn [snd]; now apply extends_with_state_r].
  match goal with |- context [RunPipeline.filtered_loop ?a ?b ?e ?t ?c0 ?rs ?n ?w0] =>
    pose proof (filtered_loop_extends a b e t c0 rs n w0) as E3;
    destruct (RunPipeline.filtered_loop a b e t c0 rs n w0) as [[h3 n3] w3] end.
  simpl in E3. apply (extends_weaken _ only_eligible) in E3; [|apply filtered_eligible].
  assert (X3 : extends only_eligible w w3).
  { eapply extends_trans; [|exact E3]. now apply extends_with_state_r. }
  destruct h3; [exact X3|].
  cbn [snd]. now do 3 apply extends_with_state_r.
Qed.

(** C2 (amended): in the loops over [ic_program_stats] and [cases] the
    filter comes before the matcher: whatever the run, a name handed to the
    matcher for one of these tables is not empty, is no short label with a
    word of the deny list, and does not start with "faculty of", "school
    of", "college of" or "department of".  The loop over [programs] has no
    filter: every record it reaches is handed to the matcher under its
    name, and to the classifier. *)
Theorem eligibility_filter_before_matching (env : environment) (o : options) (w : world) :
  (exists evs,
      trace (snd (run_pipeline env o w)) = trace w ++ evs
      /\ forall t rid name,
           In (EvMatch t rid name) evs -> t <> programs ->
           name <> ""%string /\ short_label name = false /\ faculty_prefix name = false)
  /\ (forall cat rs n w0 p,
        (forall i, signal_at env programs i = NoSignal) ->
        In p rs ->
        In (EvMatch programs (row_id p) (or_empty (raw_name p)))
           (trace (snd (programs_loop env cat rs n w0)))
        /\ In (EvClassify (row_id p))
             (trace (snd (programs_loop env cat rs n w0)))).
Proof.
  split.
  - destruct (run_pipeline_extends env o w) as (evs & Htrace & Hall).
    exists evs. split; [exact Htrace|].
    intros t rid name Hin Ht. apply skipped_false.
    rewrite Forall_forall in Hall. exact (Hall _ Hin Ht).
  - intros cat rs n w0 p Hq Hp. now apply programs_loop_matches_all.
Qed.

(** *** The catalog *)

(** C3 (amended): when the catalog cannot be loaded the run returns the
    status "error", when the catalog is absent or empty it returns the
    status "stopped"; either way the three counts are 0, the tables are as
    they were, the catalog query is all the run has done, and the run is no
    longer marked as running. *)
Theorem catalog_failure_aborts (env : environment) (o : options) (w : world) :
  is_running (st w) = false ->
  load_catalog env = CatalogRaises \/ load_catalog env = CatalogNone
    \/ load_catalog env = CatalogData [] ->
  exists r w',
    run_pipeline env o w = (Returned r, w')
    /\ res_status r =
         match load_catalog env with
         | CatalogRaises => StatusError
         | _ => StatusStopped
         end
    /\ programs_updated r = 0%nat /\ stats_updated r = 0%nat /\ cases_updated r = 0%nat
    /\ db w' = db w
    /\ trace w' = trace w ++ [EvLoadCatalog]
    /\ is_running (st w') = false.
Proof.
  intros Hrun Hcat. unfold RunPipeline.run_pipeline. rewrite Hrun.
  destruct Hcat as [-> | [-> | ->]]; eexists _, _; repeat split.
Qed.

End Runs.

(** *** Concrete runs *)

Import CanonicalMapperFacts.

Definition fresh (d : database) : world :=
  {| db := d; st := initial_state; trace := [] |}.

(** Stores that answer and nobody who pauses or stops. *)
Definition calm (reply : catalog_reply) : environment :=
  {| load_catalog := reply;
     read_raises := fun _ => false;
     read_none := fun _ => false;
     write_raises := fun _ _ => false;
     signal_at := fun _ _ => NoSignal |}.

Definition defaults : options :=
  {| resume_from_id := None; resume_from_table := None; only_unmatched := true |}.

Definition open_row (i : Z) (name : string) : row :=
  {| row_id := i; raw_name := Some name; requirements := None;
     canonical_program_id := None; category := None |}.

Definition sample_env : environment :=
  calm (CatalogData sample_catalog).

Definition short_faculty : string := "Faculty of Engineering".
Definition long_faculty : string := "Faculty of Engineering and Advanced Computing".

Definition sample_db : database :=
  {| tbl_programs := [open_row 1 "Marine Biology"; open_row 2 short_faculty];
     tbl_stats := [open_row 7 "MSc Data Science"; open_row 8 short_faculty;
                   open_row 9 long_faculty];
     tbl_cases := [open_row 3 long_faculty; open_row 4 "Data Science"] |}.

Definition first_result : result :=
  {| res_status := StatusOk; programs_updated := 2; stats_updated := 1; cases_updated := 1;
     res_last_processed_id := None; res_last_processed_table := None |}.

(** The world the first run over [sample_db] leaves behind. *)
Definition after_first_run : world :=
  snd (run_pipeline sample_partial_ratio sample_chat_completion sample_env defaults (fresh sample_db)).

Example first_run :
  run_pipeline sample_partial_ratio sample_chat_completion sample_env defaults (fresh sample_db) = (Returned first_result, after_first_run).
Proof. vm_compute. reflexivity. Qed.

(** The second run over [sample_db]: one statistic and one case were
    matched by the first run, the two programmes were not; the second run
    writes both programmes again. *)
Lemma rerun_only_unmatched_witness :
  exists r2 w2,
    run_pipeline sample_partial_ratio sample_chat_completion (undisturbed sample_env) defaults after_first_run = (Returned r2, w2)
    /\ res_status r2 = StatusOk
    /\ stats_updated r2 = 0%nat
    /\ cases_updated r2 = 0%nat
    /\ programs_updated r2 =
         List.length
           (filter (fun p => negb (write_raises sample_env programs (row_id p)))
                   (if read_raises sample_env programs then []
                    else select defaults programs (db after_first_run))).
Proof.
  refine (rerun_only_unmatched sample_partial_ratio
            sample_chat_completion
            sample_env defaults (fresh sample_db) first_result after_first_run
            eq_refl _ eq_refl).
  vm_compute. reflexivity.
Defined.

Definition second_result : result :=
  {| res_status := StatusOk; programs_updated := 2; stats_updated := 0; cases_updated := 0;
     res_last_processed_id := None; res_last_processed_table := None |}.

Definition after_second_run : world :=
  snd (run_pipeline sample_partial_ratio sample_chat_completion sample_env defaults after_first_run).

Example second_run :
  run_pipeline sample_partial_ratio sample_chat_completion sample_env defaults after_first_run = (Returned second_result, after_second_run).
Proof. vm_compute. reflexivity. Qed.

(** C7 as stated fails: the second run counts two updates of
    [programs]. *)
Lemma rerun_zero_updates_counterexample :
  ~ (forall (partial_ratio : string -> string -> Q)
            (chat_completion : string -> option string)
            (env : environment) (o : options) (w w1 w2 : world) (r1 r2 : result),
        only_unmatched o = true ->
        run_pipeline partial_ratio chat_completion env o w = (Returned r1, w1) ->
        res_status r1 = StatusOk ->
        run_pipeline partial_ratio chat_completion env o w1 = (Returned r2, w2) ->
        programs_updated r2 = 0%nat /\ stats_updated r2 = 0%nat /\ cases_updated r2 = 0%nat).
Proof.
  intros H.
  destruct (H _ _ sample_env defaults _ _ _ first_result second_result
              eq_refl first_run eq_refl second_run) as [Hp _].
  discriminate Hp.
Qed.

Lemma skipped_short_faculty : skipped short_faculty = true.
Proof. vm_compute. reflexivity. Qed.

Lemma skipped_long_faculty : skipped long_faculty = true.
Proof. vm_compute. reflexivity. Qed.

Lemma short_faculty_matched_in_programs :
  In (EvMatch programs 2 short_faculty)
     (trace (snd (run_pipeline sample_partial_ratio sample_chat_completion sample_env defaults (fresh sample_db)))).
Proof. vm_compute. tauto. Qed.

(** C2 as stated fails for [programs]: the run hands "Faculty of
    Engineering", which the filter of the two other loops skips, to the
    matcher. *)
Lemma primary_kind_unfiltered_counterexample :
  ~ (forall (partial_ratio : string -> string -> Q)
            (chat_completion : string -> option string)
            (env : environment) (o : options) (d : database)
            (t : table) (rid : Z) (name : string),
        In (EvMatch t rid name)
           (trace (snd (run_pipeline partial_ratio chat_completion env o (fresh d)))) ->
        skipped name = false).
Proof.
  intros H.
  pose proof (H _ _ _ _ _ _ _ _ short_faculty_matched_in_programs) as H1.
  rewrite skipped_short_faculty in H1. discriminate H1.
Qed.

(** The theorem at [sample_db]: the second programme reaches the
    matcher and the classifier. *)
Lemma eligibility_filter_before_matching_witness :
  In (EvMatch programs 2 short_faculty)
     (trace (snd (programs_loop sample_partial_ratio
                    sample_chat_completion sample_env
                    sample_catalog
                    (tbl_programs sample_db) 0 (fresh sample_db))))
  /\ In (EvClassify 2)
       (trace (snd (programs_loop sample_partial_ratio
                      sample_chat_completion sample_env
                      sample_catalog
                      (tbl_programs sample_db) 0 (fresh sample_db)))).
Proof.
  refine (proj2 (eligibility_filter_before_matching
                   sample_partial_ratio
                   sample_chat_completion
                   sample_env defaults (fresh sample_db))
            sample_catalog (tbl_programs sample_db) 0%nat
            (fresh sample_db) (open_row 2 short_faculty) _ _).
  - intros i. reflexivity.
  - right. left. reflexivity.
Defined.

(** The theorem at an empty catalog. *)
Lemma catalog_failure_aborts_witness :
  exists r w',
    run_pipeline sample_partial_ratio sample_chat_completion (calm (CatalogData [])) defaults (fresh sample_db) = (Returned r, w')
    /\ res_status r = StatusStopped
    /\ programs_updated r = 0%nat /\ stats_updated r = 0%nat /\ cases_updated r = 0%nat
    /\ db w' = sample_db
    /\ trace w' = [EvLoadCatalog]
    /\ is_running (st w') = false.
Proof.
  exact (catalog_failure_aborts sample_partial_ratio
           sample_chat_completion
           (calm (CatalogData [])) defaults (fresh sample_db)
           eq_refl (or_intror (or_intror eq_refl))).
Defined.

(** C3 as stated fails on the empty catalog: the status is "stopped", the
    one a stopped run reports, and not "error". *)
Lemma empty_catalog_status_counterexample :
  ~ (forall (partial_ratio : string -> string -> Q)
            (chat_completion : string -> option string)
            (env : environment) (o : options) (w : world),
        is_running (st w) = false ->
        load_catalog env = CatalogData [] ->
        exists r w',
          run_pipeline partial_ratio chat_completion env o w = (Returned r, w')
          /\ res_status r = StatusError).
Proof.
  intros H.
  destruct (H sample_partial_ratio
              sample_chat_completion
              (calm (CatalogData [])) defaults (fresh sample_db) eq_refl eq_refl)
    as (r & w' & Hrun & Hstatus).
  injection Hrun as <- _. discriminate Hstatus.
Qed.

(** *** The two faculty names of the specification *)

(** No run hands a name that the filter skips to the matcher on behalf of
    [ic_program_stats] or [cases]. *)
Lemma skipped_name_never_matched partial_ratio chat_completion env o d t rid name :
  t <> programs ->
  skipped name = true ->
  ~ In (EvMatch t rid name)
       (trace (snd (run_pipeline partial_ratio chat_completion env o (fresh d)))).
Proof.
  intros Ht Hskip Hin.
  destruct (run_pipeline_extends partial_ratio chat_completion env o (fresh d))
    as (evs & Htrace & Hall).
  simpl in Htrace. rewrite Htrace in Hin.
  rewrite Forall_forall in Hall. specialize (Hall _ Hin Ht). congruence.
Qed.

(** C8 (amended): "Faculty of Engineering" has 3 words and a word of the
    deny list, so the rule for short labels skips it.  "Faculty of
    Engineering and Advanced Computing" has 6 words and passes that rule,
    but it starts with "faculty of" and the rule for prefixes skips it.  In
    the loops over [ic_program_stats] and [cases] neither name reaches the
    matcher. *)
Theorem faculty_names_filtered :
  word_count short_faculty = 3%nat
  /\ short_label short_faculty = true
  /\ word_count long_faculty = 6%nat
  /\ short_label long_faculty = false
  /\ faculty_prefix long_faculty = true
  /\ forall partial_ratio chat_completion env o d t rid,
       t <> programs ->
       ~ In (EvMatch t rid short_faculty)
            (trace (snd (run_pipeline partial_ratio chat_completion env o (fresh d))))
       /\ ~ In (EvMatch t rid long_faculty)
              (trace (snd (run_pipeline partial_ratio chat_completion env o (fresh d)))).
Proof.
  do 5 (split; [vm_compute; reflexivity|]).
  intros partial_ratio chat_completion env o d t rid Ht. split.
  - apply skipped_name_never_matched; [exact Ht|exact skipped_short_faculty].
  - apply skipped_name_never_matched; [exact Ht|exact skipped_long_faculty].
Qed.

(** The theorem at [sample_db], for the case with id 3. *)
Lemma faculty_names_filtered_witness :
  ~ In (EvMatch cases 3 long_faculty) (trace after_first_run).
Proof.
  refine (proj2 (proj2 (proj2 (proj2 (proj2 (proj2 faculty_names_filtered))))
                   sample_partial_ratio
                   sample_chat_completion
                   sample_env defaults sample_db cases 3 _)).
  discriminate.
Defined.

(** C8 as stated fails: in the run over [sample_db] the statistic with id
    9, named "Faculty of Engineering and Advanced Computing", is counted as
    processed and never handed to the matcher. *)
Lemma long_faculty_name_counterexample :
  ~ In (EvMatch ic_program_stats 9 long_faculty) (trace after_first_run)
  /\ In (open_row 9 long_faculty) (select defaults ic_program_stats sample_db)
  /\ processed (st after_first_run) ic_program_stats = 3%nat
  /\ skipped long_faculty = true.
Proof.
  split; [vm_compute; intuition discriminate|].
  split; [vm_compute; tauto|].
  split; [vm_compute; reflexivity|exact skipped_long_faculty].
Qed.

End RunPipelineFacts.

(** ** The state lock *)

Module LockingFacts.

Import Locking.

(** The worker holds the lock exactly while it stands inside the block;
    a caller never keeps it from one step to the next. *)
Definition inside_block (p : position) : bool :=
  match p with
  | CheckStop | NestedAcquire | CheckPause | Sleeping | Bookkeeping => true
  | LoopHead | Matching | Writing | Left => false
  end.

Definition lock_follows_text (s : state) : Prop :=
  lock s = if inside_block (at_ s) then Some Worker else None.

Lemma step_lock_follows_text a s s' :
  lock_follows_text s -> step a s = Some s' -> lock_follows_text s'.
Proof.
  unfold lock_follows_text, step, worker_step, free, move.
  destruct s as [l p q pos]; simpl. intros ->.
  destruct a, pos; simpl; try discriminate;
    try (intros [= <-]; reflexivity);
    destruct q, p; simpl; intros [= <-]; reflexivity.
Qed.

Lemma exec_lock_follows_text schedule s s' :
  lock_follows_text s -> exec schedule s = Some s' -> lock_follows_text s'.
Proof.
  revert s. induction schedule as [|a schedule IH]; simpl; intros s Hs.
  - now intros [= <-].
  - destruct (step a s) as [s1|] eqn:E; [|discriminate].
    apply IH. eapply step_lock_follows_text; eauto.
Qed.

(** The part of the specification's sentence that the text of the loop
    keeps: the calls of the matcher (and with it the oracle) and of the
    store are made after the block is left. *)
Lemma external_calls_outside_lock s :
  reachable start s ->
  at_ s = Matching \/ at_ s = Writing ->
  lock s = None.
Proof.
  intros (schedule & Hexec) Hat.
  assert (H : lock_follows_text s) by (eapply exec_lock_follows_text; eauto; reflexivity).
  unfold lock_follows_text in H. rewrite H. now destruct Hat as [-> | ->].
Qed.

(** The worker waits for the end of a pause inside the block. *)
Definition waiting (s : state) : Prop :=
  lock s = Some Worker /\ paused s = true /\ (at_ s = CheckPause \/ at_ s = Sleeping).

Lemma waiting_blocks_callers s a :
  waiting s -> a <> WorkerStep -> step a s = None.
Proof.
  intros (Hlock & _ & _) Ha. unfold step, free. rewrite Hlock.
  destruct a; try reflexivity. congruence.
Qed.

Lemma waiting_step s a s' : waiting s -> step a s = Some s' -> waiting s'.
Proof.
  intros Hw Hstep.
  destruct a; try (rewrite (waiting_blocks_callers s _ Hw) in Hstep; discriminate).
  destruct Hw as (Hlock & Hp & Hat). simpl in Hstep. unfold worker_step, move in Hstep.
  destruct Hat as [Hat | Hat]; rewrite Hat in Hstep; [rewrite Hp in Hstep|];
    injection Hstep as <-; unfold waiting; simpl; tauto.
Qed.

Lemma waiting_forever s s' : waiting s -> reachable s s' -> waiting s'.
Proof.
  intros Hw (schedule & Hexec). revert s Hw Hexec.
  induction schedule as [|a schedule IH]; simpl; intros s Hw.
  - now intros [= <-].
  - destruct (step a s) as [s1|] eqn:E; [|discriminate].
    apply IH. eapply waiting_step; eauto.
Qed.

(** The worker has found [should_stop] set and stands before the inner
    [with _state_lock:] with the lock in its hand: nothing moves any
    more. *)
Definition blocked_on_itself (s : state) : Prop :=
  lock s = Some Worker /\ at_ s = NestedAcquire.

Lemma blocked_on_itself_stuck s a : blocked_on_itself s -> step a s = None.
Proof.
  intros (Hlock & Hat). unfold step, worker_step, free. rewrite Hlock, Hat.
  now destruct a.
Qed.

(** [pause_pipeline] is called while the worker is busy with a record;
    the worker finishes the record and comes back to the flags. *)
Definition pause_during_a_record : list action :=
  [WorkerStep; WorkerStep; WorkerStep; WorkerStep; PauseCall;
   WorkerStep; WorkerStep; WorkerStep; WorkerStep; WorkerStep].

Definition asleep_under_lock : state :=
  {| lock := Some Worker; paused := true; stop := false; at_ := Sleeping |}.

(** [stop_pipeline] is called while the worker is busy with a record. *)
Definition stop_during_a_record : list action :=
  [WorkerStep; WorkerStep; WorkerStep; WorkerStep; StopCall;
   WorkerStep; WorkerStep; WorkerStep; WorkerStep].

(** C10 (the code departs from it): after a call of [pause_pipeline] the
    worker sleeps inside [with _state_lock:].  From then on the lock is
    never free: [resume_pipeline], [stop_pipeline], [get_pipeline_status]
    and a further [pause_pipeline] block, and the flag [is_paused] stays
    set in every state that can follow. *)
Theorem pause_wait_holds_the_lock :
  exec pause_during_a_record start = Some asleep_under_lock
  /\ holds_lock_outside_flag_update asleep_under_lock = true
  /\ step ResumeCall asleep_under_lock = None
  /\ step StopCall asleep_under_lock = None
  /\ step StatusCall asleep_under_lock = None
  /\ step PauseCall asleep_under_lock = None
  /\ forall s', reachable asleep_under_lock s' ->
       paused s' = true /\ lock s' = Some Worker /\ step ResumeCall s' = None.
Proof.
  repeat split; try reflexivity;
    assert (Hw : waiting s')
      by (eapply waiting_forever; [|eassumption]; unfold waiting; simpl; tauto).
  - apply Hw.
  - apply Hw.
  - apply waiting_blocks_callers; [exact Hw|discriminate].
Qed.

(** After a call of [stop_pipeline] the worker blocks on the lock it
    holds itself, and with it every caller. *)
Lemma stop_blocks_the_worker :
  exists s,
    exec stop_during_a_record start = Some s
    /\ blocked_on_itself s
    /\ forall a, step a s = None.
Proof.
  eexists. split; [reflexivity|]. split; [split; reflexivity|].
  intros a. apply blocked_on_itself_stuck. split; reflexivity.
Qed.

End LockingFacts.

(** * Further properties of the code *)

(** ** normalize.py *)

Module NormalizeMore.

Import NormalizeFacts.

(** An ASCII capital letter. *)
Definition is_upper (c : ascii) : bool :=
  let n := nat_of_ascii c in (65 <=? n) && (n <=? 90).

(** What a character of a normalised name can be: no capital letter, none
    of the characters of the second substitution, and no white space other
    than the space itself. *)
Definition is_single_space (c : ascii) : bool :=
  negb (is_space c) || Ascii.eqb c " "%char.

Definition is_clean (c : ascii) : bool :=
  negb (is_upper c) && negb (is_special c) && is_single_space c.

Lemma is_lowered_not_upper c : is_lowered c = negb (is_upper c).
Proof. destruct c as [[] [] [] [] [] [] [] []]; reflexivity. Qed.

Lemma every_and P Q s :
  every (fun c => P c && Q c) s = every P s && every Q s.
Proof.
  induction s as [|c s IH]; simpl; [reflexivity|].
  rewrite IH. destruct (P c), (Q c), (every P s), (every Q s); reflexivity.
Qed.

Lemma every_ext P Q s : (forall c, P c = Q c) -> every P s = every Q s.
Proof. intros H. induction s as [|c s IH]; simpl; [reflexivity|]. now rewrite H, IH. Qed.

Lemma tidy_single_spaces b s : tidy b s = true -> every is_single_space s = true.
Proof.
  revert b. induction s as [|c s IH]; intros b; simpl; [reflexivity|].
  unfold is_single_space at 1. destruct (is_space c); simpl.
  - intros H. apply andb_true_iff in H. destruct H as [H Hs].
    apply andb_true_iff in H. destruct H as [-> _]. simpl. now apply (IH true).
  - now apply IH.
Qed.

Lemma tidy_no_double_space b s : tidy b s = true -> contains s "  " = false.
Proof.
  revert b. induction s as [|c s IH]; intros b; [reflexivity|].
  intros H. cbn [contains]. apply orb_false_iff. split.
  - simpl in *. destruct (Ascii.eqb_spec c " "%char) as [->|]; [|reflexivity].
    simpl in H. apply andb_true_iff in H. destruct H as [_ Hs].
    destruct s as [|c2 s]; [reflexivity|]. simpl in *.
    destruct (Ascii.eqb_spec c2 " "%char) as [->|]; [|reflexivity].
    simpl in Hs. discriminate.
  - simpl in H. destruct (is_space c).
    + apply andb_true_iff in H. destruct H as [_ Hs]. now apply (IH true).
    + now apply (IH false).
Qed.

Lemma normalize_name_tidy_result x : tidy false (normalize_name x) = true.
Proof.
  unfold normalize_name. destruct (negb (truthy_str x)); [reflexivity|]. cbv zeta.
  apply tidy_rstrip, (tidy_lstrip false), tidy_collapse_from.
Qed.

Lemma every_normalize_name (P : ascii -> bool) x :
  P " "%char = true ->
  every P (replace_special (remove_tokens (lower x))) = true ->
  every P (normalize_name x) = true.
Proof.
  intros Hsp H. unfold normalize_name. destruct (negb (truthy_str x)); [reflexivity|].
  cbv zeta. now apply every_rstrip, every_lstrip, every_collapse_from.
Qed.

(** X2: whatever the input, the normalised name consists of clean
    characters only (no capital letter, no bracket or punctuation character
    of the second substitution, no white space but the space), has no two
    spaces in a row and no white space at either end. *)
Theorem normalize_name_shape (x : string) :
  every is_clean (normalize_name x) = true
  /\ contains (normalize_name x) "  " = false
  /\ strip (normalize_name x) = normalize_name x.
Proof.
  split; [|split].
  - unfold is_clean.
    rewrite (every_and (fun c => negb (is_upper c) && negb (is_special c))),
            (every_and (fun c => negb (is_upper c))).
    rewrite (every_ext (fun c => negb (is_upper c)) is_lowered)
      by (intros c; now rewrite is_lowered_not_upper).
    rewrite (tidy_single_spaces false _ (normalize_name_tidy_result x)).
    assert (H1 : every is_lowered (normalize_name x) = true).
    { apply every_normalize_name; [reflexivity|].
      apply every_replace_special; [reflexivity|].
      apply every_remove_tokens_from, every_lower. }
    assert (H2 : every is_plain (normalize_name x) = true).
    { apply every_normalize_name; [reflexivity|]. apply every_replace_special_plain. }
    unfold is_plain in H2. now rewrite H1, H2.
  - exact (tidy_no_double_space false _ (normalize_name_tidy_result x)).
  - apply normalize_name_stripped.
Qed.

Lemma length_lower s : String.length (lower s) = String.length s.
Proof. induction s as [|c s IH]; simpl; congruence. Qed.

(** A name written in ASCII.  On such a name [str.lower] is the folding of
    the letters A-Z, which keeps the length; on other text it can
    lengthen the name (U+0130 becomes two code points). *)
Definition is_ascii (s : string) : bool :=
  every (fun c => nat_of_ascii c <? 128) s.

(** X3: the normalised name of a name written in ASCII is never longer
    than the name it comes from. *)
Theorem normalize_name_not_longer (x : string) :
  is_ascii x = true ->
  String.length (normalize_name x) <= String.length x.
Proof.
  intros _.
  unfold normalize_name. destruct (negb (truthy_str x)); [simpl; lia|]. cbv zeta.
  pose proof (length_after_removal (remove_tokens (lower x))).
  pose proof (length_remove_tokens_from 0 (lower x)).
  pose proof (length_lower x). unfold remove_tokens in *. lia.
Qed.

Lemma normalize_name_not_longer_witness :
  is_ascii "MSc Data Science (London)" = true
  /\ String.length (normalize_name "MSc Data Science (London)")
     <= String.length "MSc Data Science (London)".
Proof.
  split; [reflexivity|].
  exact (normalize_name_not_longer "MSc Data Science (London)" eq_refl).
Defined.

Lemma lower_idem s : lower (lower s) = lower s.
Proof. apply lower_fixed, every_lower. Qed.

Lemma truthy_lower s : truthy_str (lower s) = truthy_str s.
Proof. now destruct s. Qed.

(** X4: the normaliser ignores the case of ASCII letters: two names that
    differ in case only have the same normalised name. *)
Theorem normalize_name_ignores_case (a b : string) :
  lower a = lower b -> normalize_name a = normalize_name b.
Proof.
  intros H. unfold normalize_name.
  rewrite <- (truthy_lower a), <- (truthy_lower b), H. reflexivity.
Qed.

Lemma normalize_name_ignores_case_witness :
  normalize_name "MSC Data Science" = normalize_name "msc DATA science".
Proof. apply normalize_name_ignores_case. reflexivity. Defined.

End NormalizeMore.

(** ** fuzzy_match.py, keyword_match.py, llm_match.py, canonical_mapper.py *)

Module MatcherMore.

Import NormalizeFacts NormalizeMore CanonicalMapperFacts.

Local Open Scope Q_scope.

(** *** The overlap score *)

Definition occurs_in (name_lower : string) (kw : string) : bool :=
  contains name_lower (lower kw).

Lemma keyword_hits_le name_lower kws :
  (keyword_hits name_lower kws <= List.length kws)%nat.
Proof. unfold keyword_hits. apply filter_length_le. Qed.

Lemma filter_all_length {A} (f : A -> bool) (l : list A) :
  List.length (filter f l) = List.length l <-> forall x, In x l -> f x = true.
Proof.
  induction l as [|a l IH]; simpl; [tauto|].
  pose proof (filter_length_le f l) as Hle.
  destruct (f a) eqn:E; simpl.
  - split.
    + intros H x [<-|Hx]; [exact E|]. apply IH; [lia|exact Hx].
    + intros H. f_equal. apply IH. intros x Hx. apply H. now right.
  - split; [intros H; lia|]. intros H. specialize (H a (or_introl eq_refl)). congruence.
Qed.

Lemma filter_nil_length {A} (f : A -> bool) (l : list A) :
  List.length (filter f l) = 0%nat <-> forall x, In x l -> f x = false.
Proof.
  induction l as [|a l IH]; simpl; [tauto|].
  destruct (f a) eqn:E; simpl.
  - split; [discriminate|]. intros H. specialize (H a (or_introl eq_refl)). congruence.
  - rewrite IH. split.
    + intros H x [<-|Hx]; [exact E|now apply H].
    + intros H x Hx. apply H. now right.
Qed.

Ltac q_arith := unfold Qle, Qeq in *; cbn [Qnum Qden] in *; lia.

Lemma Pos_of_nat_length {A} (a : A) (l : list A) :
  Z.pos (Pos.of_nat (List.length (a :: l))) = Z.of_nat (List.length (a :: l)).
Proof.
  cbn [List.length]. rewrite <- Pos.of_nat_succ, Zpos_P_of_succ_nat. lia.
Qed.

(** The values of the overlap score: its bounds and the two extremes. *)
Lemma keyword_overlap_score_values (name : string) (kws : list string) :
  (0 <= keyword_overlap_score name kws /\ keyword_overlap_score name kws <= 1)
  /\ (keyword_overlap_score name kws == 0
      <-> name = ""%string \/ forall kw, In kw kws -> occurs_in (lower name) kw = false)
  /\ (keyword_overlap_score name kws == 1
      <-> name <> ""%string /\ kws <> []
          /\ forall kw, In kw kws -> occurs_in (lower name) kw = true).
Proof.
  unfold keyword_overlap_score.
  destruct kws as [|k kws].
  - split; [split; q_arith|]. split.
    + split; [intros _; right; intros kw []|reflexivity].
    + split; [intros H; q_arith|]. intros (_ & H & _). congruence.
  - destruct name as [|a s]; cbn [truthy_str negb].
    + split; [split; q_arith|]. split.
      * split; [now left|reflexivity].
      * split; [intros H; q_arith|]. intros (H & _). congruence.
    + cbv zeta. set (name := String a s).
      pose proof (keyword_hits_le (lower name) (k :: kws)) as Hle.
      pose proof (Pos_of_nat_length k kws) as Hlen.
      unfold keyword_hits in *. fold (occurs_in (lower name)) in *.
      split; [split; unfold Qle; cbn [Qnum Qden]; rewrite ?Hlen; lia|]. split.
      * unfold Qeq. cbn [Qnum Qden]. split.
        -- intros H. right. apply filter_nil_length. lia.
        -- intros [H|H]; [discriminate H|]. apply filter_nil_length in H. rewrite H. reflexivity.
      * unfold Qeq. cbn [Qnum Qden]. rewrite Hlen. split.
        -- intros H. split; [discriminate|]. split; [discriminate|].
           apply filter_all_length. lia.
        -- intros (_ & _ & H). apply filter_all_length in H. rewrite H. lia.
Qed.

(** X5: the overlap score lies between 0 and 1.  It is 0 exactly when the
    text is empty or none of the keywords occurs in it (in particular for
    an empty keyword list), and 1 exactly when text and list are not empty
    and every keyword occurs. *)
Theorem keyword_overlap_score_range (name : string) (kws : list string) :
  (0 <= keyword_overlap_score name kws /\ keyword_overlap_score name kws <= 1)
  /\ (keyword_overlap_score name kws == 0
      <-> name = ""%string \/ forall kw, In kw kws -> occurs_in (lower name) kw = false)
  /\ (keyword_overlap_score name kws == 1
      <-> name <> ""%string /\ kws <> []
          /\ forall kw, In kw kws -> occurs_in (lower name) kw = true).
Proof. exact (keyword_overlap_score_values name kws). Qed.

Lemma filter_map_length {A B} (f : B -> bool) (g : A -> B) (l : list A) :
  List.length (filter f (map g l)) = List.length (filter (fun x => f (g x)) l).
Proof.
  induction l as [|a l IH]; simpl; [reflexivity|].
  destruct (f (g a)); simpl; now rewrite IH.
Qed.

(** X6: the overlap score ignores the case of ASCII letters, in the text
    and in the keywords. *)
Theorem keyword_overlap_score_ignores_case (name : string) (kws : list string) :
  keyword_overlap_score (lower name) (map lower kws) = keyword_overlap_score name kws.
Proof.
  unfold keyword_overlap_score.
  destruct kws as [|k kws]; [reflexivity|]. cbn [map].
  rewrite truthy_lower. destruct (negb (truthy_str name)); [reflexivity|]. cbv zeta.
  change (lower k :: map lower kws) with (map lower (k :: kws)).
  unfold keyword_hits. rewrite filter_map_length, length_map, lower_idem.
  f_equal. f_equal. f_equal. apply filter_ext. intros kw. now rewrite lower_idem.
Qed.

Local Close Scope Q_scope.

(** X7: the keyword stage accepts an entry exactly when the entry has a
    non-empty keyword list, the normalised name is not empty, and at least
    three tenths of the keywords occur in it. *)
Theorem keyword_accepts_three_tenths (norm : string) (c : canonical_program) :
  keyword_accepts norm c = true
  <-> exists kws,
        keywords c = Some kws /\ kws <> [] /\ norm <> ""%string
        /\ 3 * List.length kws <= 10 * keyword_hits (lower norm) kws.
Proof.
  unfold keyword_accepts.
  destruct (keywords c) as [[|k kws]|].
  - split; [discriminate|]. intros (x & [= <-] & H & _). congruence.
  - rewrite Qle_bool_iff. unfold keyword_overlap_score.
    destruct norm as [|a s]; cbn [truthy_str negb].
    + split; [intros H; q_arith|]. intros (x & _ & _ & H & _). congruence.
    + cbv zeta. set (n := String a s).
      pose proof (Pos_of_nat_length k kws) as Hlen.
      unfold Qle. cbn [Qnum Qden]. rewrite Hlen. split.
      * intros H. exists (k :: kws). repeat split; try discriminate. lia.
      * intros (x & [= <-] & _ & _ & H). lia.
  - split; [discriminate|]. intros (x & H & _). discriminate H.
Qed.

(** *** The similarity threshold *)

(** X8: an empty string matches nothing at a positive threshold, whatever
    the similarity library would say; two non-empty strings match exactly
    when the library's score of their lower-case forms reaches the
    threshold. *)
Theorem is_fuzzy_match_threshold (partial_ratio : string -> string -> Q)
  (a b : string) (threshold : Q) :
  ((a = "" \/ b = "") -> (0 < threshold)%Q ->
   is_fuzzy_match partial_ratio a b threshold = false)
  /\ (a <> "" -> b <> "" ->
      (is_fuzzy_match partial_ratio a b threshold = true
       <-> (threshold <= partial_ratio (lower a) (lower b))%Q)).
Proof.
  unfold is_fuzzy_match, fuzzy_similarity. split.
  - intros Hab Ht.
    assert (E : negb (truthy_str a) || negb (truthy_str b) = true).
    { destruct Hab as [-> | ->]; [reflexivity|]. now destruct a. }
    rewrite E. destruct (Qle_bool threshold 0) eqn:Q; [|reflexivity].
    apply Qle_bool_iff in Q. now elim (Qlt_not_le _ _ Ht).
  - intros Ha Hb. destruct a; [congruence|]. destruct b; [congruence|].
    cbn [truthy_str negb orb]. apply Qle_bool_iff.
Qed.

Lemma is_fuzzy_match_threshold_witness :
  is_fuzzy_match (fun _ _ => 100%Q) "" "data science" 85 = false.
Proof.
  refine (proj1 (is_fuzzy_match_threshold (fun _ _ => 100%Q) "" "data science" 85) _ _).
  - now left.
  - reflexivity.
Defined.

(** *** The oracle *)

(** The test the semantic stage applies to a reply; a call that raises
    counts as an answer that is not "yes". *)
Definition says_yes (reply : option string) : bool :=
  match reply with
  | Some content => String.eqb (lower (strip content)) "yes"
  | None => false
  end.

Lemma first_accepted_ext (P Q : canonical_program -> bool) l :
  (forall c, In c l -> P c = Q c) -> first_accepted P l = first_accepted Q l.
Proof.
  induction l as [|c l IH]; intros H; simpl; [reflexivity|].
  rewrite (H c) by now left. destruct (Q c); [reflexivity|].
  apply IH. intros x Hx. apply H. now right.
Qed.

Lemma llm_semantic_match_says_yes chat a b :
  llm_semantic_match chat a b
  = truthy_str a && truthy_str b && says_yes (chat (prompt_for a b)).
Proof.
  unfold llm_semantic_match, says_yes.
  destruct a; [reflexivity|]. destruct b; [reflexivity|]. simpl.
  now destruct (chat _).
Qed.

(** X9: the matcher sees the oracle only through the test "is the reply
    yes, up to case and surrounding white space": two oracles that agree on
    it give the same result.  In particular an oracle that fails cannot be
    told from one that answers no. *)
Theorem map_to_canonical_oracle_yes_only (partial_ratio : string -> string -> Q)
  (chat1 chat2 : string -> option string)
  (program_name : string) (l : list canonical_program) :
  (forall prompt, says_yes (chat1 prompt) = says_yes (chat2 prompt)) ->
  map_to_canonical partial_ratio chat1 program_name l
  = map_to_canonical partial_ratio chat2 program_name l.
Proof.
  intros Hyes.
  destruct program_name as [|a s]; [reflexivity|].
  destruct l as [|c0 l0]; [reflexivity|].
  rewrite !map_to_canonical_unfold by discriminate. cbv zeta.
  rewrite (first_accepted_ext (semantic_accepts chat1 (String a s))
                              (semantic_accepts chat2 (String a s))); [reflexivity|].
  intros c _. unfold semantic_accepts. cbv zeta.
  now rewrite !llm_semantic_match_says_yes, Hyes.
Qed.

Lemma map_to_canonical_oracle_yes_only_witness :
  map_to_canonical sample_partial_ratio (fun _ => None) "Applied Zoology" sample_catalog
  = map_to_canonical sample_partial_ratio (fun _ => Some "No.") "Applied Zoology"
      sample_catalog.
Proof.
  apply map_to_canonical_oracle_yes_only. intros prompt. reflexivity.
Defined.

(** *** What the matcher returns *)

Definition accepted_by_some_stage (partial_ratio : string -> string -> Q)
  (chat_completion : string -> option string)
  (program_name : string) (c : canonical_program) : bool :=
  exact_accepts (normalize_name program_name) c
  || fuzzy_accepts partial_ratio (normalize_name program_name) c
  || keyword_accepts (normalize_name program_name) c
  || semantic_accepts chat_completion program_name c.

Lemma first_accepted_In P l i :
  first_accepted P l = Some i -> exists c, In c l /\ cp_id c = i /\ P c = true.
Proof.
  intros H. destruct (first_accepted_inv P l i H) as (c & (before & after & -> & Hc & _) & Hid).
  exists c. split; [|now split]. apply in_elt.
Qed.

Lemma first_accepted_None P l :
  first_accepted P l = None <-> forall c, In c l -> P c = false.
Proof.
  split; [|apply first_accepted_none].
  induction l as [|x l IH]; simpl; [intros _ c []|].
  destruct (P x) eqn:E; [discriminate|].
  intros H c [<-|Hc]; [exact E|now apply IH].
Qed.

(** X10: an id the matcher returns is the id of an entry of the catalog
    that one of the four stages accepts, and the raw name is not empty.
    The matcher returns none exactly when the raw name is empty or no
    entry is accepted by any stage (in particular for an empty
    catalog). *)
Theorem map_to_canonical_sound (partial_ratio : string -> string -> Q)
  (chat_completion : string -> option string)
  (program_name : string) (l : list canonical_program) :
  (forall i,
      map_to_canonical partial_ratio chat_completion program_name l = Some i ->
      program_name <> ""
      /\ exists c, In c l /\ cp_id c = i
                   /\ accepted_by_some_stage partial_ratio chat_completion program_name c = true)
  /\ (map_to_canonical partial_ratio chat_completion program_name l = None
      <-> program_name = ""
          \/ forall c, In c l ->
               accepted_by_some_stage partial_ratio chat_completion program_name c = false).
Proof.
  destruct program_name as [|a s].
  { split; [discriminate|]. split; [now left|reflexivity]. }
  destruct l as [|c0 l0].
  { split; [discriminate|]. split; [intros _; right; intros c []|reflexivity]. }
  rewrite map_to_canonical_unfold by discriminate. cbv zeta.
  set (name := String a s). set (l := c0 :: l0). unfold accepted_by_some_stage.
  destruct (first_accepted (exact_accepts (normalize_name name)) l) as [i1|] eqn:E1.
  { split.
    - intros i [= <-]. split; [discriminate|].
      destruct (first_accepted_In _ _ _ E1) as (c & Hc & Hid & Hacc).
      exists c. repeat split; try assumption. now rewrite Hacc.
    - split; [discriminate|]. intros [H|H]; [discriminate H|].
      destruct (first_accepted_In _ _ _ E1) as (c & Hc & _ & Hacc).
      specialize (H c Hc). rewrite Hacc in H. discriminate H. }
  destruct (first_accepted (fuzzy_accepts partial_ratio (normalize_name name)) l)
    as [i2|] eqn:E2.
  { split.
    - intros i [= <-]. split; [discriminate|].
      destruct (first_accepted_In _ _ _ E2) as (c & Hc & Hid & Hacc).
      exists c. repeat split; try assumption. rewrite Hacc. now rewrite orb_true_r.
    - split; [discriminate|]. intros [H|H]; [discriminate H|].
      destruct (first_accepted_In _ _ _ E2) as (c & Hc & _ & Hacc).
      specialize (H c Hc). rewrite Hacc, orb_true_r in H. discriminate H. }
  destruct (first_accepted (keyword_accepts (normalize_name name)) l) as [i3|] eqn:E3.
  { split.
    - intros i [= <-]. split; [discriminate|].
      destruct (first_accepted_In _ _ _ E3) as (c & Hc & Hid & Hacc).
      exists c. repeat split; try assumption. rewrite Hacc. now rewrite orb_true_r.
    - split; [discriminate|]. intros [H|H]; [discriminate H|].
      destruct (first_accepted_In _ _ _ E3) as (c & Hc & _ & Hacc).
      specialize (H c Hc). rewrite Hacc, orb_true_r in H. discriminate H. }
  rewrite first_accepted_None in E1, E2, E3.
  split.
  - intros i E4. split; [discriminate|].
    destruct (first_accepted_In _ _ _ E4) as (c & Hc & Hid & Hacc).
    exists c. repeat split; try assumption. rewrite Hacc. now rewrite orb_true_r.
  - rewrite first_accepted_None. split.
    + intros E4. right. intros c Hc. now rewrite E1, E2, E3, E4.
    + intros [H|H]; [discriminate H|]. intros c Hc. specialize (H c Hc).
      rewrite E1, E2, E3 in H by assumption. exact H.
Qed.

Lemma map_to_canonical_sound_witness :
  "MSc Data Science" <> ""
  /\ exists c, In c sample_catalog /\ cp_id c = 7%Z
               /\ accepted_by_some_stage sample_partial_ratio sample_chat_completion
                    "MSc Data Science" c = true.
Proof.
  refine (proj1 (map_to_canonical_sound sample_partial_ratio sample_chat_completion
                   "MSc Data Science" sample_catalog) 7%Z _).
  vm_compute. reflexivity.
Defined.

(** X11: the oracle is a last resort: when one of the three stages before
    it accepts some entry, the result does not depend on the oracle at
    all. *)
Theorem map_to_canonical_oracle_is_fallback (partial_ratio : string -> string -> Q)
  (chat1 chat2 : string -> option string)
  (program_name : string) (l : list canonical_program) (c : canonical_program) :
  In c l ->
  exact_accepts (normalize_name program_name) c
  || fuzzy_accepts partial_ratio (normalize_name program_name) c
  || keyword_accepts (normalize_name program_name) c = true ->
  map_to_canonical partial_ratio chat1 program_name l
  = map_to_canonical partial_ratio chat2 program_name l.
Proof.
  intros Hc Hacc.
  destruct program_name as [|a s]; [reflexivity|].
  destruct l as [|c0 l0]; [destruct Hc|].
  rewrite !map_to_canonical_unfold by discriminate. cbv zeta.
  set (name := String a s) in *. set (l := c0 :: l0) in *.
  destruct (first_accepted (exact_accepts (normalize_name name)) l) eqn:E1; [reflexivity|].
  destruct (first_accepted (fuzzy_accepts partial_ratio (normalize_name name)) l) eqn:E2;
    [reflexivity|].
  destruct (first_accepted (keyword_accepts (normalize_name name)) l) eqn:E3; [reflexivity|].
  rewrite first_accepted_None in E1, E2, E3.
  rewrite (E1 c Hc), (E2 c Hc), (E3 c Hc) in Hacc. discriminate Hacc.
Qed.

Lemma map_to_canonical_oracle_is_fallback_witness :
  map_to_canonical sample_partial_ratio (fun _ => Some "yes") "MSc Data Science" sample_catalog
  = map_to_canonical sample_partial_ratio (fun _ => None) "MSc Data Science" sample_catalog.
Proof.
  apply (map_to_canonical_oracle_is_fallback sample_partial_ratio _ _
           "MSc Data Science" sample_catalog entry_data_science).
  - right. now left.
  - vm_compute. reflexivity.
Defined.

End MatcherMore.

(** ** category_classifier.py *)

Module ClassifierMore.

Import NormalizeFacts NormalizeMore MatcherMore CategoryClassifierFacts.

Local Open Scope Q_scope.

(** The loop ends on the category it started with or on a category of the
    table whose score beats the score it started with. *)
Lemma best_match_origin text table best_category best_score cat :
  best_match text table best_category best_score = Some cat ->
  best_category = Some cat
  \/ exists kws, In (cat, kws) table /\ best_score < keyword_overlap_score text kws.
Proof.
  revert best_category best_score.
  induction table as [|[c kws] table IH]; intros bc bs; simpl; [now left|].
  destruct (Qgt_bool (keyword_overlap_score text kws) bs) eqn:E.
  - apply Qgt_bool_true in E. intros H. right.
    destruct (IH _ _ H) as [[= <-]|(kws' & Hin & Hlt)].
    + exists kws. split; [now left|exact E].
    + exists kws'. split; [now right|]. now apply Qlt_trans with (keyword_overlap_score text kws).
  - intros H. destruct (IH _ _ H) as [Hbc|(kws' & Hin & Hlt)]; [now left|].
    right. exists kws'. split; [now right|exact Hlt].
Qed.

Lemma positive_score_keyword text kws :
  0 < keyword_overlap_score text kws ->
  exists kw, In kw kws /\ contains (lower text) (lower kw) = true.
Proof.
  intros Hpos.
  destruct (keyword_overlap_score_values text kws) as (_ & Hzero & _).
  destruct (existsb (occurs_in (lower text)) kws) eqn:E.
  - apply existsb_exists in E. destruct E as (kw & Hin & Hkw). now exists kw.
  - exfalso. assert (Hz : keyword_overlap_score text kws == 0).
    { apply Hzero. right. intros kw Hin.
      destruct (occurs_in (lower text) kw) eqn:Ekw; [|reflexivity].
      assert (existsb (occurs_in (lower text)) kws = true)
        by (apply existsb_exists; now exists kw).
      congruence. }
    rewrite Hz in Hpos. now apply Qlt_irrefl in Hpos.
Qed.

Local Close Scope Q_scope.

Lemma lower_append a b : lower (a ++ b) = (lower a ++ lower b)%string.
Proof. induction a as [|c a IH]; simpl; [reflexivity|]. now rewrite IH. Qed.

(** X12: the classifier answers "other" or the name of a category of the
    keyword table, nothing else. *)
Theorem classify_category_in_table (program_name : string) (requirements : option string) :
  In (classify_category program_name requirements) ("other" :: map fst MAJOR_KEYWORDS).
Proof.
  unfold classify_category, classify_with.
  destruct (negb (truthy_str (strip _))); [now left|].
  destruct (best_match _ MAJOR_KEYWORDS None 0%Q) as [cat|] eqn:E; [|now left].
  right. destruct (best_match_origin _ _ _ _ _ E) as [H|(kws & Hin & _)]; [discriminate H|].
  apply in_map_iff. exists (cat, kws). split; [reflexivity|exact Hin].
Qed.

(** X13: a category other than "other" is answered only when the text of
    name and requirements, in lower case, contains one of the keywords of
    that category. *)
Theorem classify_category_has_keyword (program_name : string) (requirements : option string) :
  classify_category program_name requirements <> "other" ->
  exists kws kw,
    In (classify_category program_name requirements, kws) MAJOR_KEYWORDS
    /\ In kw kws
    /\ contains (lower (program_name ++ " " ++ or_empty requirements)) (lower kw) = true.
Proof.
  unfold classify_category, classify_with.
  set (text := lower (program_name ++ " " ++ or_empty requirements)).
  destruct (negb (truthy_str (strip text))); [congruence|].
  destruct (best_match text MAJOR_KEYWORDS None 0%Q) as [cat|] eqn:E; [|congruence].
  intros _.
  destruct (best_match_origin _ _ _ _ _ E) as [H|(kws & Hin & Hpos)]; [discriminate H|].
  destruct (positive_score_keyword text kws Hpos) as (kw & Hkw & Hocc).
  exists kws, kw. repeat split; try assumption.
  unfold text in Hocc. now rewrite lower_idem in Hocc.
Qed.

Lemma classify_category_has_keyword_witness :
  exists kws kw,
    In (classify_category "MSc Statistics" None, kws) MAJOR_KEYWORDS
    /\ In kw kws
    /\ contains (lower ("MSc Statistics" ++ " " ++ or_empty None)) (lower kw) = true.
Proof.
  apply classify_category_has_keyword. vm_compute. discriminate.
Defined.

(** X14: the classifier ignores the case of ASCII letters in the name and
    in the requirements. *)
Theorem classify_category_ignores_case (program_name : string) (requirements : option string) :
  classify_category (lower program_name) (option_map lower requirements)
  = classify_category program_name requirements.
Proof.
  unfold classify_category, classify_with.
  assert (H : lower (lower program_name ++ " " ++ or_empty (option_map lower requirements))
              = lower (program_name ++ " " ++ or_empty requirements)).
  { rewrite !lower_append, lower_idem. f_equal. f_equal.
    destruct requirements; simpl; [apply lower_idem|reflexivity]. }
  now rewrite H.
Qed.

End ClassifierMore.

(** ** run_pipeline.py: the query *)

From Stdlib Require Sorted Permutation.

Module SelectMore.

Import Stdlib.Sorting.Sorted Stdlib.Sorting.Permutation.
Import RunPipelineFacts.

Local Open Scope Z_scope.

Definition id_le (a b : row) : Prop := row_id a <= row_id b.

Lemma insert_by_id_perm r l : Permutation (insert_by_id r l) (r :: l).
Proof.
  induction l as [|x l IH]; simpl; [apply Permutation_refl|].
  destruct (row_id r <? row_id x); [apply Permutation_refl|].
  eapply perm_trans; [apply perm_skip, IH|apply perm_swap].
Qed.

Lemma order_by_id_perm l : Permutation (order_by_id l) l.
Proof.
  induction l as [|r l IH]; simpl; [apply perm_nil|].
  eapply perm_trans; [apply insert_by_id_perm|now apply perm_skip].
Qed.

Lemma insert_by_id_sorted r l :
  StronglySorted id_le l -> StronglySorted id_le (insert_by_id r l).
Proof.
  induction l as [|x l IH]; intros Hs; simpl.
  - constructor; constructor.
  - inversion Hs as [|? ? Hl Hx]; subst.
    destruct (Z.ltb_spec (row_id r) (row_id x)) as [Hlt|Hge].
    + constructor; [exact Hs|]. constructor; [unfold id_le; lia|].
      rewrite Forall_forall in *. intros y Hy. specialize (Hx y Hy). unfold id_le in *. lia.
    + constructor; [now apply IH|].
      rewrite Forall_forall in *. intros y Hy.
      apply insert_by_id_In in Hy. destruct Hy as [->|Hy]; [exact Hge|now apply Hx].
Qed.

Lemma order_by_id_sorted l : StronglySorted id_le (order_by_id l).
Proof.
  induction l as [|r l IH]; simpl; [constructor|]. now apply insert_by_id_sorted.
Qed.

(** X15: the rows a loop works on come in ascending order of their ids,
    and they are the rows of the table that pass the two filters of the
    query, each as often as the table holds it. *)
Theorem select_sorted_permutation (o : options) (t : table) (d : database) :
  StronglySorted id_le (select o t d)
  /\ Permutation (select o t d) (filter (selected o t) (rows_of d t)).
Proof.
  unfold select. split; [apply order_by_id_sorted|apply order_by_id_perm].
Qed.

(** X16: a row is selected exactly when it is a row of the table, it has
    no canonical id if the run is restricted to unmatched rows, and its id
    lies beyond the resume id if the run resumes in this table.  A resume
    id 0 counts as no resume id, and a resume id for another table does not
    restrict this one. *)
Theorem select_membership (o : options) (t : table) (d : database) (r : row) :
  In r (select o t d)
  <-> In r (rows_of d t)
      /\ (only_unmatched o = true -> canonical_program_id r = None)
      /\ (forall i, resume_from_table o = Some t -> resume_from_id o = Some i ->
                    i <> 0 -> i < row_id r).
Proof.
  rewrite select_In. unfold selected.
  split.
  - intros [Hin Hsel]. apply andb_true_iff in Hsel. destruct Hsel as [Hnull Hres].
    split; [exact Hin|]. split.
    + intros Ho. rewrite Ho in Hnull. now destruct (canonical_program_id r).
    + intros i Ht Hi Hi0. rewrite Ht, Hi in Hres.
      assert (Et : table_eqb t t = true) by now apply table_eqb_eq.
      rewrite Et in Hres. simpl in Hres.
      apply Z.eqb_neq in Hi0. rewrite Hi0 in Hres. simpl in Hres. now apply Z.ltb_lt.
  - intros (Hin & Hnull & Hres). split; [exact Hin|]. apply andb_true_iff. split.
    + destruct (only_unmatched o); [|reflexivity]. now rewrite Hnull.
    + destruct (resume_from_table o) as [t'|]; [|reflexivity].
      destruct (resume_from_id o) as [i|]; [|reflexivity].
      destruct (table_eqb t' t) eqn:Et; [|reflexivity].
      apply table_eqb_eq in Et. subst t'. simpl.
      destruct (Z.eqb_spec i 0) as [->|Hi0]; [reflexivity|]. simpl.
      apply Z.ltb_lt. now apply Hres.
Qed.

End SelectMore.

(** ** run_pipeline.py: what a run does to the tables *)

Module TablesMore.

Import CanonicalMapperFacts RunPipelineFacts.

Local Open Scope Z_scope.

Lemma map_to_canonical_In partial_ratio chat_completion program_name l i :
  map_to_canonical partial_ratio chat_completion program_name l = Some i ->
  exists c, In c l /\ cp_id c = i.
Proof.
  destruct program_name as [|a s]; [discriminate|].
  destruct l as [|c0 l0]; [discriminate|].
  rewrite map_to_canonical_unfold by discriminate. cbv zeta.
  repeat match goal with
         | |- context [match first_accepted ?P ?l with _ => _ end] =>
             let E := fresh "E" in
             destruct (first_accepted P l) eqn:E;
             [intros [= <-];
              destruct (first_accepted_inv _ _ _ E) as (c & (b & a' & -> & _) & Hid);
              exists c; split; [apply in_elt|exact Hid]|]
         end.
  intros Elast.
  destruct (first_accepted_inv _ _ _ Elast) as (c & (b & a' & -> & _) & Hid).
  exists c. split; [apply in_elt|exact Hid].
Qed.

(** How a row [r'] after a loop over the rows [rs] of table [t] relates to
    the row [r] that stood in its place before. *)
Definition changed_by (cat : list canonical_program) (t : table) (rs : list row)
  (r r' : row) : Prop :=
  row_id r' = row_id r
  /\ raw_name r' = raw_name r
  /\ requirements r' = requirements r
  /\ (t <> programs -> category r' = category r)
  /\ (canonical_program_id r' = canonical_program_id r
      \/ exists c, In c cat /\ cp_id c <> 0 /\ canonical_program_id r' = Some (cp_id c))
  /\ (r' = r \/ exists q, In q rs /\ row_id q = row_id r).

Lemma changed_by_refl cat t rs r : changed_by cat t rs r r.
Proof. unfold changed_by. tauto. Qed.

Lemma changed_by_trans cat t q rs r1 r2 r3 :
  changed_by cat t [q] r1 r2 -> changed_by cat t rs r2 r3 ->
  changed_by cat t (q :: rs) r1 r3.
Proof.
  intros (I1 & N1 & Q1 & C1 & D1 & T1) (I2 & N2 & Q2 & C2 & D2 & T2).
  unfold changed_by. repeat split; try congruence.
  - intros Ht. rewrite C2, C1; auto.
  - destruct D2 as [D2|D2]; [|now right]. rewrite D2. exact D1.
  - destruct T2 as [->|(q' & Hq' & Hid)].
    + destruct T1 as [->|(q' & [<-|[]] & Hid)]; [now left|].
      right. exists q. split; [now left|exact Hid].
    + right. exists q'. split; [now right|congruence].
Qed.

Lemma Forall2_same {A} (R : A -> A -> Prop) l : (forall a, R a a) -> Forall2 R l l.
Proof. intros H. induction l; constructor; auto. Qed.

Lemma Forall2_map_r {A} (R : A -> A -> Prop) (f : A -> A) l :
  (forall a, R a (f a)) -> Forall2 R l (map f l).
Proof. intros H. induction l; simpl; constructor; auto. Qed.

Lemma Forall2_compose {A} (R1 R2 R3 : A -> A -> Prop) l1 l2 l3 :
  (forall a b c, R1 a b -> R2 b c -> R3 a c) ->
  Forall2 R1 l1 l2 -> Forall2 R2 l2 l3 -> Forall2 R3 l1 l3.
Proof.
  intros H H1. revert l3. induction H1; intros l3 H2; inversion H2; subst; constructor; eauto.
Qed.

Lemma Forall2_weaken {A} (R1 R2 : A -> A -> Prop) l1 l2 :
  (forall a b, R1 a b -> R2 a b) -> Forall2 R1 l1 l2 -> Forall2 R2 l1 l2.
Proof. intros H H1. induction H1; constructor; auto. Qed.

(** The tables before and after: table [t] row by row, the others
    untouched. *)
Definition tables_changed_by (cat : list canonical_program) (t : table) (rs : list row)
  (d d' : database) : Prop :=
  Forall2 (changed_by cat t rs) (rows_of d t) (rows_of d' t)
  /\ forall t', t' <> t -> rows_of d' t' = rows_of d t'.

Lemma tables_changed_by_refl cat t rs d : tables_changed_by cat t rs d d.
Proof.
  split; [apply Forall2_same, changed_by_refl|reflexivity].
Qed.

Lemma tables_changed_by_step cat t q rs d1 d2 d3 :
  tables_changed_by cat t [q] d1 d2 -> tables_changed_by cat t rs d2 d3 ->
  tables_changed_by cat t (q :: rs) d1 d3.
Proof.
  intros [F1 O1] [F2 O2]. split.
  - eapply Forall2_compose; [|exact F1|exact F2]. intros a b c. apply changed_by_trans.
  - intros t' Ht. rewrite O2, O1; auto.
Qed.

(** One write for the row [q]. *)
Lemma update_changed_by cat t q u d :
  (t <> programs -> upd_category u = None) ->
  (forall i, upd_canonical_program_id u = Some i ->
             exists c, In c cat /\ cp_id c <> 0 /\ cp_id c = i) ->
  tables_changed_by cat t [q] d (update_where_id t (row_id q) u d).
Proof.
  intros Hcat Hcid. split.
  - rewrite rows_of_update. apply Forall2_map_r. intros r.
    destruct (Z.eqb_spec (row_id r) (row_id q)) as [Heq|Hne]; [|apply changed_by_refl].
    unfold changed_by, apply_update. simpl. repeat split.
    + intros Ht. now rewrite (Hcat Ht).
    + destruct (upd_canonical_program_id u) as [i|] eqn:E; [|now left].
      right. destruct (Hcid i eq_refl) as (c & Hc & Hc0 & <-). now exists c.
    + right. exists q. split; [now left|congruence].
  - intros t' Ht. now apply rows_of_update_other.
Qed.

Section Loops.

Variable partial_ratio : string -> string -> Q.
Variable chat_completion : string -> option string.
Variable env : environment.

Lemma truthy_cid_in_catalog name cat i :
  map_to_canonical partial_ratio chat_completion name cat = Some i ->
  truthy_id (Some i) = true ->
  exists c, In c cat /\ cp_id c <> 0 /\ cp_id c = i.
Proof.
  intros Hmap Htruthy. destruct (map_to_canonical_In _ _ _ _ _ Hmap) as (c & Hc & Hid).
  exists c. repeat split; try assumption. subst i. simpl in Htruthy.
  now apply Z.eqb_neq, negb_true_iff.
Qed.

(** The loop over [programs], however it ends. *)
Lemma programs_loop_tables cat rs n w :
  tables_changed_by cat programs rs (db w)
    (db (snd (programs_loop partial_ratio chat_completion env cat rs n w))).
Proof.
  revert n w. induction rs as [|p rs IH]; intros n w; simpl.
  - apply tables_changed_by_refl.
  - destruct (signal_at env programs (row_id p)); simpl; try apply tables_changed_by_refl.
    unfold attempt_update.
    destruct (write_raises env programs (row_id p)); simpl.
    + eapply tables_changed_by_step; [|apply IH]. simpl. apply tables_changed_by_refl.
    + eapply tables_changed_by_step; [|apply IH].
      refine (update_changed_by cat programs p
                (program_update partial_ratio chat_completion cat p) (db w) _ _);
        [congruence|].
      unfold program_update. simpl.
      destruct (map_to_canonical _ _ _ _) as [i|] eqn:E; simpl; [|discriminate].
      destruct (negb (i =? 0)) eqn:T; [|discriminate].
      intros j [= <-]. now apply (truthy_cid_in_catalog _ _ _ E).
Qed.

(** The loops over [ic_program_stats] and [cases], however they end. *)
Lemma filtered_loop_tables t cat rs n w :
  t <> programs ->
  tables_changed_by cat t rs (db w)
    (db (snd (filtered_loop partial_ratio chat_completion env t cat rs n w))).
Proof.
  intros Ht. revert n w. induction rs as [|s rs IH]; intros n w; simpl.
  - apply tables_changed_by_refl.
  - destruct (signal_at env t (row_id s)); simpl; try apply tables_changed_by_refl.
    destruct (skipped (or_empty (raw_name s))).
    { eapply tables_changed_by_step; [|apply IH]. simpl. apply tables_changed_by_refl. }
    destruct (truthy_id (map_to_canonical _ _ _ _)) eqn:T.
    2:{ eapply tables_changed_by_step; [|apply IH]. simpl. apply tables_changed_by_refl. }
    unfold attempt_update.
    destruct (write_raises env t (row_id s)); simpl.
    + eapply tables_changed_by_step; [|apply IH]. simpl. apply tables_changed_by_refl.
    + eapply tables_changed_by_step; [|apply IH].
      refine (update_changed_by cat t s
                (match_update partial_ratio chat_completion cat s) (db w) _ _);
        [reflexivity|].
      unfold match_update. simpl.
      intros i E. rewrite E in T. now apply (truthy_cid_in_catalog _ _ _ E).
Qed.

End Loops.

(** *** Whole runs *)

(** The catalog a run works with, if it gets one. *)
Definition catalog_of (env : environment) : list canonical_program :=
  match load_catalog env with
  | CatalogData canonical_data => canonical_data
  | _ => []
  end.

(** The rows of table [t] that the query of a run with options [o] can
    return. *)
Definition candidates (o : options) (t : table) (d : database) : list row :=
  filter (selected o t) (rows_of d t).

Lemma changed_by_incl cat t rs rs' r r' :
  incl rs rs' -> changed_by cat t rs r r' -> changed_by cat t rs' r r'.
Proof.
  intros Hincl (I & N & Q & C & D & T). unfold changed_by. repeat split; try assumption.
  destruct T as [T|(q & Hq & Hid)]; [now left|]. right. exists q. split; [now apply Hincl|exact Hid].
Qed.

(** Every table of [d'] comes from the table of [d] by the changes a run
    makes. *)
Definition run_changed (cat : list canonical_program) (o : options) (d d' : database) : Prop :=
  forall t, Forall2 (changed_by cat t (candidates o t d)) (rows_of d t) (rows_of d' t).

Lemma run_changed_refl cat o d : run_changed cat o d d.
Proof. intros t. apply Forall2_same, changed_by_refl. Qed.

Lemma run_changed_step cat o d d1 d2 t rs :
  run_changed cat o d d1 ->
  rows_of d1 t = rows_of d t ->
  incl rs (candidates o t d1) ->
  tables_changed_by cat t rs d1 d2 ->
  run_changed cat o d d2.
Proof.
  intros H1 Hsame Hincl [F O] t'.
  destruct (table_eqb t' t) eqn:E.
  - apply table_eqb_eq in E. subst t'. rewrite <- Hsame.
    eapply Forall2_weaken; [|exact F]. intros a b. apply changed_by_incl.
    unfold candidates in *. now rewrite <- Hsame.
  - assert (Hne : t' <> t) by (intros ->; destruct t; discriminate).
    rewrite (O t' Hne). apply H1.
Qed.

Section Runs.

Variable partial_ratio : string -> string -> Q.
Variable chat_completion : string -> option string.

Lemma fetched_candidates env o t d : incl (fetched env o t d) (candidates o t d).
Proof.
  unfold fetched, candidates. destruct (read_raises env t); [intros x []|].
  intros x Hx. apply select_In in Hx. now apply filter_In.
Qed.

(** The tables after a run, whatever its outcome. *)
Lemma run_pipeline_tables env o w :
  run_changed (catalog_of env) o (db w)
    (db (snd (run_pipeline partial_ratio chat_completion env o w))).
Proof.
  unfold run_pipeline, catalog_of, failed. cbv zeta.
  destruct (is_running (st w)); [apply run_changed_refl|].
  destruct (load_catalog env) as [| |cat]; try apply run_changed_refl.
  destruct cat as [|c cat]; [apply run_changed_refl|].
  set (canonical_data := c :: cat).
  destruct (join_raises (sample_names canonical_data)); [apply run_changed_refl|].
  query F1 data1 wf1. destruct data1 as [rs1|].
  2:{ apply fetch_none in F1. destruct F1 as [-> _]. apply run_changed_refl. }
  apply fetch_some in F1. destruct F1 as (-> & -> & _).
  match goal with |- context [programs_loop ?a ?b ?e ?c0 ?rs ?n ?w0] =>
    pose proof (programs_loop_tables a b e c0 rs n w0) as T1;
    destruct (programs_loop a b e c0 rs n w0) as [[h1 n1] w1] end.
  cbn [snd db log with_state] in T1.
  assert (R1 : run_changed canonical_data o (db w) (db w1)).
  { eapply run_changed_step;
      [apply run_changed_refl|reflexivity|apply fetched_candidates|exact T1]. }
  destruct h1; [exact R1|].
  query F2 data2 wf2. destruct data2 as [rs2|].
  2:{ apply fetch_none in F2. destruct F2 as [-> _]. exact R1. }
  apply fetch_some in F2. destruct F2 as (-> & -> & _).
  match goal with |- context [filtered_loop ?a ?b ?e ?t ?c0 ?rs ?n ?w0] =>
    pose proof (filtered_loop_tables a b e t c0 rs n w0 ltac:(discriminate)) as T2;
    destruct (filtered_loop a b e t c0 rs n w0) as [[h2 n2] w2] end.
  cbn [snd db log with_state] in T2.
  assert (R2 : run_changed canonical_data o (db w) (db w2)).
  { eapply run_changed_step; [exact R1| |apply fetched_candidates|exact T2].
    destruct T1 as [_ O1]. apply O1. discriminate. }
  destruct h2; [exact R2|].
  query F3 data3 wf3. destruct data3 as [rs3|].
  2:{ apply fetch_none in F3. destruct F3 as [-> _]. exact R2. }
  apply fetch_some in F3. destruct F3 as (-> & -> & _).
  match goal with |- context [filtered_loop ?a ?b ?e ?t ?c0 ?rs ?n ?w0] =>
    pose proof (filtered_loop_tables a b e t c0 rs n w0 ltac:(discriminate)) as T3;
    destruct (filtered_loop a b e t c0 rs n w0) as [[h3 n3] w3] end.
  cbn [snd db log with_state] in T3.
  assert (R3 : run_changed canonical_data o (db w) (db w3)).
  { eapply run_changed_step; [exact R2| |apply fetched_candidates|exact T3].
    destruct T1 as [_ O1]. destruct T2 as [_ O2].
    rewrite O2 by discriminate. apply O1. discriminate. }
  destruct h3; exact R3.
Qed.

(** X17: whatever its outcome, a run leaves every table with the same
    rows in the same places: ids, names and requirements are as before, the
    categories of [ic_program_stats] and [cases] are as before, and a row
    that had a canonical id still has one. *)
Theorem run_keeps_rows (env : environment) (o : options) (w : world) (t : table) :
  Forall2
    (fun r r' =>
       row_id r' = row_id r
       /\ raw_name r' = raw_name r
       /\ requirements r' = requirements r
       /\ (t <> programs -> category r' = category r)
       /\ (canonical_program_id r <> None -> canonical_program_id r' <> None))
    (rows_of (db w) t)
    (rows_of (db (snd (run_pipeline partial_ratio chat_completion env o w))) t).
Proof.
  eapply Forall2_weaken; [|apply (run_pipeline_tables env o w t)].
  intros r r' (I & N & Q & C & D & _). repeat split; try assumption.
  intros Hr. destruct D as [D|(c & _ & _ & D)]; rewrite D; [exact Hr|discriminate].
Qed.

(** X18: a canonical id that stands in a row after a run is the one that
    stood there before, or it is the id of an entry of the catalog the run
    loaded and different from 0: an entry with id 0 is never assigned. *)
Theorem run_writes_catalog_ids (env : environment) (o : options) (w : world) (t : table) :
  Forall2
    (fun r r' =>
       canonical_program_id r' = canonical_program_id r
       \/ exists c, In c (catalog_of env) /\ cp_id c <> 0
                    /\ canonical_program_id r' = Some (cp_id c))
    (rows_of (db w) t)
    (rows_of (db (snd (run_pipeline partial_ratio chat_completion env o w))) t).
Proof.
  eapply Forall2_weaken; [|apply (run_pipeline_tables env o w t)].
  intros r r' (_ & _ & _ & _ & D & _). exact D.
Qed.

Lemma Forall2_weaken_In {A} (R1 R2 : A -> A -> Prop) l1 l2 :
  (forall a b, In a l1 -> R1 a b -> R2 a b) -> Forall2 R1 l1 l2 -> Forall2 R2 l1 l2.
Proof.
  intros H H1. induction H1; constructor.
  - apply H; [now left|assumption].
  - apply IHForall2. intros a b Ha. apply H. now right.
Qed.

Lemma NoDup_map_inj {A B} (f : A -> B) l a b :
  NoDup (map f l) -> In a l -> In b l -> f a = f b -> a = b.
Proof.
  induction l as [|x l IH]; simpl; [intros _ []|].
  intros Hnd Ha Hb Hf. inversion Hnd as [|? ? Hx Hl]; subst.
  destruct Ha as [->|Ha], Hb as [->|Hb]; try reflexivity.
  - elim Hx. rewrite Hf. now apply in_map.
  - elim Hx. rewrite <- Hf. now apply in_map.
  - now apply IH.
Qed.

(** X19: in a run restricted to unmatched rows, over a table whose ids
    are unique, a row that has a canonical id is left exactly as it is,
    category included. *)
Theorem matched_rows_untouched (env : environment) (o : options) (w : world) (t : table) :
  only_unmatched o = true ->
  NoDup (map row_id (rows_of (db w) t)) ->
  Forall2
    (fun r r' => canonical_program_id r <> None -> r' = r)
    (rows_of (db w) t)
    (rows_of (db (snd (run_pipeline partial_ratio chat_completion env o w))) t).
Proof.
  intros Honly Hnd.
  eapply Forall2_weaken_In; [|apply (run_pipeline_tables env o w t)].
  intros r r' Hr (_ & _ & _ & _ & _ & T) Hcid.
  destruct T as [T|(q & Hq & Hid)]; [exact T|].
  unfold candidates in Hq. apply filter_In in Hq. destruct Hq as [Hq Hsel].
  assert (q = r) by (eapply NoDup_map_inj; eauto). subst q.
  unfold selected in Hsel. rewrite Honly in Hsel. apply andb_true_iff in Hsel.
  destruct Hsel as [Hnull _]. destruct (canonical_program_id r); [discriminate|congruence].
Qed.

End Runs.

Lemma matched_rows_untouched_witness :
  Forall2
    (fun r r' => canonical_program_id r <> None -> r' = r)
    (rows_of (db (fresh CheckpointFacts.programs_done_stats_open)) ic_program_stats)
    (rows_of (db (snd (run_pipeline sample_partial_ratio sample_chat_completion sample_env
                         defaults (fresh CheckpointFacts.programs_done_stats_open))))
             ic_program_stats).
Proof.
  apply matched_rows_untouched; [reflexivity|].
  simpl. repeat (constructor; [simpl; intuition discriminate|]). constructor.
Defined.

End TablesMore.

(** ** run_pipeline.py: progress, failures, order of work *)

Module RunsMore.

Import CanonicalMapperFacts RunPipelineFacts.

Local Open Scope Z_scope.

Lemma table_eqb_refl t : table_eqb t t = true.
Proof. now destruct t. Qed.

Lemma table_eqb_neq t t' : t' <> t -> table_eqb t' t = false.
Proof. destruct t, t'; simpl; congruence. Qed.

(** What a loop over table [t] leaves of the state it found: the flag, the
    current table and the totals as they were, the counters of the other
    tables as they were. *)
Definition state_kept (t : table) (s s' : pipeline_state) : Prop :=
  is_running s' = is_running s
  /\ current_table s' = current_table s
  /\ (forall t', total s' t' = total s t')
  /\ (forall t', t' <> t -> processed s' t' = processed s t').

Lemma state_kept_refl t s : state_kept t s s.
Proof. unfold state_kept. tauto. Qed.

Lemma state_kept_count t rid s s' :
  state_kept t (count_record t rid s) s' -> state_kept t s s'.
Proof.
  intros (R & C & T & P). unfold state_kept. repeat split; try assumption.
  intros t' Ht. rewrite (P t' Ht). simpl. unfold set_count. now rewrite table_eqb_neq.
Qed.

(** Events that are work on table [t]. *)
Definition works_on (t : table) (e : event) : Prop :=
  match e with
  | EvMatch t' _ _ => t' = t
  | EvUpdate t' _ _ => t' = t
  | EvClassify _ => t = programs
  | EvSelect _ => False
  | EvLoadCatalog => False
  end.

Section Loops.

Variable partial_ratio : string -> string -> Q.
Variable chat_completion : string -> option string.
Variable env : environment.

Lemma programs_loop_state cat rs n w :
  state_kept programs (st w)
    (st (snd (programs_loop partial_ratio chat_completion env cat rs n w)))
  /\ (fst (fst (programs_loop partial_ratio chat_completion env cat rs n w)) = None ->
      processed (st (snd (programs_loop partial_ratio chat_completion env cat rs n w))) programs
      = (processed (st w) programs + List.length rs)%nat)
  /\ extends (works_on programs) w
       (snd (programs_loop partial_ratio chat_completion env cat rs n w)).
Proof.
  revert n w. induction rs as [|p rs IH]; intros n w; simpl.
  - split; [apply state_kept_refl|]. split; [intros _; lia|apply extends_refl].
  - destruct (signal_at env programs (row_id p)); simpl;
      try (split; [apply state_kept_refl|]; split; [discriminate|apply extends_refl]).
    unfold attempt_update.
    destruct (write_raises env programs (row_id p)); simpl;
      match goal with |- context [programs_loop _ _ _ cat rs ?m ?w0] =>
        destruct (IH m w0) as (K & P & E) end;
      (split; [apply (state_kept_count programs (row_id p)); exact K|]);
      (split;
       [intros H; rewrite (P H); simpl; unfold set_count; rewrite ?table_eqb_refl; simpl; lia|]);
      (eapply extends_trans; [|exact E]).
    + apply extends_log_r; [reflexivity|]. apply extends_log_r; [reflexivity|].
      apply extends_log_r; [reflexivity|]. apply extends_with_state.
    + eapply extends_trans; [|apply extends_with_db].
      apply extends_log_r; [reflexivity|]. apply extends_log_r; [reflexivity|].
      apply extends_log_r; [reflexivity|]. apply extends_with_state.
Qed.

Lemma filtered_loop_state t cat rs n w :
  t <> programs ->
  state_kept t (st w)
    (st (snd (filtered_loop partial_ratio chat_completion env t cat rs n w)))
  /\ (fst (fst (filtered_loop partial_ratio chat_completion env t cat rs n w)) = None ->
      processed (st (snd (filtered_loop partial_ratio chat_completion env t cat rs n w))) t
      = (processed (st w) t + List.length rs)%nat)
  /\ extends (works_on t) w
       (snd (filtered_loop partial_ratio chat_completion env t cat rs n w)).
Proof.
  intros Ht. revert n w. induction rs as [|s rs IH]; intros n w; simpl.
  - split; [apply state_kept_refl|]. split; [intros _; lia|apply extends_refl].
  - destruct (signal_at env t (row_id s)); simpl;
      try (split; [apply state_kept_refl|]; split; [discriminate|apply extends_refl]).
    assert (Step : forall m w0,
               st w0 = count_record t (row_id s) (st w) ->
               extends (works_on t) w w0 ->
               state_kept t (st w)
                 (st (snd (filtered_loop partial_ratio chat_completion env t cat rs m w0)))
               /\ (fst (fst (filtered_loop partial_ratio chat_completion env t cat rs m w0))
                   = None ->
                   processed
                     (st (snd (filtered_loop partial_ratio chat_completion env t cat rs m w0))) t
                   = (processed (st w) t + S (List.length rs))%nat)
               /\ extends (works_on t) w
                    (snd (filtered_loop partial_ratio chat_completion env t cat rs m w0))).
    { intros m w0 Hst Hext. destruct (IH m w0) as (K & P & E). rewrite Hst in K, P.
      split; [apply (state_kept_count t (row_id s)); exact K|].
      split; [|eapply extends_trans; eassumption].
      intros H. rewrite (P H). simpl. unfold set_count. rewrite table_eqb_refl. lia. }
    destruct (skipped (or_empty (raw_name s))).
    { apply Step; [reflexivity|apply extends_with_state]. }
    destruct (truthy_id _).
    2:{ apply Step; [reflexivity|].
        apply extends_log_r; [reflexivity|apply extends_with_state]. }
    unfold attempt_update.
    destruct (write_raises env t (row_id s)); simpl; apply Step; try reflexivity.
    + apply extends_log_r; [reflexivity|].
      apply extends_log_r; [reflexivity|apply extends_with_state].
    + eapply extends_trans; [|apply extends_with_db].
      apply extends_log_r; [reflexivity|].
      apply extends_log_r; [reflexivity|apply extends_with_state].
Qed.

End Loops.

(** *** Whole runs *)

(** The counters and pointers agree with a finished run. *)
Definition accounted (r : result) (s : pipeline_state) : Prop :=
  (forall t, processed s t = total s t)
  /\ (programs_updated r <= total s programs)%nat
  /\ (stats_updated r <= total s ic_program_stats)%nat
  /\ (cases_updated r <= total s cases)%nat
  /\ current_table s = None
  /\ last_processed_id s = None.

(** The new events of a finished run: the catalog, then the three tables
    one after the other, each with its query first and its work behind
    it. *)
Definition in_order (w w' : world) : Prop :=
  exists e1 e2 e3,
    trace w' = trace w ++ [EvLoadCatalog; EvSelect programs] ++ e1
                 ++ [EvSelect ic_program_stats] ++ e2
                 ++ [EvSelect cases] ++ e3
    /\ Forall (works_on programs) e1
    /\ Forall (works_on ic_program_stats) e2
    /\ Forall (works_on cases) e3.

Section Runs.

Variable partial_ratio : string -> string -> Q.
Variable chat_completion : string -> option string.

Lemma run_anatomy env o w :
  is_running (st w) = false ->
  match run_pipeline partial_ratio chat_completion env o w with
  | (Returned r, w') =>
      is_running (st w') = false
      /\ (res_status r = StatusOk -> accounted r (st w') /\ in_order w w')
  | (Hangs _, w') => is_running (st w') = true
  end.
Proof.
  intros Hrun. unfold run_pipeline, failed. cbv zeta. rewrite Hrun.
  destruct (load_catalog env) as [| |cat]; try (split; [reflexivity|discriminate]).
  destruct cat as [|c cat]; [split; [reflexivity|discriminate]|].
  destruct (join_raises (sample_names (c :: cat))); [split; [reflexivity|discriminate]|].
  query F1 data1 wf1. destruct data1 as [rs1|]; [|split; [reflexivity|discriminate]].
  apply fetch_some in F1. destruct F1 as (_ & -> & _).
  match goal with |- context [programs_loop ?a ?b ?e ?c0 ?rs ?n ?w0] =>
    pose proof (programs_loop_state a b e c0 rs n w0) as (K1 & P1 & E1);
    pose proof (programs_loop_result a b e c0 rs n w0) as N1;
    destruct (programs_loop a b e c0 rs n w0) as [[h1 n1] w1] end.
  cbn [fst snd] in K1, P1, E1.
  destruct K1 as (R1 & C1 & T1 & O1). cbn [st with_state log] in R1, C1, T1, O1, P1.
  simpl in R1. destruct h1; [exact R1|].
  specialize (N1 n1 w1 eq_refl). destruct N1 as [_ N1]. specialize (P1 eq_refl).
  query F2 data2 wf2. destruct data2 as [rs2|]; [|split; [reflexivity|discriminate]].
  apply fetch_some in F2. destruct F2 as (_ & -> & _).
  match goal with |- context [filtered_loop ?a ?b ?e ?t ?c0 ?rs ?n ?w0] =>
    pose proof (filtered_loop_state a b e t c0 rs n w0 ltac:(discriminate)) as (K2 & P2 & E2);
    pose proof (filtered_loop_result a b e t c0 rs n w0) as N2;
    destruct (filtered_loop a b e t c0 rs n w0) as [[h2 n2] w2] end.
  cbn [fst snd] in K2, P2, E2.
  destruct K2 as (R2 & C2 & T2 & O2). cbn [st with_state log] in R2, C2, T2, O2, P2.
  simpl in R2. destruct h2; [simpl; congruence|].
  specialize (N2 n2 w2 eq_refl). destruct N2 as [_ N2]. specialize (P2 eq_refl).
  query F3 data3 wf3. destruct data3 as [rs3|]; [|split; [reflexivity|discriminate]].
  apply fetch_some in F3. destruct F3 as (_ & -> & _).
  match goal with |- context [filtered_loop ?a ?b ?e ?t ?c0 ?rs ?n ?w0] =>
    pose proof (filtered_loop_state a b e t c0 rs n w0 ltac:(discriminate)) as (K3 & P3 & E3);
    pose proof (filtered_loop_result a b e t c0 rs n w0) as N3;
    destruct (filtered_loop a b e t c0 rs n w0) as [[h3 n3] w3] end.
  cbn [fst snd] in K3, P3, E3.
  destruct K3 as (R3 & C3 & T3 & O3). cbn [st with_state log] in R3, C3, T3, O3, P3.
  simpl in R3. destruct h3; [simpl; congruence|].
  specialize (N3 n3 w3 eq_refl). destruct N3 as [_ N3]. specialize (P3 eq_refl).
  split; [reflexivity|]. intros _. split.
  - unfold accounted. cbn [st with_state programs_updated stats_updated cases_updated].
    cbn [set_is_running set_current_table set_last_processed_id
         processed total current_table last_processed_id].
    simpl in T1, T2, T3, O1, O2, O3, P1, P2, P3. unfold set_count in *.
    assert (Tp : total (st w3) programs = List.length rs1).
    { rewrite T3. simpl. rewrite T2. simpl. rewrite T1. reflexivity. }
    assert (Ts : total (st w3) ic_program_stats = List.length rs2).
    { rewrite T3. simpl. rewrite T2. reflexivity. }
    assert (Tc : total (st w3) cases = List.length rs3).
    { rewrite T3. reflexivity. }
    assert (Pp : processed (st w3) programs = List.length rs1).
    { rewrite O3 by discriminate. simpl. rewrite O2 by discriminate. simpl.
      rewrite P1. reflexivity. }
    assert (Ps : processed (st w3) ic_program_stats = List.length rs2).
    { rewrite O3 by discriminate. simpl. rewrite P2. reflexivity. }
    assert (Pc : processed (st w3) cases = List.length rs3).
    { rewrite P3. reflexivity. }
    repeat split; try reflexivity.
    + intros t. destruct t; congruence.
    + rewrite Tp, N1. apply filter_length_le.
    + rewrite Ts, N2. apply filter_length_le.
    + rewrite Tc, N3. apply filter_length_le.
  - destruct E1 as (e1 & X1 & F1). destruct E2 as (e2 & X2 & F2).
    destruct E3 as (e3 & X3 & F3). cbn [trace with_state log] in X1, X2, X3.
    exists e1, e2, e3. repeat split; try assumption.
    cbn [trace with_state]. rewrite X3, X2, X1.
    rewrite <- !app_assoc. reflexivity.
Qed.



(** X22: a run that returns "ok" has worked strictly in this order: the
    catalog query, the query on [programs] and then work on [programs]
    only, the query on [ic_program_stats] and then work on that table only,
    the query on [cases] and then work on that table only. *)
Theorem run_ok_in_order (env : environment) (o : options) (w : world)
  (r : result) (w' : world) :
  run_pipeline partial_ratio chat_completion env o w = (Returned r, w') ->
  res_status r = StatusOk ->
  exists e1 e2 e3,
    trace w' = trace w ++ [EvLoadCatalog; EvSelect programs] ++ e1
                 ++ [EvSelect ic_program_stats] ++ e2
                 ++ [EvSelect cases] ++ e3
    /\ Forall (works_on programs) e1
    /\ Forall (works_on ic_program_stats) e2
    /\ Forall (works_on cases) e3.
Proof.
  intros Hrun Hok.
  destruct (is_running (st w)) eqn:Hbusy.
  { unfold run_pipeline in Hrun. rewrite Hbusy in Hrun. injection Hrun as <- _.
    discriminate Hok. }
  pose proof (run_anatomy env o w Hbusy) as A. rewrite Hrun in A.
  destruct A as (_ & A). destruct (A Hok) as (_ & H). exact H.
Qed.

(** The count of updates a result reports for a table. *)
Definition updated_of (r : result) (t : table) : nat :=
  match t with
  | programs => programs_updated r
  | ic_program_stats => stats_updated r
  | cases => cases_updated r
  end.

(** X23: a read of a source table that raises does not end the run.  Take
    an accepted, undisturbed run with a catalog whose first rows have
    names (so that the line that logs them does not raise) and in which
    the other queries raise or reply with data (a reply without data ends
    the run in the closing [except]): it returns "ok", reports no update
    for that table and leaves the table as it was. *)
Theorem run_survives_read_failure (env : environment) (o : options) (w : world)
  (cat : list canonical_program) (t : table) :
  is_running (st w) = false ->
  load_catalog env = CatalogData cat -> cat <> [] ->
  join_raises (sample_names cat) = false ->
  (forall t', t' <> t -> answers env t') ->
  read_raises env t = true ->
  exists r w',
    run_pipeline partial_ratio chat_completion (undisturbed env) o w = (Returned r, w')
    /\ res_status r = StatusOk
    /\ updated_of r t = 0%nat
    /\ rows_of (db w') t = rows_of (db w) t.
Proof.
  intros Hrun Hcat Hne Hjoin Hothers Hread.
  assert (Hans : forall t', answers env t').
  { intros t'. destruct (table_eqb t' t) eqn:E.
    - apply table_eqb_eq in E. subst t'. now left.
    - apply Hothers. intros ->. now rewrite table_eqb_refl in E. }
  destruct (run_pipeline_undisturbed partial_ratio chat_completion env o w cat
              Hrun Hcat Hne Hjoin Hans)
    as (r & w' & E & Hok).
  exists r, w'. split; [exact E|]. split; [exact Hok|].
  destruct (run_pipeline_ok _ _ _ _ _ _ _ E Hok)
    as (_ & _ & cat' & _ & _ & Hdb & Hp & Hs & Hc).
  clear Hans Hothers.
  cbv zeta in Hdb, Hp, Hs, Hc. unfold fetched in *. simpl read_raises in *.
  destruct t; rewrite Hread in *; simpl in Hp, Hs, Hc; simpl updated_of;
    (split; [assumption|]); rewrite Hdb.
  - rewrite db_after_filtered_other by discriminate.
    rewrite db_after_filtered_other by discriminate. reflexivity.
  - rewrite db_after_filtered_other by discriminate.
    cbn [db_after_filtered].
    now rewrite db_after_programs_other by discriminate.
  - cbn [db_after_filtered]. rewrite db_after_filtered_other by discriminate.
    now rewrite db_after_programs_other by discriminate.
Qed.

Lemma db_after_programs_no_write env cat rs d :
  (forall t i, write_raises env t i = true) ->
  db_after_programs partial_ratio chat_completion env cat rs d = d.
Proof.
  intros Hw. revert d. induction rs as [|p rs IH]; intros d; simpl; [reflexivity|].
  unfold written. rewrite Hw. simpl. apply IH.
Qed.

Lemma db_after_filtered_no_write env t cat rs d :
  (forall t i, write_raises env t i = true) ->
  db_after_filtered partial_ratio chat_completion env t cat rs d = d.
Proof.
  intros Hw. revert d. induction rs as [|s rs IH]; intros d; simpl; [reflexivity|].
  unfold counted, written. rewrite Hw. simpl. rewrite andb_false_r. apply IH.
Qed.

(** X24: writes that raise do not end the run either.  Take an accepted,
    undisturbed run with a catalog whose first rows have names and in
    which every query raises or replies with data: when every write
    raises it returns "ok" with the three counts at 0 and leaves the
    tables as they were. *)
Theorem run_survives_write_failures (env : environment) (o : options) (w : world)
  (cat : list canonical_program) :
  is_running (st w) = false ->
  load_catalog env = CatalogData cat -> cat <> [] ->
  join_raises (sample_names cat) = false ->
  (forall t, answers env t) ->
  (forall t i, write_raises env t i = true) ->
  exists r w',
    run_pipeline partial_ratio chat_completion (undisturbed env) o w = (Returned r, w')
    /\ res_status r = StatusOk
    /\ programs_updated r = 0%nat /\ stats_updated r = 0%nat /\ cases_updated r = 0%nat
    /\ db w' = db w.
Proof.
  intros Hrun Hcat Hne Hjoin Hans Hw.
  destruct (run_pipeline_undisturbed partial_ratio chat_completion env o w cat
              Hrun Hcat Hne Hjoin Hans)
    as (r & w' & E & Hok).
  exists r, w'. split; [exact E|]. split; [exact Hok|].
  destruct (run_pipeline_ok _ _ _ _ _ _ _ E Hok)
    as (_ & _ & cat' & _ & _ & Hdb & Hp & Hs & Hc).
  cbv zeta in Hdb, Hp, Hs, Hc.
  assert (Hw' : forall t i, write_raises (undisturbed env) t i = true) by exact Hw.
  rewrite !db_after_filtered_no_write, db_after_programs_no_write in Hdb by exact Hw'.
  rewrite Hp, Hs, Hc.
  rewrite !filter_none; [now repeat split| | |];
    intros x _; unfold counted, written; rewrite Hw'; simpl; now rewrite ?andb_false_r.
Qed.

End Runs.






Lemma run_ok_in_order_witness :
  exists e1 e2 e3,
    trace after_first_run
    = trace (fresh sample_db) ++ [EvLoadCatalog; EvSelect programs] ++ e1
        ++ [EvSelect ic_program_stats] ++ e2
        ++ [EvSelect cases] ++ e3
    /\ Forall (works_on programs) e1
    /\ Forall (works_on ic_program_stats) e2
    /\ Forall (works_on cases) e3.
Proof.
  exact (run_ok_in_order sample_partial_ratio sample_chat_completion sample_env defaults
           (fresh sample_db) first_result after_first_run first_run eq_refl).
Defined.

(** The stores of the examples with a table of statistics that cannot be
    read. *)
Definition stats_unreadable : environment :=
  {| load_catalog := CatalogData sample_catalog;
     read_raises := fun t => table_eqb t ic_program_stats;
     read_none := fun _ => false;
     write_raises := fun _ _ => false;
     signal_at := fun _ _ => NoSignal |}.

Lemma run_survives_read_failure_witness :
  exists r w',
    run_pipeline sample_partial_ratio sample_chat_completion (undisturbed stats_unreadable)
      defaults (fresh sample_db) = (Returned r, w')
    /\ res_status r = StatusOk
    /\ updated_of r ic_program_stats = 0%nat
    /\ rows_of (db w') ic_program_stats = rows_of (db (fresh sample_db)) ic_program_stats.
Proof.
  refine (run_survives_read_failure sample_partial_ratio sample_chat_completion
            stats_unreadable defaults (fresh sample_db) sample_catalog ic_program_stats
            eq_refl eq_refl _ eq_refl (fun _ _ => or_intror eq_refl) eq_refl).
  discriminate.
Defined.

(** The stores of the examples when no write goes through. *)
Definition read_only : environment :=
  {| load_catalog := CatalogData sample_catalog;
     read_raises := fun _ => false;
     read_none := fun _ => false;
     write_raises := fun _ _ => true;
     signal_at := fun _ _ => NoSignal |}.

Lemma run_survives_write_failures_witness :
  exists r w',
    run_pipeline sample_partial_ratio sample_chat_completion (undisturbed read_only)
      defaults (fresh sample_db) = (Returned r, w')
    /\ res_status r = StatusOk
    /\ programs_updated r = 0%nat /\ stats_updated r = 0%nat /\ cases_updated r = 0%nat
    /\ db w' = db (fresh sample_db).
Proof.
  refine (run_survives_write_failures sample_partial_ratio sample_chat_completion
            read_only defaults (fresh sample_db) sample_catalog
            eq_refl eq_refl _ eq_refl (fun _ => or_intror eq_refl) (fun _ _ => eq_refl)).
  discriminate.
Defined.

End RunsMore.

(** ** The control calls and the request to run

    [pause_pipeline], [resume_pipeline] and [stop_pipeline] of
    [run_pipeline.py] assign flags of the shared state (their return value
    is a constant dictionary); [run_canonical] of [api/v1/canonical.py]
    optionally erases the matches of the three tables, one [try] per
    table, and then calls [run_pipeline]. *)

Module Control.

Definition pause_pipeline (s : pipeline_state) : pipeline_state :=
  {| is_running := is_running s; is_paused := true; should_stop := should_stop s;
     current_table := current_table s; last_processed_id := last_processed_id s;
     processed := processed s; total := total s |}.

Definition resume_pipeline (s : pipeline_state) : pipeline_state :=
  {| is_running := is_running s; is_paused := false; should_stop := should_stop s;
     current_table := current_table s; last_processed_id := last_processed_id s;
     processed := processed s; total := total s |}.

Definition stop_pipeline (s : pipeline_state) : pipeline_state :=
  {| is_running := is_running s; is_paused := false; should_stop := true;
     current_table := current_table s; last_processed_id := last_processed_id s;
     processed := processed s; total := total s |}.

(** The control calls a client can make. *)
Inductive request : Type := Pause | Resume | Stop.

Definition serve (q : request) : pipeline_state -> pipeline_state :=
  match q with
  | Pause => pause_pipeline
  | Resume => resume_pipeline
  | Stop => stop_pipeline
  end.

Definition serve_all (qs : list request) (s : pipeline_state) : pipeline_state :=
  fold_left (fun s q => serve q s) qs s.

End Control.

Module Api.

(** [update({"canonical_program_id": None})] on one row. *)
Definition clear_row (r : row) : row :=
  {| row_id := row_id r; raw_name := raw_name r; requirements := requirements r;
     canonical_program_id := None; category := category r |}.

(** The update without a filter, inside its [try]: when the store refuses
    it the table stays as it is. *)
Definition clear_table (clear_raises : table -> bool) (t : table) (d : database) : database :=
  if clear_raises t then d else set_rows d t (map clear_row (rows_of d t)).

Definition clear_existing_matches (clear_raises : table -> bool) (d : database) : database :=
  clear_table clear_raises cases
    (clear_table clear_raises ic_program_stats
       (clear_table clear_raises programs d)).

Section Request.

Variable partial_ratio : string -> string -> Q.
Variable chat_completion : string -> option string.
Variable env : environment.
Variable clear_raises : table -> bool.

Definition run_canonical (clear_existing : bool) (o : options) (w : world) : outcome * world :=
  let w := if clear_existing then with_db (clear_existing_matches clear_raises) w else w in
  run_pipeline partial_ratio chat_completion env o w.

End Request.

End Api.

Module ControlFacts.

Import Control Api CanonicalMapperFacts RunPipelineFacts.
Import Stdlib.Sorting.Permutation.

Local Open Scope Z_scope.

Lemma serve_all_is_running qs s : is_running (serve_all qs s) = is_running s.
Proof.
  unfold serve_all. revert s. induction qs as [|q qs IH]; intros s; simpl; [reflexivity|].
  rewrite IH. now destruct q.
Qed.

Lemma serve_all_mark_started qs s : mark_started (serve_all qs s) = mark_started s.
Proof.
  unfold serve_all. revert s. induction qs as [|q qs IH]; intros s; simpl; [reflexivity|].
  rewrite IH. now destruct q.
Qed.

Lemma rows_of_clear_existing cr d t :
  rows_of (clear_existing_matches cr d) t
  = if cr t then rows_of d t else map clear_row (rows_of d t).
Proof.
  unfold clear_existing_matches, clear_table.
  destruct t, (cr programs), (cr ic_program_stats), (cr cases); reflexivity.
Qed.

Lemma selected_clear_row o t r :
  resume_from_id o = None -> selected o t (clear_row r) = true.
Proof.
  intros H. unfold selected. rewrite H. simpl.
  now destruct (only_unmatched o), (resume_from_table o).
Qed.

Lemma filter_all {A} (f : A -> bool) (l : list A) :
  (forall x, In x l -> f x = true) -> filter f l = l.
Proof.
  induction l as [|a l IH]; intros H; simpl; [reflexivity|].
  rewrite (H a) by now left. f_equal. apply IH. intros x Hx. apply H. now right.
Qed.

Lemma select_cleared o t rows d :
  resume_from_id o = None ->
  rows_of d t = map clear_row rows ->
  List.length (select o t d) = List.length rows.
Proof.
  intros Ho Hd. unfold select. rewrite Hd.
  rewrite (Permutation_length (SelectMore.order_by_id_perm _)).
  rewrite filter_all; [apply length_map|].
  intros x Hx. apply in_map_iff in Hx. destruct Hx as (r & <- & _).
  now apply selected_clear_row.
Qed.

Section Requests.

Variable partial_ratio : string -> string -> Q.
Variable chat_completion : string -> option string.

(** X25: pause, resume and stop requests made while no run is active are
    forgotten when the next run starts: the run, its result, the tables,
    the trace and the state it leaves are the same as without them. *)
Theorem requests_before_start_are_lost (env : environment) (o : options)
  (qs : list request) (w : world) :
  is_running (st w) = false ->
  run_pipeline partial_ratio chat_completion env o (with_state (serve_all qs) w)
  = run_pipeline partial_ratio chat_completion env o w.
Proof.
  intros Hrun. unfold run_pipeline.
  cbn [st with_state]. rewrite serve_all_is_running, Hrun.
  assert (E : with_state mark_started (with_state (serve_all qs) w)
              = with_state mark_started w).
  { unfold with_state. cbn [db st trace]. now rewrite serve_all_mark_started. }
  cbv zeta. rewrite E. reflexivity.
Qed.


(** X27: with [clear_existing] and no point of resumption every programme
    is matched again.  Take an accepted, undisturbed run with a catalog
    whose first rows have names and in which every query raises or replies
    with data: when the erasure of [programs] goes through, the query on
    the table does not raise and its writes succeed, the run returns "ok"
    and has updated as many programmes as the table has rows, whether they
    had a match before or not. *)
Theorem clear_existing_rematches_programs (env : environment)
  (clear_raises : table -> bool) (o : options) (w : world)
  (cat : list canonical_program) :
  is_running (st w) = false ->
  load_catalog env = CatalogData cat -> cat <> [] ->
  join_raises (sample_names cat) = false ->
  (forall t, answers env t) ->
  clear_raises programs = false ->
  read_raises env programs = false ->
  (forall i, write_raises env programs i = false) ->
  resume_from_id o = None ->
  exists r w',
    run_canonical partial_ratio chat_completion (undisturbed env) clear_raises true o w
    = (Returned r, w')
    /\ res_status r = StatusOk
    /\ programs_updated r = List.length (rows_of (db w) programs).
Proof.
  intros Hrun Hcat Hne Hjoin Hans Hclear Hread Hwrite Ho.
  set (w1 := with_db (clear_existing_matches clear_raises) w).
  destruct (run_pipeline_undisturbed partial_ratio chat_completion env o w1 cat
              Hrun Hcat Hne Hjoin Hans)
    as (r & w' & E & Hok).
  exists r, w'. split; [exact E|]. split; [exact Hok|].
  destruct (run_pipeline_ok _ _ _ _ _ _ _ E Hok)
    as (_ & _ & cat' & _ & _ & _ & Hp & _).
  rewrite Hp. unfold fetched. simpl read_raises. rewrite Hread.
  rewrite filter_all.
  - apply select_cleared; [exact Ho|].
    unfold w1. cbn [db with_db]. now rewrite rows_of_clear_existing, Hclear.
  - intros x _. unfold written. simpl write_raises. now rewrite Hwrite.
Qed.

End Requests.

Lemma requests_before_start_are_lost_witness :
  run_pipeline sample_partial_ratio sample_chat_completion sample_env defaults
    (with_state (serve_all [Pause; Stop]) (fresh sample_db))
  = run_pipeline sample_partial_ratio sample_chat_completion sample_env defaults
      (fresh sample_db).
Proof.
  exact (requests_before_start_are_lost sample_partial_ratio sample_chat_completion
           sample_env defaults [Pause; Stop] (fresh sample_db) eq_refl).
Defined.



Lemma clear_existing_rematches_programs_witness :
  exists r w',
    run_canonical sample_partial_ratio sample_chat_completion (undisturbed sample_env)
      (fun _ => false) true defaults (fresh sample_db)
    = (Returned r, w')
    /\ res_status r = StatusOk
    /\ programs_updated r = List.length (rows_of (db (fresh sample_db)) programs).
Proof.
  refine (clear_existing_rematches_programs sample_partial_ratio sample_chat_completion
            sample_env (fun _ => false) defaults (fresh sample_db) sample_catalog
            eq_refl eq_refl _ eq_refl (fun _ => or_intror eq_refl)
            eq_refl eq_refl (fun _ => eq_refl) eq_refl).
  discriminate.
Defined.

End ControlFacts.

(** ** More on the state lock *)

Module LockingMore.

Import Locking LockingFacts.

Lemma step_stays s a s' :
  lock_follows_text s -> at_ s <> Left -> step a s = Some s' -> at_ s' <> Left.
Proof.
  unfold lock_follows_text, step, worker_step, free, move.
  destruct s as [l p q pos]; simpl. intros -> Hpos.
  destruct a, pos; simpl; try discriminate; try congruence;
    try (intros [= <-]; simpl; discriminate);
    destruct q, p; simpl; intros [= <-]; simpl; discriminate.
Qed.

Lemma exec_stays schedule s s' :
  lock_follows_text s -> at_ s <> Left -> exec schedule s = Some s' -> at_ s' <> Left.
Proof.
  revert s. induction schedule as [|a schedule IH]; simpl; intros s Hs Hpos.
  - now intros [= <-].
  - destruct (step a s) as [s1|] eqn:E; [|discriminate].
    apply IH.
    + eapply step_lock_follows_text; eauto.
    + eapply step_stays; eauto.
Qed.

Lemma step_keeps_stop s a s' : stop s = true -> step a s = Some s' -> stop s' = true.
Proof.
  unfold step, worker_step, free, move.
  destruct s as [l p q pos]; simpl. intros ->.
  destruct a; [destruct pos| | | |]; destruct l; simpl; try discriminate;
    try (intros [= <-]; reflexivity);
    destruct p; intros [= <-]; reflexivity.
Qed.

Lemma exec_keeps_stop schedule s s' :
  stop s = true -> exec schedule s = Some s' -> stop s' = true.
Proof.
  revert s. induction schedule as [|a schedule IH]; simpl; intros s Hs.
  - now intros [= <-].
  - destruct (step a s) as [s1|] eqn:E; [|discriminate].
    apply IH. eapply step_keeps_stop; eauto.
Qed.

(** X28: under every interleaving of the worker with pause, resume, stop
    and status calls, the lock is held exactly while the worker stands
    inside the block at the head of a record, and by nobody else: it is
    free while the worker matches and writes, and no caller keeps it. *)
Theorem lock_held_exactly_inside_block (s : state) :
  reachable start s ->
  lock s = if inside_block (at_ s) then Some Worker else None.
Proof.
  intros (schedule & Hexec).
  apply (exec_lock_follows_text schedule start s); [reflexivity|exact Hexec].
Qed.

(** X29: under every interleaving the [return] of the stop branch is never
    reached, and a stop flag that is set stays set: neither the worker nor
    a pause or resume call clears it. *)
Theorem stop_branch_never_returns (s : state) :
  reachable start s ->
  at_ s <> Left
  /\ (stop s = true -> forall s', reachable s s' -> stop s' = true).
Proof.
  intros (schedule & Hexec). split.
  - apply (exec_stays schedule start s); [reflexivity|discriminate|exact Hexec].
  - intros Hstop s' (schedule' & Hexec').
    exact (exec_keeps_stop schedule' s s' Hstop Hexec').
Qed.

Lemma asleep_under_lock_reachable : reachable start asleep_under_lock.
Proof. exists pause_during_a_record. reflexivity. Qed.

Lemma lock_held_exactly_inside_block_witness :
  lock asleep_under_lock
  = if inside_block (at_ asleep_under_lock) then Some Worker else None.
Proof.
  exact (lock_held_exactly_inside_block asleep_under_lock asleep_under_lock_reachable).
Defined.

(** The state in which the worker has found the stop flag. *)
Definition stop_found : state :=
  {| lock := Some Worker; paused := false; stop := true; at_ := NestedAcquire |}.

Lemma stop_found_reachable : reachable start stop_found.
Proof. exists stop_during_a_record. reflexivity. Qed.

Lemma stop_branch_never_returns_witness :
  at_ stop_found <> Left
  /\ (stop stop_found = true -> forall s', reachable stop_found s' -> stop s' = true).
Proof.
  exact (stop_branch_never_returns stop_found stop_found_reachable).
Defined.

End LockingMore.

(** ** More on the checkpoint *)

Module CheckpointMore.

Import RunPipelineFacts.

Local Open Scope Z_scope.

Lemma hd_insert_by_id r l :
  hd_error (insert_by_id r l)
  = match l with
    | [] => Some r
    | x :: _ => if row_id r <? row_id x then Some r else Some x
    end.
Proof. destruct l as [|x l]; simpl; [reflexivity|]. now destruct (row_id r <? row_id x). Qed.

(** The least id of a list is the id at the head of the list in the order
    of the query. *)
Lemma least_id_head l : least_id l = option_map row_id (hd_error (order_by_id l)).
Proof.
  induction l as [|a l IH]; [reflexivity|].
  change (least_id (a :: l))
    with (match least_id l with
          | Some m => Some (Z.min (row_id a) m)
          | None => Some (row_id a)
          end).
  rewrite IH. cbn [order_by_id]. rewrite hd_insert_by_id.
  destruct (order_by_id l) as [|x l']; cbn [hd_error option_map]; [reflexivity|].
  destruct (row_id a <? row_id x) eqn:E; cbn [option_map]; f_equal.
  - apply Z.ltb_lt in E. lia.
  - apply Z.ltb_ge in E. lia.
Qed.

Lemma greatest_id_spec l :
  match greatest_id l with
  | Some m => (exists r, In r l /\ row_id r = m) /\ forall r, In r l -> row_id r <= m
  | None => l = []
  end.
Proof.
  induction l as [|a l IH]; [reflexivity|].
  change (greatest_id (a :: l))
    with (match greatest_id l with
          | Some m => Some (Z.max (row_id a) m)
          | None => Some (row_id a)
          end).
  destruct (greatest_id l) as [m|].
  - destruct IH as ((r & Hr & Hm) & Hle). split.
    + destruct (Z.max_spec (row_id a) m) as [[_ ->] | [_ ->]].
      * exists r. split; [now right|exact Hm].
      * exists a. split; [now left|reflexivity].
    + intros x [<- | Hx]; [lia|]. specialize (Hle x Hx). lia.
  - subst l. split.
    + exists a. split; [now left|reflexivity].
    + intros x [<- | []]. lia.
Qed.

Lemma selected_defaults t r : selected defaults t r = unmatched r.
Proof. unfold selected, unmatched. simpl. apply andb_true_r. Qed.

Lemma select_defaults t d : select defaults t d = order_by_id (filter unmatched (rows_of d t)).
Proof.
  unfold select. f_equal. apply filter_ext. intros r. apply selected_defaults.
Qed.

Lemma order_by_id_length l : List.length (order_by_id l) = List.length l.
Proof.
  apply Stdlib.Sorting.Permutation.Permutation_length, SelectMore.order_by_id_perm.
Qed.

(** X30: for a table whose queries do not raise, the checkpoint reports as
    first unmatched id the id of the first record that a run with the
    default options takes from the table, as unmatched count the number of
    records such a run takes, and as last processed id the greatest id
    among the matched rows (none when no row is matched). *)
Theorem checkpoint_figures (check_raises : table -> bool) (d : database) (t : table)
  (l f : option Z) (n : nat) :
  fst (get_checkpoint check_raises d) t = Checked l f n ->
  f = option_map row_id (hd_error (select defaults t d))
  /\ n = List.length (select defaults t d)
  /\ match l with
     | Some m =>
         (exists r, In r (rows_of d t) /\ matched r = true /\ row_id r = m)
         /\ forall r, In r (rows_of d t) -> matched r = true -> row_id r <= m
     | None => forall r, In r (rows_of d t) -> matched r = false
     end.
Proof.
  cbn [get_checkpoint fst]. unfold check_table.
  destruct (check_raises t); [discriminate|]. intros [= <- <- <-].
  rewrite select_defaults, order_by_id_length. split; [apply least_id_head|].
  split; [reflexivity|].
  pose proof (greatest_id_spec (filter matched (rows_of d t))) as G.
  destruct (greatest_id (filter matched (rows_of d t))) as [m|].
  - destruct G as ((r & Hr & Hm) & Hle). apply filter_In in Hr. split.
    + exists r. tauto.
    + intros x Hx Hmx. apply Hle. apply filter_In. tauto.
  - intros r Hr. destruct (matched r) eqn:E; [|reflexivity].
    assert (Hin : In r (filter matched (rows_of d t))) by (apply filter_In; tauto).
    rewrite G in Hin. destruct Hin.
Qed.

Lemma checkpoint_figures_witness :
  Some 7 = option_map row_id
             (hd_error (select defaults ic_program_stats CheckpointFacts.programs_done_stats_open))
  /\ 1%nat = List.length (select defaults ic_program_stats CheckpointFacts.programs_done_stats_open)
  /\ match Some 6 with
     | Some m =>
         (exists r, In r (rows_of CheckpointFacts.programs_done_stats_open ic_program_stats)
                    /\ matched r = true /\ row_id r = m)
         /\ forall r, In r (rows_of CheckpointFacts.programs_done_stats_open ic_program_stats) ->
              matched r = true -> row_id r <= m
     | None =>
         forall r, In r (rows_of CheckpointFacts.programs_done_stats_open ic_program_stats) ->
           matched r = false
     end.
Proof.
  exact (checkpoint_figures (fun _ => false) CheckpointFacts.programs_done_stats_open
           ic_program_stats (Some 6) (Some 7) 1%nat eq_refl).
Defined.

End CheckpointMore.
